(** * Circulation manager: feed extraction, asset mirroring, session cache

    A shallow embedding of the parts of the circulation manager that turn a
    parsed OPDS 2.0 feed into metadata records ([core/opds2_import.py]),
    mirror representations to S3 ([s3.py]) and cache database records per
    session ([core/model/hassessioncache.py]), with the properties of these
    functions stated and proved.

    Conventions of the embedding:
    - a Python value that may be [None] is an [option];
    - a Python [dict] is a [gmap]; a list is a [list];
    - a call that may raise returns a [result]: [Ok v] or [Raise e];
    - a loop that Python does not bound takes a fuel argument and returns
      [None] when the fuel runs out;
    - an object mutated through several references lives in a store and is
      named by its position there. *)

From Stdlib Require Import ZArith Lia Ascii String.
From stdpp Require Import gmap strings list fin_maps pretty sorting.

Set Warnings "-register-all".

Open Scope string_scope.
Open Scope Z_scope.
Open Scope list_scope.

(** ** Python exceptions and fallible calls *)

Inductive exn : Type :=
| ValueError
| KeyError
| AttributeError
| TypeError
| ConnectionError
| HTTPError
| OtherError (msg : string).

#[global] Instance exn_eq_dec : EqDecision exn.
Proof. solve_decision. Defined.

Inductive result (A : Type) : Type :=
| Ok (v : A)
| Raise (e : exn).

Arguments Ok {A} v.
Arguments Raise {A} e.

(** Sequencing of fallible calls: the first exception propagates.  With
    these instances stdpp's [x ← r; k] reads as Python's statement order. *)
#[global] Instance result_ret : MRet result := fun A v => Ok v.
#[global] Instance result_bind : MBind result := fun A B k r =>
  match r with
  | Ok v => k v
  | Raise e => Raise e
  end.

Definition is_ok {A : Type} (r : result A) : bool :=
  match r with Ok _ => true | Raise _ => false end.

(** Python truthiness of an optional string: [None] and the empty
    string are falsy. *)
Definition truthy (s : option string) : bool :=
  match s with
  | Some s => negb (String.eqb s EmptyString)
  | None => false
  end.

(** [first_or_default(collection, default)] of webpub_manifest_parser.utils. *)
Definition first_or_default {A : Type} (l : list A) (default : option A) : option A :=
  match l with
  | x :: _ => Some x
  | [] => default
  end.

(** ** Identifiers and coverage failures *)

(** [Identifier]: the columns the importer reads. *)
Record Identifier : Type := mkIdentifier {
  id_type : option string;
  identifier : option string
}.

#[global] Instance Identifier_eq_dec : EqDecision Identifier.
Proof. solve_decision. Defined.

#[global] Instance Identifier_countable : Countable Identifier.
Proof.
  refine (inj_countable' (fun i => (id_type i, identifier i))
                         (fun p => mkIdentifier p.1 p.2) _).
  by intros [].
Defined.

(** [CoverageFailure(identifier, message, data_source=..., transient=...)]. *)
Record CoverageFailure : Type := mkCoverageFailure {
  cf_identifier : Identifier;
  cf_message : string;
  cf_data_source : string;
  cf_transient : bool
}.

(** A key of the [failures] dictionary.  The importer stores under
    [identifier.identifier] (a string) but asks [identifier not in failures]
    with the [Identifier] object itself, so a key is either. *)
Inductive FailureKey : Type :=
| KStr (s : string)
| KIdent (i : Identifier).

#[global] Instance FailureKey_eq_dec : EqDecision FailureKey.
Proof. solve_decision. Defined.

#[global] Instance FailureKey_countable : Countable FailureKey.
Proof.
  refine (inj_countable' (fun k => match k with KStr s => inl s | KIdent i => inr i end)
                         (fun x => match x with inl s => KStr s | inr i => KIdent i end) _).
  by intros [].
Defined.

Abbreviation Failures := (gmap FailureKey (list CoverageFailure)).

(** A mapping as the annotation [Dict[str, List[CoverageFailure]]] has it:
    every key is a string. *)
Definition str_keyed (failures : Failures) : Prop :=
  forall i, failures !! KIdent i = None.


(** ** The parsed feed (webpub_manifest_parser's AST, as the importer reads it) *)

(** An indirect-acquisition object: its [type] and its [child] objects. *)
Inductive AcquisitionObject : Type :=
| mkAcquisition (acq_type : option string) (acq_child : list AcquisitionObject).

Definition acq_type (a : AcquisitionObject) : option string :=
  match a with mkAcquisition t _ => t end.

Definition acq_child (a : AcquisitionObject) : list AcquisitionObject :=
  match a with mkAcquisition _ c => c end.

(** [link.properties.availability]: only [state] is read. *)
Record Availability : Type := mkAvailability {
  state : string
}.

Record LinkProperties : Type := mkLinkProperties {
  availability : option Availability;
  indirect_acquisition : list AcquisitionObject
}.

Record Link : Type := mkLink {
  rels : list string;
  type : option string;
  href : option string;
  properties : option LinkProperties;
  width : option Z;
  height : option Z
}.

Record PublicationMetadata : Type := mkPublicationMetadata {
  pm_identifier : option string;
  pm_title : option string;
  pm_subtitle : option string;
  pm_type : option string;
  pm_description : option string;
  pm_modified : option Z
}.

(** [publication.images] is absent or a collection with [links]. *)
Record Publication : Type := mkPublication {
  metadata : PublicationMetadata;
  links : list Link;
  images : option (list Link)
}.

Record Group : Type := mkGroup {
  group_publications : list Publication
}.

Record Feed : Type := mkFeed {
  feed_links : list Link;
  publications : list Publication;
  groups : list Group
}.

(** A parser error, with the publication [NodeFinder.find_parent_or_self]
    finds above its node ([None] when the node is in no publication). *)
Record ParserError : Type := mkParserError {
  error_publication : option Publication;
  error_message : string
}.

Record ManifestParserResult : Type := mkManifestParserResult {
  root : Feed;
  errors : list ParserError
}.

(** ** The importer's output records (core/metadata_layer.py) *)

(** [LinkData]; [thumbnail] points from an image to its thumbnail. *)
Inductive LinkData : Type :=
| mkLinkData (rel : option string) (href : option string)
    (media_type : option string) (rights_uri : option string)
    (content : option string) (thumbnail : option LinkData).

Definition ld_rel (l : LinkData) : option string :=
  match l with mkLinkData r _ _ _ _ _ => r end.
Definition ld_href (l : LinkData) : option string :=
  match l with mkLinkData _ h _ _ _ _ => h end.
Definition ld_media_type (l : LinkData) : option string :=
  match l with mkLinkData _ _ m _ _ _ => m end.
Definition ld_rights_uri (l : LinkData) : option string :=
  match l with mkLinkData _ _ _ r _ _ => r end.
Definition ld_content (l : LinkData) : option string :=
  match l with mkLinkData _ _ _ _ c _ => c end.
Definition ld_thumbnail (l : LinkData) : option LinkData :=
  match l with mkLinkData _ _ _ _ _ t => t end.

Record FormatData : Type := mkFormatData {
  content_type : option string;
  drm_scheme : option string;
  fd_link : LinkData;
  fd_rights_uri : string
}.


(** [Metadata], with the fields the claims below read. *)
Record Metadata : Type := mkMetadata {
  md_primary_identifier : Identifier;
  md_title : option string;
  md_medium : option string;
  md_links : list LinkData;
  md_formats : list FormatData
}.

(** The outcome of a call whose loops are bounded by fuel: [None] when the
    fuel did not suffice, else what the call returned or raised. *)
Abbreviation outcome A := (option (result A)).


(** Membership in a Python list or set of strings. *)
Definition str_in (s : string) (l : list string) : bool :=
  bool_decide (s ∈ l).

Definition opt_str_in (s : option string) (l : list string) : bool :=
  match s with
  | Some s => str_in s l
  | None => false
  end.

(** ** Sorting as Python's [sorted] does it

    [sorted(l, key=k)] is stable and ascending; a stable sort has one result,
    which insertion from the right computes. *)
Section Sorted.

Context {A : Type}.

(** The key of [_extract_image_links]: a pair, compared as tuples are. *)
Variable key : A -> Z * Z.

Definition key_le (p q : Z * Z) : bool :=
  (p.1 <? q.1) || ((p.1 =? q.1) && (p.2 <=? q.2)).

Fixpoint insert_sorted (x : A) (l : list A) : list A :=
  match l with
  | [] => [x]
  | y :: ys =>
      if key_le (key x) (key y) then x :: y :: ys
      else y :: insert_sorted x ys
  end.

Fixpoint sorted (l : list A) : list A :=
  match l with
  | [] => []
  | x :: xs => insert_sorted x (sorted xs)
  end.

End Sorted.

Module OPDS2Importer.

Section Extraction.

(** Constants of the model classes, which are defined elsewhere:
    [LinkRelations.CIRCULATION_ALLOWED], [DeliveryMechanism.KNOWN_DRM_TYPES]
    and [NO_DRM], [MediaTypes.BOOK_MEDIA_TYPES] and [AUDIOBOOK_MEDIA_TYPES],
    [Hyperlink.IMAGE], [THUMBNAIL_IMAGE] and [DESCRIPTION],
    [MediaTypes.TEXT_PLAIN], [RightsStatus.rights_uri_from_string] of the empty string,
    [OPDS2AvailabilityType.AVAILABLE.value]. *)
Variable CIRCULATION_ALLOWED : list string.
Variable KNOWN_DRM_TYPES : list string.
Variable NO_DRM : option string.
Variable BOOK_MEDIA_TYPES : list string.
Variable AUDIOBOOK_MEDIA_TYPES : list string.
Variable IMAGE : string.
Variable THUMBNAIL_IMAGE : string.
Variable DESCRIPTION : string.
Variable TEXT_PLAIN : string.
Variable default_rights_uri : string.
Variable AVAILABLE : string.

(** [Edition.medium_from_media_type] and [Edition.additional_type_to_medium]. *)
Variable medium_from_media_type : option string -> option string.
Variable additional_type_to_medium : gmap string string.

(** [urlparse(href).netloc] being non-empty, and [urljoin]. *)
Variable has_netloc : option string -> bool.
Variable urljoin : string -> option string -> option string.

(** [_is_acquisition_link]: [any] over the relations that are in
    [CIRCULATION_ALLOWED]; [any] asks for a truthy one. *)
Definition _is_acquisition_link (link : Link) : bool :=
  existsb (fun rel => negb (String.eqb rel EmptyString))
          (filter (fun rel => rel ∈ CIRCULATION_ALLOWED) (rels link)).

(** The [while nested_acquisition_object.child:] loop.  Its body assigns
    [first_or_default(acquisition_object.child)]: it reads the child of the
    entry, not of the object reached so far. *)
Fixpoint nested_loop (fuel : nat) (acquisition_object : AcquisitionObject)
    (nested : option AcquisitionObject) : outcome AcquisitionObject :=
  match nested with
  | None => Some (Raise AttributeError)
  | Some n =>
      match acq_child n with
      | [] => Some (Ok n)
      | _ :: _ =>
          match fuel with
          | O => None
          | S fuel' =>
              nested_loop fuel' acquisition_object
                (first_or_default (acq_child acquisition_object) None)
          end
      end
  end.

(** The body of [for acquisition_object in ...indirect_acquisition]. *)
Fixpoint indirect_loop (fuel : nat) (objects : list AcquisitionObject)
    (acc : list (option string * option string))
  : outcome (list (option string * option string)) :=
  match objects with
  | [] => Some (Ok acc)
  | acquisition_object :: rest =>
      match nested_loop fuel acquisition_object (Some acquisition_object) with
      | None => None
      | Some (Raise e) => Some (Raise e)
      | Some (Ok nested) =>
          let drm_scheme :=
            if opt_str_in (acq_type acquisition_object) KNOWN_DRM_TYPES
            then acq_type acquisition_object
            else NO_DRM in
          indirect_loop fuel rest (acc ++ [(acq_type nested, drm_scheme)])
      end
  end.

(** [_extract_media_types_and_drm_scheme_from_link] *)
Definition _extract_media_types_and_drm_scheme_from_link (fuel : nat) (link : Link)
  : outcome (list (option string * option string)) :=
  match properties link with
  | Some props =>
      if match availability props with
         | None => true
         | Some a => String.eqb (state a) AVAILABLE
         end
      then indirect_loop fuel (indirect_acquisition props) []
      else Some (Ok [])
  | None =>
      if opt_str_in (type link) BOOK_MEDIA_TYPES
         || opt_str_in (type link) AUDIOBOOK_MEDIA_TYPES
      then Some (Ok [(type link, NO_DRM)])
      else Some (Ok [])
  end.

(** [_extract_medium_from_links]: [derived] is the loop variable the
    function returns, kept across iterations. *)
Fixpoint medium_loop (fuel : nat) (links : list Link) (derived : option string)
  : outcome (option string) :=
  match links with
  | [] => Some (Ok derived)
  | link :: rest =>
      if match rels link with [] => true | _ => false end
         || negb (truthy (type link))
         || negb (_is_acquisition_link link)
      then medium_loop fuel rest derived
      else
        match _extract_media_types_and_drm_scheme_from_link fuel link with
        | None => None
        | Some (Raise e) => Some (Raise e)
        | Some (Ok found) =>
            let link_media_type :=
              match first_or_default found (Some (None, None)) with
              | Some (media_type, _) => media_type
              | None => None
              end in
            let derived := medium_from_media_type link_media_type in
            if truthy derived then Some (Ok derived)
            else medium_loop fuel rest derived
        end
  end.

Definition _extract_medium_from_links (fuel : nat) (links : list Link)
  : outcome (option string) :=
  medium_loop fuel links None.

(** [_extract_medium(publication, default_medium)] *)
Definition _extract_medium (publication : Publication)
    (default_medium : option string) : option string :=
  let medium := default_medium in
  if truthy (pm_type (metadata publication))
  then
    match pm_type (metadata publication) with
    | Some t =>
        match additional_type_to_medium !! t with
        | Some m => Some m
        | None => default_medium
        end
    | None => medium
    end
  else medium.

(** The medium of a publication as [_extract_publication_metadata] computes
    it: [derived_medium = self._extract_medium_from_links(publication.links)]
    then [medium = self._extract_medium(publication, derived_medium)]. *)
Definition publication_medium (fuel : nat) (publication : Publication)
  : outcome (option string) :=
  match _extract_medium_from_links fuel (links publication) with
  | None => None
  | Some (Raise e) => Some (Raise e)
  | Some (Ok derived_medium) =>
      Some (Ok (_extract_medium publication derived_medium))
  end.

(** [_extract_link(link, feed_self_url, default_link_rel)] *)
Definition _extract_link (link : Link) (feed_self_url : option string)
    (default_link_rel : option string) : LinkData :=
  let rel := first_or_default (rels link) default_link_rel in
  let href :=
    match feed_self_url with
    | Some base =>
        if truthy feed_self_url && negb (has_netloc (href link))
        then urljoin base (href link)
        else href link
    | None => href link
    end in
  mkLinkData rel href (type link) (Some default_rights_uri) None None.

(** [_extract_description_link] *)
Definition _extract_description_link (publication : Publication) : option LinkData :=
  if truthy (pm_description (metadata publication))
  then Some (mkLinkData (Some DESCRIPTION) None (Some TEXT_PLAIN) None
                        (pm_description (metadata publication)) None)
  else None.

(** [(link.width or 0, link.height or 0)] *)
Definition image_key (link : Link) : Z * Z :=
  (default 0 (width link), default 0 (height link)).

(** [list(reversed(sorted(publication.images.links, key=...)))] *)
Definition sorted_raw_image_links (image_links : list Link) : list Link :=
  reverse (sorted image_key image_links).

(** [_extract_image_links] *)
Definition _extract_image_links (publication : Publication)
    (feed_self_url : option string) : list LinkData :=
  match images publication with
  | None => []
  | Some raw =>
      let s := sorted_raw_image_links raw in
      let image_links := [] in
      let image_links :=
        match s !! 0%nat with
        | Some l0 => image_links ++ [_extract_link l0 feed_self_url (Some IMAGE)]
        | None => image_links
        end in
      let image_links :=
        match s !! 1%nat with
        | Some l1 => image_links ++ [_extract_link l1 feed_self_url (Some THUMBNAIL_IMAGE)]
        | None => image_links
        end in
      image_links
  end.

(** [_extract_links] *)
Definition _extract_links (publication : Publication)
    (feed_self_url : option string) : list LinkData :=
  let links := map (fun link => _extract_link link feed_self_url None)
                   (links publication) in
  let links :=
    match _extract_description_link publication with
    | Some description_link => links ++ [description_link]
    | None => links
    end in
  links ++ _extract_image_links publication feed_self_url.

End Extraction.

Section Formats.

Variable CIRCULATION_ALLOWED : list string.
Variable KNOWN_DRM_TYPES : list string.
Variable NO_DRM : option string.
Variable BOOK_MEDIA_TYPES : list string.
Variable AUDIOBOOK_MEDIA_TYPES : list string.
Variable AVAILABLE : string.

(** [Hyperlink.OPEN_ACCESS_DOWNLOAD], [Representation.BOOK_MEDIA_TYPES] and
    [RightsStatus.OPEN_ACCESS], defined elsewhere. *)
Variable OPEN_ACCESS_DOWNLOAD : string.
Variable REPRESENTATION_BOOK_MEDIA_TYPES : list string.
Variable OPEN_ACCESS : list string.

(** [_is_open_access_link_(link_data, circulation_data)]; of the circulation
    data only [default_rights_uri] is read. *)
Definition _is_open_access_link_ (link_data : LinkData)
    (circulation_default_rights_uri : string) : bool :=
  let open_access_link :=
    bool_decide (ld_rel link_data = Some OPEN_ACCESS_DOWNLOAD)
    && truthy (ld_href link_data) in
  if open_access_link then true
  else
    let rights_uri :=
      if truthy (ld_rights_uri link_data) then ld_rights_uri link_data
      else Some circulation_default_rights_uri in
    opt_str_in (ld_media_type link_data) REPRESENTATION_BOOK_MEDIA_TYPES
    && truthy (ld_href link_data)
    && opt_str_in rights_uri OPEN_ACCESS.

(** [_find_formats_in_non_open_access_acquisition_links]: the loop over
    [zip(ast_link_list, link_data_list)]. *)
Fixpoint formats_loop (fuel : nat) (pairs : list (Link * LinkData))
    (rights_uri : string) (formats : list FormatData)
  : outcome (list FormatData) :=
  match pairs with
  | [] => Some (Ok formats)
  | (ast_link, parsed_link) :: rest =>
      if negb (_is_acquisition_link CIRCULATION_ALLOWED ast_link)
      then formats_loop fuel rest rights_uri formats
      else if _is_open_access_link_ parsed_link rights_uri
      then formats_loop fuel rest rights_uri formats
      else
        match _extract_media_types_and_drm_scheme_from_link
                KNOWN_DRM_TYPES NO_DRM BOOK_MEDIA_TYPES AUDIOBOOK_MEDIA_TYPES
                AVAILABLE fuel ast_link with
        | None => None
        | Some (Raise e) => Some (Raise e)
        | Some (Ok found) =>
            formats_loop fuel rest rights_uri
              (formats ++
               map (fun '(content_type, drm_scheme) =>
                      mkFormatData content_type drm_scheme parsed_link rights_uri)
                   found)
        end
  end.

Definition _find_formats_in_non_open_access_acquisition_links (fuel : nat)
    (ast_link_list : list Link) (link_data_list : list LinkData)
    (rights_uri : string) : outcome (list FormatData) :=
  formats_loop fuel (zip ast_link_list link_data_list) rights_uri [].

End Formats.

Section RecordCoverageFailure.

(** [self.data_source] *)
Variable data_source : string.

(** [_record_coverage_failure(failures, identifier, error_message, transient)]:
    returns the mutated dictionary together with the new failure. *)
Definition _record_coverage_failure (failures : Failures) (ident : Identifier)
    (error_message : string) (transient : bool)
  : result (Failures * CoverageFailure) :=
  match identifier ident with
  | None => Raise ValueError
  | Some key =>
      let failures1 :=
        match failures !! KIdent ident with
        | None => <[KStr key := []]> failures
        | Some _ => failures
        end in
      let failure := mkCoverageFailure ident error_message data_source transient in
      match failures1 !! KStr key with
      | None => Raise KeyError
      | Some recorded =>
          Ok (<[KStr key := recorded ++ [failure]]> failures1, failure)
      end
  end.

End RecordCoverageFailure.

Section FeedData.

(** [self.data_source] and [self.data_source_name]. *)
Variable data_source : string.

(** [OPDSImporter._parse_identifier], defined elsewhere: the
    [Identifier] of a raw identifier string, [None] when unrecognized. *)
Variable _parse_identifier : option string -> option Identifier.

(** What [_get_ignored_identifier_types] returns for the collection. *)
Variable ignored_identifier_types : list string.

(** The call [self._extract_publication_metadata(feed, publication,
    self.data_source_name)] with whatever it raises. *)
Variable _extract_publication_metadata : Feed -> Publication -> result Metadata.

Definition _extract_identifier (publication : Publication) : option Identifier :=
  _parse_identifier (pm_identifier (metadata publication)).

Definition _is_identifier_allowed (ident : Identifier) : bool :=
  negb (opt_str_in (id_type ident) ignored_identifier_types).

(** The guard of both loops of [extract_feed_data], negated: the
    publication's identifier is recognized and allowed. *)
Definition importable (publication : Publication) : bool :=
  match _extract_identifier publication with
  | Some recognized_identifier => _is_identifier_allowed recognized_identifier
  | None => false
  end.

(** [_get_publications]: the feed's publications, then each group's. *)
Definition _get_publications (feed : Feed) : list Publication :=
  publications feed ++ concat (map group_publications (groups feed)).

(** The first [for] loop of [extract_feed_data]: no handler surrounds the
    extraction call. *)
Fixpoint publications_loop (feed : Feed) (pubs : list Publication)
    (publication_metadata_dictionary : gmap (option string) Metadata)
  : result (gmap (option string) Metadata) :=
  match pubs with
  | [] => Ok publication_metadata_dictionary
  | publication :: rest =>
      match _extract_identifier publication with
      | None => publications_loop feed rest publication_metadata_dictionary
      | Some recognized_identifier =>
          if negb (_is_identifier_allowed recognized_identifier)
          then publications_loop feed rest publication_metadata_dictionary
          else
            publication_metadata ← _extract_publication_metadata feed publication;
            publications_loop feed rest
              (<[identifier (md_primary_identifier publication_metadata)
                 := publication_metadata]> publication_metadata_dictionary)
      end
  end.

(** The second loop, over [parser_result.errors]. *)
Fixpoint errors_loop (errs : list ParserError) (failures : Failures)
  : result Failures :=
  match errs with
  | [] => Ok failures
  | error :: rest =>
      match error_publication error with
      | None => errors_loop rest failures
      | Some publication =>
          match _extract_identifier publication with
          | None => errors_loop rest failures
          | Some recognized_identifier =>
              if negb (_is_identifier_allowed recognized_identifier)
              then errors_loop rest failures
              else
                r ← _record_coverage_failure data_source failures
                       recognized_identifier (error_message error) true;
                errors_loop rest r.1
          end
      end
  end.

(** [extract_feed_data], from the parser's result on. *)
Definition extract_feed_data (parser_result : ManifestParserResult)
  : result (gmap (option string) Metadata * Failures) :=
  let feed := root parser_result in
  publication_metadata_dictionary ←
    publications_loop feed (_get_publications feed) ∅;
  failures ← errors_loop (errors parser_result) ∅;
  Ok (publication_metadata_dictionary, failures).

End FeedData.

End OPDS2Importer.

(** ** Link consolidation (OPDSImporter.consolidate_links) *)

Module OPDSImporter.

Section Consolidate.

(** [Hyperlink.IMAGE] and [Hyperlink.THUMBNAIL_IMAGE]. *)
Variable IMAGE : string.
Variable THUMBNAIL_IMAGE : string.

Definition is_thumbnail (link : LinkData) : bool :=
  bool_decide (ld_rel link = Some THUMBNAIL_IMAGE).

Definition is_image (link : LinkData) : bool :=
  bool_decide (ld_rel link = Some IMAGE).

(** [image_link.thumbnail = thumbnail_link] *)
Definition set_thumbnail (image_link thumbnail_link : LinkData) : LinkData :=
  mkLinkData (ld_rel image_link) (ld_href image_link) (ld_media_type image_link)
    (ld_rights_uri image_link) (ld_content image_link) (Some thumbnail_link).

(** Modelled from the spec: [OPDSImporter.consolidate_links(links)], whose
    source is not available (only its test is).  The scan goes over
    the input once and is "adjacency-based", with a "lookahead": it looks at
    a link and at the one right after it.  A thumbnail right before an image
    is set on that image, and both are passed; the first case of
    [test_consolidate_links] has an image take the thumbnail right after it
    too, so the lookahead pairs in both orders.  A thumbnail that finds no
    image this way is "dropped silently"; every other link stays, in its
    place. *)
Fixpoint consolidate_links (links : list LinkData) : list LinkData :=
  match links with
  | [] => []
  | link :: rest =>
      match rest with
      | next_link :: after =>
          if is_thumbnail link && is_image next_link
          then set_thumbnail next_link link :: consolidate_links after
          else if is_image link && is_thumbnail next_link
          then set_thumbnail link next_link :: consolidate_links after
          else if is_thumbnail link then consolidate_links rest
          else link :: consolidate_links rest
      | [] => if is_thumbnail link then [] else [link]
      end
  end.

(** A link without its [thumbnail] reference. *)
Definition link_fields (link : LinkData)
  : option string * option string * option string * option string * option string :=
  (ld_rel link, ld_href link, ld_media_type link, ld_rights_uri link,
   ld_content link).

End Consolidate.

End OPDSImporter.

(** ** Mirroring to S3 (s3.py) *)

(** [Representation], the attributes the uploader reads and writes. *)
Record Representation : Type := mkRepresentation {
  rep_url : option string;
  mirror_url : option string;
  external_media_type : option string;
  external_content : string;
  local_content_path : option string;
  mirrored_at : option Z;
  mirror_exception : option string
}.

(** What [pool.upload] was called with. *)
Record UploadRequest : Type := mkUploadRequest {
  up_remote_filename : string;
  up_content : string;
  up_bucket : string;
  up_content_type : option string
}.

(** A response of the pool; [status_code] is an integer. *)
Record Response : Type := mkResponse {
  resp_url : string;
  status_code : Z;
  resp_content : string
}.

(** [path[1:]] *)
Definition drop_first (s : string) : string :=
  match s with
  | EmptyString => EmptyString
  | String _ rest => rest
  end.

(** [s.endswith(suffix)] *)
Definition endswith (s suffix : string) : bool :=
  String.prefix (String.rev suffix) (String.rev s).

(** [path.split("/", 1)]: the text before and after the first slash, when
    there is one. *)
Fixpoint split_slash (s : string) : option (string * string) :=
  match s with
  | EmptyString => None
  | String c rest =>
      if Ascii.eqb c "/"%char then Some (EmptyString, rest)
      else
        match split_slash rest with
        | Some (before, after) => Some (String c before, after)
        | None => None
        end
  end.

Module S3Uploader.

Definition S3_HOSTNAME : string := "s3.amazonaws.com".
Definition S3_BASE : string := "http://" +:+ S3_HOSTNAME +:+ "/".

(** [S3Uploader.url(bucket, path)] *)
Definition url (bucket path : string) : string :=
  let path := if String.prefix "/" path then drop_first path else path in
  let url :=
    if String.prefix "http://" bucket || String.prefix "https://" bucket
    then bucket
    else S3_BASE +:+ bucket in
  let url := if negb (endswith url "/") then url +:+ "/" else url in
  url +:+ path.

Section Mirror.

(** [urlsplit(url)], reduced to the [netloc] and [path] it returns. *)
Variable urlsplit : string -> string * string.

(** The time [set_as_mirrored] stamps. *)
Variable now : Z.

(** [pool.as_completed(requests)]: the responses it yields, and the
    exception that ends the iteration early, if one does. *)
Variable as_completed : list UploadRequest -> list Response * option exn.

(** [bucket_and_filename(url)]; unpacking [path.split("/", 1)] raises
    [ValueError] when the path has no slash. *)
Definition bucket_and_filename (u : string) : result (string * string) :=
  let '(netloc, path) := urlsplit u in
  if String.eqb netloc "s3.amazonaws.com"
  then
    let path := if String.prefix "/" path then drop_first path else path in
    match split_slash path with
    | Some (bucket, filename) => Ok (bucket, filename)
    | None => Raise ValueError
    end
  else Ok (netloc, drop_first path).

(** Modelled from the spec: [Representation.set_as_mirrored], which is
    not available; "On success: mark the representation mirrored
    (set mirrored_at, clear any prior exception)". *)
Definition set_as_mirrored (r : Representation) : Representation :=
  mkRepresentation (rep_url r) (mirror_url r) (external_media_type r)
    (external_content r) (local_content_path r) (Some now) None.

(** The objects of a batch, each named by its position in the list given
    to [mirror_batch]; [uploads] logs the calls of [pool.upload] and
    [closed] counts the file handles closed at the end. *)
Record BatchState : Type := mkBatchState {
  store : list Representation;
  uploads : list UploadRequest;
  closed : nat
}.

Definition set_mirror_url (r : Representation) (u : option string) : Representation :=
  mkRepresentation (rep_url r) u (external_media_type r)
    (external_content r) (local_content_path r) (mirrored_at r) (mirror_exception r).

(** The [else] branch of [process_response]. *)
Definition set_mirror_failed (r : Representation) (response : Response) : Representation :=
  mkRepresentation (rep_url r) (mirror_url r) (external_media_type r)
    (external_content r) (local_content_path r) None
    (Some ("Status code " +:+ pretty (status_code response) +:+ ": "
           +:+ resp_content response)).

(** The first loop of [mirror_batch], over the positions still to visit:
    one [pool.upload] per representation, whatever its state. *)
Fixpoint upload_loop (positions : list nat) (reps : list Representation)
    (representations_by_response_url : gmap string nat)
    (requests : list UploadRequest)
  : list Representation * gmap string nat * list UploadRequest * result () :=
  match positions with
  | [] => (reps, representations_by_response_url, requests, Ok ())
  | i :: rest =>
      match reps !! i with
      | None => (reps, representations_by_response_url, requests, Raise KeyError)
      | Some representation =>
          let representation :=
            if negb (truthy (mirror_url representation))
            then set_mirror_url representation (rep_url representation)
            else representation in
          let reps := <[i := representation]> reps in
          match mirror_url representation with
          | None =>
              (reps, representations_by_response_url, requests, Raise AttributeError)
          | Some target =>
              match bucket_and_filename target with
              | Raise e => (reps, representations_by_response_url, requests, Raise e)
              | Ok (bucket, filename) =>
                  let response_url := url bucket filename in
                  let by_url := <[response_url := i]> representations_by_response_url in
                  let request :=
                    mkUploadRequest filename (external_content representation)
                      bucket (external_media_type representation) in
                  upload_loop rest reps by_url (requests ++ [request])
              end
          end
      end
  end.

(** [process_response(response)] *)
Definition process_response (representations_by_response_url : gmap string nat)
    (reps : list Representation) (response : Response)
  : result (list Representation) :=
  match representations_by_response_url !! resp_url response with
  | None => Raise KeyError
  | Some i =>
      match reps !! i with
      | None => Raise KeyError
      | Some representation =>
          if status_code response =? 200
          then Ok (<[i := set_as_mirrored representation]> reps)
          else Ok (<[i := set_mirror_failed representation response]> reps)
      end
  end.

(** [for response in self.pool.as_completed(requests): process_response(response)] *)
Fixpoint responses_loop (representations_by_response_url : gmap string nat)
    (responses : list Response) (reps : list Representation)
  : list Representation * result () :=
  match responses with
  | [] => (reps, Ok ())
  | response :: rest =>
      match process_response representations_by_response_url reps response with
      | Ok reps' => responses_loop representations_by_response_url rest reps'
      | Raise e => (reps, Raise e)
      end
  end.

(** The two [except] clauses around the response loop. *)
Definition caught (e : exn) : bool :=
  match e with
  | ConnectionError | HTTPError => true
  | _ => false
  end.

(** [mirror_batch(representations)]: the state it leaves, and whether it
    returned or raised. *)
Definition mirror_batch (representations : list Representation)
  : BatchState * result () :=
  match upload_loop (seq 0 (length representations)) representations ∅ [] with
  | (reps, _, requests, Raise e) => (mkBatchState reps requests 0, Raise e)
  | (reps, by_url, requests, Ok _) =>
      let '(responses, interruption) := as_completed requests in
      match responses_loop by_url responses reps with
      | (reps, Raise e) => (mkBatchState reps requests 0, Raise e)
      | (reps, Ok _) =>
          match interruption with
          | Some e =>
              if caught e
              then (mkBatchState reps requests (length requests), Ok ())
              else (mkBatchState reps requests 0, Raise e)
          | None => (mkBatchState reps requests (length requests), Ok ())
          end
      end
  end.

(** [mirror_one] *)
Definition mirror_one (representation : Representation) : BatchState * result () :=
  mirror_batch [representation].

End Mirror.

End S3Uploader.

(** ** The session cache (core/model/hassessioncache.py) *)

(** The abstract members of the mixin: a cached class has an [id] column and
    a [cache_key()]. *)
Class SessionCached (T I K : Type) := {
  row_id : T -> I;
  cache_key : T -> K
}.

(** The database session, as [_cache_lookup] asks it: the objects it holds
    ([obj in db]) and those marked deleted ([obj in db.deleted]). *)
Record Session (T : Type) : Type := mkSession {
  held : list T;
  deleted : list T
}.

Arguments mkSession {T} held deleted.
Arguments held {T} s.
Arguments deleted {T} s.

(** [SimpleNamespace(hits=0, misses=0)] *)
Record CacheStats : Type := mkCacheStats {
  hits : nat;
  misses : nat
}.

(** Which table of the cache a lookup reads: [getattr(cache, cache_name)]. *)
Inductive CacheName : Type := ById | ByKey.

Module HasSessionCache.

Section Cache.

Context {T I K : Type}.
Context `{EqDecision T} `{Countable I} `{Countable K}.
Context `{SessionCached T I K}.

(** [CacheTuple(id, key, stats)] *)
Record CacheTuple : Type := mkCacheTuple {
  id : gmap I T;
  key : gmap K T;
  stats : CacheStats
}.

(** The cache [_cache_from_session] creates. *)
Definition empty_cache : CacheTuple :=
  mkCacheTuple ∅ ∅ (mkCacheStats 0 0).

(** [_cache_insert(obj, cache)] *)
Definition _cache_insert (obj : T) (cache : CacheTuple) : CacheTuple :=
  mkCacheTuple (<[row_id obj := obj]> (id cache))
               (<[cache_key obj := obj]> (key cache))
               (stats cache).

(** [_cache_remove(obj, cache)]: [pop] raises [KeyError] on a missing key,
    and the handler clears both tables. *)
Definition _cache_remove (obj : T) (cache : CacheTuple) : CacheTuple :=
  match id cache !! row_id obj with
  | None => mkCacheTuple ∅ ∅ (stats cache)
  | Some _ =>
      match key cache !! cache_key obj with
      | None => mkCacheTuple ∅ ∅ (stats cache)
      | Some _ =>
          mkCacheTuple (delete (row_id obj) (id cache))
                       (delete (cache_key obj) (key cache))
                       (stats cache)
      end
  end.

(** [cache_warm], after [get_objects()] returned [objects]. *)
Definition cache_warm (objects : list T) (cache : CacheTuple) : CacheTuple :=
  foldl (fun cache obj => _cache_insert obj cache) cache objects.

(** [obj not in db or obj in db.deleted], negated. *)
Definition live (db : Session T) (obj : T) : bool :=
  bool_decide (obj ∈ held db) && negb (bool_decide (obj ∈ deleted db)).

(** A miss hook: it reads the session, may add to it, and returns
    [(obj, new)]. *)
Definition Hook : Type := Session T -> (option T * bool) * Session T.

Definition table_lookup (cache : CacheTuple) (cache_name : CacheName)
    (k : I + K) : option T :=
  match cache_name, k with
  | ById, inl i => id cache !! i
  | ByKey, inr k => key cache !! k
  | _, _ => None
  end.

Definition count_hit (cache : CacheTuple) : CacheTuple :=
  mkCacheTuple (id cache) (key cache)
    (mkCacheStats (S (hits (stats cache))) (misses (stats cache))).

Definition count_miss (cache : CacheTuple) : CacheTuple :=
  mkCacheTuple (id cache) (key cache)
    (mkCacheStats (hits (stats cache)) (S (misses (stats cache)))).

(** [_cache_lookup(db, cache, cache_name, cache_key, cache_miss_hook)]; the
    fuel bounds the recursive call after an eviction. *)
Fixpoint _cache_lookup (fuel : nat) (db : Session T) (cache : CacheTuple)
    (cache_name : CacheName) (k : I + K) (cache_miss_hook : Hook)
  : option ((option T * bool) * CacheTuple * Session T) :=
  match table_lookup cache cache_name k with
  | Some obj =>
      if negb (live db obj)
      then
        match fuel with
        | O => None
        | S fuel' =>
            _cache_lookup fuel' db (_cache_remove obj cache) cache_name k
              cache_miss_hook
        end
      else Some ((Some obj, false), count_hit cache, db)
  | None =>
      let cache := count_miss cache in
      let '((obj, new), db) := cache_miss_hook db in
      match obj with
      | Some o => Some ((obj, new), _cache_insert o cache, db)
      | None => Some ((obj, new), cache, db)
      end
  end.

(** [get_one(db, cls, id=id)], defined elsewhere. *)
Variable get_one : Session T -> I -> option T.

(** [by_id(db, id)], returning the cache and session along with [obj]. *)
Definition by_id (fuel : nat) (db : Session T) (cache : CacheTuple) (i : I)
  : option (option T * CacheTuple * Session T) :=
  let lookup_hook : Hook := fun db => ((get_one db i, false), db) in
  match _cache_lookup fuel db cache ById (inl i) lookup_hook with
  | Some ((obj, _), cache, db) => Some (obj, cache, db)
  | None => None
  end.

(** [by_cache_key(db, cache_key, cache_miss_hook)] *)
Definition by_cache_key (fuel : nat) (db : Session T) (cache : CacheTuple)
    (k : K) (cache_miss_hook : Hook)
  : option ((option T * bool) * CacheTuple * Session T) :=
  _cache_lookup fuel db cache ByKey (inr k) cache_miss_hook.

(** *** Sequences of cache operations

    What a run does to one session and its cache: warm, insert, remove,
    the two lookups, and a change the application makes to the session
    in between (adding or deleting objects). *)
Inductive Op : Type :=
| Warm (objects : list T)
| Insert (obj : T)
| Remove (obj : T)
| LookupId (i : I)
| LookupKey (k : K) (cache_miss_hook : Hook)
| Db (change : Session T -> Session T).

(** What a lookup returned: [by_id] gives [obj], [by_cache_key] gives
    [(obj, new)]. *)
Inductive Answer : Type :=
| IdAnswer (obj : option T)
| KeyAnswer (obj : option T) (new : bool).

Definition step (fuel : nat) (op : Op) (cache : CacheTuple) (db : Session T)
  : option (CacheTuple * Session T * list Answer) :=
  match op with
  | Warm objects => Some (cache_warm objects cache, db, [])
  | Insert obj => Some (_cache_insert obj cache, db, [])
  | Remove obj => Some (_cache_remove obj cache, db, [])
  | LookupId i =>
      match by_id fuel db cache i with
      | Some (obj, cache, db) => Some (cache, db, [IdAnswer obj])
      | None => None
      end
  | LookupKey k hook =>
      match by_cache_key fuel db cache k hook with
      | Some ((obj, new), cache, db) => Some (cache, db, [KeyAnswer obj new])
      | None => None
      end
  | Db change => Some (cache, change db, [])
  end.

Fixpoint run (fuel : nat) (ops : list Op) (cache : CacheTuple) (db : Session T)
  : option (CacheTuple * Session T * list Answer) :=
  match ops with
  | [] => Some (cache, db, [])
  | op :: rest =>
      match step fuel op cache db with
      | None => None
      | Some (cache, db, answers) =>
          match run fuel rest cache db with
          | None => None
          | Some (cache, db, more) => Some (cache, db, answers ++ more)
          end
      end
  end.

(** The same run with the cache disabled, as the specification words it:
    every lookup takes the miss path and calls the hook; warm, insert and
    remove have nothing to act on. *)
Definition step_uncached (op : Op) (db : Session T) : Session T * list Answer :=
  match op with
  | Warm _ | Insert _ | Remove _ => (db, [])
  | LookupId i => (db, [IdAnswer (get_one db i)])
  | LookupKey k hook =>
      let '((obj, new), db) := hook db in (db, [KeyAnswer obj new])
  | Db change => (change db, [])
  end.

Fixpoint run_uncached (ops : list Op) (db : Session T) : Session T * list Answer :=
  match ops with
  | [] => (db, [])
  | op :: rest =>
      let '(db, answers) := step_uncached op db in
      let '(db, more) := run_uncached rest db in
      (db, answers ++ more)
  end.

(** The records a table holds. *)
Definition holds_id (cache : CacheTuple) (obj : T) : Prop :=
  ∃ i, id cache !! i = Some obj.

Definition holds_key (cache : CacheTuple) (obj : T) : Prop :=
  ∃ k, key cache !! k = Some obj.

(** The two tables hold the same set of records. *)
Definition lock_step (cache : CacheTuple) : Prop :=
  ∀ obj, holds_id cache obj ↔ holds_key cache obj.

End Cache.

End HasSessionCache.

(** * Properties *)

(** ** Recording coverage failures *)

Section RecordCoverageFailureFacts.

Import OPDS2Importer.

Variable data_source : string.

(** The membership test is asked with the [Identifier] object; in a
    string-keyed mapping it never succeeds, so the list is always reset. *)
Lemma record_resets (failures : Failures) ident key msg transient :
  str_keyed failures ->
  identifier ident = Some key ->
  _record_coverage_failure data_source failures ident msg transient
  = Ok (<[KStr key := [mkCoverageFailure ident msg data_source transient]]> failures,
        mkCoverageFailure ident msg data_source transient).
Proof.
  intros Hkeys Hid. unfold _record_coverage_failure.
  rewrite Hid, (Hkeys ident), lookup_insert_eq. simpl.
  by rewrite insert_insert_eq.
Qed.

Lemma record_keeps_str_keyed (failures : Failures) key recorded :
  str_keyed failures -> str_keyed (<[KStr key := recorded]> failures).
Proof. intros Hkeys i. rewrite lookup_insert_ne; [apply Hkeys | discriminate]. Qed.

End RecordCoverageFailureFacts.

(** C10. For every string-keyed failures mapping and every identifier whose
    identifier string is not null, a call of [_record_coverage_failure]
    returns the new failure and leaves exactly that one failure under the
    identifier's string key, whatever was recorded there before, with every
    other key as it was; when the identifier string is null the call raises
    [ValueError] and returns no changed mapping. *)
Theorem record_coverage_failure_replaces
    (data_source : string) (failures : Failures) (ident : Identifier)
    (msg : string) (transient : bool) :
  str_keyed failures ->
  match identifier ident with
  | Some key =>
      ∃ failures' failure,
        OPDS2Importer._record_coverage_failure data_source failures ident msg transient
        = Ok (failures', failure)
        ∧ failure = mkCoverageFailure ident msg data_source transient
        ∧ failures' !! KStr key = Some [failure]
        ∧ (∀ k, k ≠ KStr key -> failures' !! k = failures !! k)
        ∧ str_keyed failures'
  | None =>
      OPDS2Importer._record_coverage_failure data_source failures ident msg transient
      = Raise ValueError
  end.
Proof.
  intros Hkeys. destruct (identifier ident) as [key|] eqn:Hid.
  - eexists _, _. split; [by apply record_resets |].
    split; [done |]. split; [by rewrite lookup_insert_eq |].
    split; [| by apply record_keeps_str_keyed].
    intros k Hk. by rewrite lookup_insert_ne.
  - unfold OPDS2Importer._record_coverage_failure. by rewrite Hid.
Qed.

Definition sample_identifier : Identifier :=
  mkIdentifier (Some "URI") (Some "urn:isbn:9780000000001").

Definition sample_earlier_failure : CoverageFailure :=
  mkCoverageFailure sample_identifier "first error" "Feed" true.

Definition sample_failures : Failures :=
  {[ KStr "urn:isbn:9780000000001" := [sample_earlier_failure] ]}.

Lemma sample_failures_str_keyed : str_keyed sample_failures.
Proof. intros i. unfold sample_failures. by rewrite lookup_singleton_ne. Qed.

(** A second failure for an identifier that already has one. *)
Lemma record_coverage_failure_replaces_witness :
  str_keyed sample_failures ∧
  ∃ failures' failure,
    OPDS2Importer._record_coverage_failure "Feed" sample_failures
      sample_identifier "second error" true = Ok (failures', failure)
    ∧ failure = mkCoverageFailure sample_identifier "second error" "Feed" true
    ∧ failures' !! KStr "urn:isbn:9780000000001" = Some [failure]
    ∧ (∀ k, k ≠ KStr "urn:isbn:9780000000001" -> failures' !! k = sample_failures !! k)
    ∧ str_keyed failures'.
Proof.
  split; [exact sample_failures_str_keyed |].
  exact (record_coverage_failure_replaces "Feed" sample_failures sample_identifier
           "second error" true sample_failures_str_keyed).
Defined.

(** ** Extraction of a feed page *)

Section FeedDataFacts.

Import OPDS2Importer.

Variable data_source : string.
Variable parse : option string -> option Identifier.
Variable ignored : list string.
Variable extract : Feed -> Publication -> result Metadata.

Local Abbreviation importable := (importable parse ignored).
Local Abbreviation publications_loop := (publications_loop parse ignored extract).
Local Abbreviation errors_loop := (errors_loop data_source parse ignored).

(** A publication the guard skips leaves the dictionary alone. *)
Lemma publications_loop_skip feed pub rest dict :
  importable pub = false ->
  publications_loop feed (pub :: rest) dict = publications_loop feed rest dict.
Proof.
  unfold OPDS2Importer.importable. simpl.
  destruct (_extract_identifier parse pub) as [ident|]; [| done].
  by intros ->.
Qed.

Lemma publications_loop_take feed pub rest dict :
  importable pub = true ->
  publications_loop feed (pub :: rest) dict
  = match extract feed pub with
    | Ok md => publications_loop feed rest
                 (<[identifier (md_primary_identifier md) := md]> dict)
    | Raise e => Raise e
    end.
Proof.
  unfold OPDS2Importer.importable. simpl.
  destruct (_extract_identifier parse pub) as [ident|]; [| done].
  intros ->. simpl. by destruct (extract feed pub).
Qed.

(** The loop stops at the first importable publication whose extraction
    raises: nothing catches the exception. *)
Lemma publications_loop_raises feed pre pub post dict e :
  (∀ p, p ∈ pre -> importable p = true -> is_ok (extract feed p) = true) ->
  importable pub = true ->
  extract feed pub = Raise e ->
  publications_loop feed (pre ++ pub :: post) dict = Raise e.
Proof.
  revert dict. induction pre as [|p pre IH]; intros dict Hpre Himp Hraise.
  - simpl app. by rewrite publications_loop_take, Hraise.
  - change ((p :: pre) ++ pub :: post) with (p :: (pre ++ pub :: post)).
    destruct (importable p) eqn:Hp.
    + rewrite publications_loop_take by done.
      specialize (Hpre p) as Hok. rewrite Hp in Hok.
      destruct (extract feed p) as [md|e'] eqn:Hex.
      * apply IH; [| done | done]. intros q Hq. apply Hpre. by right.
      * exfalso. specialize (Hok ltac:(left) eq_refl). done.
    + rewrite publications_loop_skip by done.
      apply IH; [| done | done]. intros q Hq. apply Hpre. by right.
Qed.

(** Without a raising extraction every importable publication reaches the
    dictionary, under its identifier string. *)
Lemma publications_loop_returns feed pubs dict :
  (∀ p, p ∈ pubs -> importable p = true -> is_ok (extract feed p) = true) ->
  ∃ dict',
    publications_loop feed pubs dict = Ok dict'
    ∧ (∀ k, is_Some (dict !! k) -> is_Some (dict' !! k))
    ∧ (∀ p md, p ∈ pubs -> importable p = true -> extract feed p = Ok md ->
         is_Some (dict' !! identifier (md_primary_identifier md))).
Proof.
  revert dict. induction pubs as [|p pubs IH]; intros dict Hall.
  - exists dict. split; [done |]. split; [done |]. intros p md Hp. inversion Hp.
  - assert (Hrest : ∀ q, q ∈ pubs -> importable q = true ->
                         is_ok (extract feed q) = true).
    { intros q Hq. apply Hall. by right. }
    destruct (importable p) eqn:Hp.
    + rewrite publications_loop_take by done.
      specialize (Hall p ltac:(left) Hp).
      destruct (extract feed p) as [md|e] eqn:Hex; [| done].
      destruct (IH (<[identifier (md_primary_identifier md) := md]> dict) Hrest)
        as (dict' & Hrun & Hkeep & Hin).
      exists dict'. split; [done |]. split.
      * intros k Hk. apply Hkeep.
        destruct (decide (identifier (md_primary_identifier md) = k)) as [->|Hne].
        -- rewrite lookup_insert_eq. by eexists.
        -- by rewrite lookup_insert_ne.
      * intros q md' Hq Hqi Hqe. apply elem_of_cons in Hq as [->|Hq].
        -- rewrite Hex in Hqe. injection Hqe as <-. apply Hkeep.
           rewrite lookup_insert_eq. by eexists.
        -- by eapply Hin.
    + rewrite publications_loop_skip by done.
      destruct (IH dict Hrest) as (dict' & Hrun & Hkeep & Hin).
      exists dict'. split; [done |]. split; [done |].
      intros q md' Hq Hqi Hqe. apply elem_of_cons in Hq as [->|Hq].
      * congruence.
      * by eapply Hin.
Qed.

(** Exactly one failure is recorded under the string [s], for an
    identifier with that string. *)
Definition single_failure (s : string) (failures : Failures) : Prop :=
  ∃ failure, failures !! KStr s = Some [failure]
             ∧ identifier (cf_identifier failure) = Some s.

(** The parser errors the second loop records: located in a publication
    whose identifier is recognized and allowed. *)
Definition recorded_error (error : ParserError) (ident : Identifier) : Prop :=
  ∃ pub, error_publication error = Some pub
         ∧ _extract_identifier parse pub = Some ident
         ∧ _is_identifier_allowed ignored ident = true.

Lemma errors_loop_records errs failures :
  str_keyed failures ->
  (∀ error ident, error ∈ errs -> recorded_error error ident ->
                  is_Some (identifier ident)) ->
  ∃ failures',
    errors_loop errs failures = Ok failures'
    ∧ str_keyed failures'
    ∧ (∀ s, single_failure s failures -> single_failure s failures')
    ∧ (∀ error ident s, error ∈ errs -> recorded_error error ident ->
         identifier ident = Some s -> single_failure s failures').
Proof.
  revert failures. induction errs as [|error errs IH]; intros failures Hkeys Hids.
  - exists failures. repeat split; try done. intros ? ? ? Hin. inversion Hin.
  - assert (Hrest : ∀ error' ident, error' ∈ errs -> recorded_error error' ident ->
                                   is_Some (identifier ident)).
    { intros error' ident Hin. apply Hids. by right. }
    assert (Hskip : ∀ failures0 : Failures,
               str_keyed failures0 ->
               (∀ s, single_failure s failures -> single_failure s failures0) ->
               (∀ ident, ¬ recorded_error error ident) ->
               ∃ failures',
                 errors_loop errs failures0 = Ok failures'
                 ∧ str_keyed failures'
                 ∧ (∀ s, single_failure s failures -> single_failure s failures')
                 ∧ (∀ error' ident s, error' ∈ error :: errs ->
                      recorded_error error' ident ->
                      identifier ident = Some s -> single_failure s failures')).
    { intros failures0 Hk0 Hkeep0 Hnot.
      destruct (IH failures0 Hk0 Hrest) as (failures' & Hrun & Hk' & Hkeep & Hin).
      exists failures'. repeat split; try done.
      - intros s Hs. by apply Hkeep, Hkeep0.
      - intros error' ident s Hel Hrec Hs.
        apply elem_of_cons in Hel as [->|Hel]; [by destruct (Hnot ident) |].
        by eapply Hin. }
    simpl.
    destruct (error_publication error) as [pub|] eqn:Hpub;
      [| apply Hskip; [done | done |];
         intros ident (pub' & Hp' & _); congruence ].
    destruct (_extract_identifier parse pub) as [ident|] eqn:Hident;
      [| apply Hskip; [done | done |];
         intros ident (pub' & Hp' & Hi' & _); congruence ].
    destruct (_is_identifier_allowed ignored ident) eqn:Hallowed; simpl;
      [| apply Hskip; [done | done |];
         intros ident' (pub' & Hp' & Hi' & Ha'); congruence ].
    assert (Hrec : recorded_error error ident) by (by exists pub).
    destruct (Hids error ident ltac:(left) Hrec) as [s Hs].
    rewrite (record_resets data_source failures ident s (error_message error) true)
      by done.
    simpl.
    set (failure := mkCoverageFailure ident (error_message error) data_source true).
    destruct (IH (<[KStr s := [failure]]> failures)
                (record_keeps_str_keyed failures s [failure] Hkeys) Hrest)
      as (failures' & Hrun & Hk' & Hkeep & Hin).
    assert (Hnew : single_failure s (<[KStr s := [failure]]> failures)).
    { exists failure. by rewrite lookup_insert_eq. }
    exists failures'. repeat split; try done.
    + intros s' (f & Hf & Hfi). apply Hkeep.
      destruct (decide (s = s')) as [<-|Hne]; [done |].
      exists f. rewrite lookup_insert_ne; [done | congruence].
    + intros error' ident' s' Hel Hrec' Hs'.
      apply elem_of_cons in Hel as [->|Hel]; [| by eapply Hin].
      destruct Hrec' as (pub' & Hp' & Hi' & _).
      assert (ident' = ident) as -> by congruence.
      assert (s' = s) as -> by congruence.
      by apply Hkeep.
Qed.

(** The dictionary the first loop returns, entry by entry: a key no
    publication extracts to keeps its entry; the key of a publication holds
    its metadata unless a later publication extracts to the same key; and
    nothing else enters the dictionary. *)
Lemma publications_loop_exact feed pubs dict :
  (∀ p, p ∈ pubs -> importable p = true -> is_ok (extract feed p) = true) ->
  ∃ dict',
    publications_loop feed pubs dict = Ok dict'
    ∧ (∀ k, (∀ p md, p ∈ pubs -> importable p = true -> extract feed p = Ok md ->
                     identifier (md_primary_identifier md) ≠ k) ->
            dict' !! k = dict !! k)
    ∧ (∀ before p after md,
         pubs = before ++ p :: after -> importable p = true ->
         extract feed p = Ok md ->
         (∀ q md', q ∈ after -> importable q = true -> extract feed q = Ok md' ->
                   identifier (md_primary_identifier md')
                   ≠ identifier (md_primary_identifier md)) ->
         dict' !! identifier (md_primary_identifier md) = Some md)
    ∧ (∀ k md, dict' !! k = Some md ->
         dict !! k = Some md
         ∨ ∃ p, p ∈ pubs ∧ importable p = true ∧ extract feed p = Ok md
                ∧ identifier (md_primary_identifier md) = k).
Proof.
  revert dict. induction pubs as [|p0 pubs IH]; intros dict Hall.
  - exists dict. split; [done |]. split; [done |]. split.
    + intros before p after md Heq. by destruct before.
    + intros k md Hk. by left.
  - assert (Hrest : ∀ q, q ∈ pubs -> importable q = true ->
                         is_ok (extract feed q) = true).
    { intros q Hq. apply Hall. by right. }
    destruct (importable p0) eqn:Hp0.
    + rewrite publications_loop_take by done.
      specialize (Hall p0 ltac:(left) Hp0).
      destruct (extract feed p0) as [md0|e] eqn:Hex; [| done].
      destruct (IH (<[identifier (md_primary_identifier md0) := md0]> dict) Hrest)
        as (dict' & Hrun & Hkeep & Hlast & Honly).
      exists dict'. split; [done |]. split; [| split].
      * intros k Hother. rewrite Hkeep.
        -- apply lookup_insert_ne. by apply (Hother p0 md0 ltac:(left)).
        -- intros q mq Hq. apply Hother. by right.
      * intros before p after md Heq Hp Hmd Hafter.
        destruct before as [|b before]; simpl in Heq; injection Heq as -> ->.
        -- rewrite Hex in Hmd. injection Hmd as <-.
           rewrite (Hkeep _ Hafter). apply lookup_insert_eq.
        -- by eapply Hlast.
      * intros k md Hk. apply Honly in Hk as [Hk | (q & Hq & Hqi & Hqe & Hqk)].
        -- destruct (decide (identifier (md_primary_identifier md0) = k)) as [Heq|Hne].
           ++ subst k. rewrite lookup_insert_eq in Hk. injection Hk as <-.
              right. exists p0. split; [left | done].
           ++ rewrite lookup_insert_ne in Hk by done. by left.
        -- right. exists q. split; [by right | done].
    + rewrite publications_loop_skip by done.
      destruct (IH dict Hrest) as (dict' & Hrun & Hkeep & Hlast & Honly).
      exists dict'. split; [done |]. split; [| split].
      * intros k Hother. apply Hkeep. intros q mq Hq. apply Hother. by right.
      * intros before p after md Heq Hp Hmd Hafter.
        destruct before as [|b before]; simpl in Heq; injection Heq as -> ->.
        -- congruence.
        -- by eapply Hlast.
      * intros k md Hk. apply Honly in Hk as [Hk | (q & Hq & Hqi & Hqe & Hqk)].
        -- by left.
        -- right. exists q. split; [by right | done].
Qed.

Lemma recorded_error_unique error ident ident' :
  recorded_error error ident -> recorded_error error ident' -> ident = ident'.
Proof. intros (pub & Hp & Hi & _) (pub' & Hp' & Hi' & _). congruence. Qed.

Lemma errors_loop_skip error rest failures :
  (∀ ident, ¬ recorded_error error ident) ->
  errors_loop (error :: rest) failures = errors_loop rest failures.
Proof.
  intros Hnot. simpl.
  destruct (error_publication error) as [pub|] eqn:Hpub; [| done].
  destruct (_extract_identifier parse pub) as [ident|] eqn:Hident; [| done].
  destruct (_is_identifier_allowed ignored ident) eqn:Hallowed; [| done].
  destruct (Hnot ident). by exists pub.
Qed.

Lemma errors_loop_take error rest (failures : Failures) ident :
  recorded_error error ident ->
  errors_loop (error :: rest) failures
  = match _record_coverage_failure data_source failures ident
            (error_message error) true with
    | Ok r => errors_loop rest r.1
    | Raise e => Raise e
    end.
Proof.
  intros (pub & Hpub & Hident & Hallowed). simpl.
  by rewrite Hpub, Hident, Hallowed.
Qed.

Lemma recorded_error_dec error :
  (∃ ident, recorded_error error ident) ∨ (∀ ident, ¬ recorded_error error ident).
Proof.
  unfold recorded_error.
  destruct (error_publication error) as [pub|] eqn:Hpub;
    [| right; intros ident (pub' & Hp' & _); congruence ].
  destruct (_extract_identifier parse pub) as [ident|] eqn:Hident;
    [| right; intros ident (pub' & Hp' & Hi' & _); congruence ].
  destruct (_is_identifier_allowed ignored ident) eqn:Hallowed;
    [| right; intros ident' (pub' & Hp' & Hi' & Ha'); congruence ].
  left. exists ident, pub. done.
Qed.

(** The failure the second loop makes of a parser error. *)
Definition failure_of (error : ParserError) (ident : Identifier) : CoverageFailure :=
  mkCoverageFailure ident (error_message error) data_source true.

(** The failures mapping the second loop returns, entry by entry: a string
    no error is recorded under keeps its entry; the string of a recorded
    error holds the one failure made of that error unless a later error is
    recorded under the same string; and nothing else enters the mapping. *)
Lemma errors_loop_exact errs failures :
  str_keyed failures ->
  (∀ error ident, error ∈ errs -> recorded_error error ident ->
                  is_Some (identifier ident)) ->
  ∃ failures',
    errors_loop errs failures = Ok failures'
    ∧ str_keyed failures'
    ∧ (∀ s, (∀ error ident, error ∈ errs -> recorded_error error ident ->
                            identifier ident ≠ Some s) ->
            failures' !! KStr s = failures !! KStr s)
    ∧ (∀ before error after ident s,
         errs = before ++ error :: after -> recorded_error error ident ->
         identifier ident = Some s ->
         (∀ error' ident', error' ∈ after -> recorded_error error' ident' ->
                           identifier ident' ≠ Some s) ->
         failures' !! KStr s = Some [failure_of error ident])
    ∧ (∀ k l, failures' !! k = Some l ->
         failures !! k = Some l
         ∨ ∃ error ident s, error ∈ errs ∧ recorded_error error ident
                            ∧ identifier ident = Some s ∧ k = KStr s
                            ∧ l = [failure_of error ident]).
Proof.
  revert failures. induction errs as [|error0 errs IH]; intros failures Hkeys Hids.
  - exists failures. split; [done |]. split; [done |]. split; [done |]. split.
    + intros before error after ident s Heq. by destruct before.
    + intros k l Hk. by left.
  - assert (Hrest : ∀ error ident, error ∈ errs -> recorded_error error ident ->
                                  is_Some (identifier ident)).
    { intros error ident Hin. apply Hids. by right. }
    destruct (recorded_error_dec error0) as [[ident0 Hrec0] | Hnot].
    + destruct (Hids error0 ident0 ltac:(left) Hrec0) as [s0 Hs0].
      rewrite (errors_loop_take error0 errs failures ident0 Hrec0).
      rewrite (record_resets data_source failures ident0 s0 (error_message error0) true)
        by done.
      cbn [fst].
      fold (failure_of error0 ident0).
      destruct (IH (<[KStr s0 := [failure_of error0 ident0]]> failures)
                  (record_keeps_str_keyed failures s0 _ Hkeys) Hrest)
        as (failures' & Hrun & Hk' & Hkeep & Hlast & Honly).
      exists failures'. split; [done |]. split; [done |]. split; [| split].
      * intros s Hother. rewrite Hkeep.
        -- apply lookup_insert_ne. intros [= ->].
           by apply (Hother error0 ident0 ltac:(left) Hrec0).
        -- intros error ident Hin. apply Hother. by right.
      * intros before error after ident s Heq Hrec Hs Hafter.
        destruct before as [|b before]; simpl in Heq; injection Heq as -> ->.
        -- assert (ident = ident0) as -> by (by eapply recorded_error_unique).
           assert (s = s0) as -> by congruence.
           rewrite (Hkeep _ Hafter). apply lookup_insert_eq.
        -- by eapply Hlast.
      * intros k l Hk.
        apply Honly in Hk as [Hk | (error & ident & s & Hin & Hrec & Hs & -> & ->)].
        -- destruct (decide (KStr s0 = k)) as [Heq|Hne].
           ++ subst k. rewrite lookup_insert_eq in Hk. injection Hk as <-.
              right. exists error0, ident0, s0. split; [left | done].
           ++ rewrite lookup_insert_ne in Hk by done. by left.
        -- right. exists error, ident, s. split; [by right | done].
    + rewrite (errors_loop_skip error0 errs failures Hnot).
      destruct (IH failures Hkeys Hrest)
        as (failures' & Hrun & Hk' & Hkeep & Hlast & Honly).
      exists failures'. split; [done |]. split; [done |]. split; [| split].
      * intros s Hother. apply Hkeep. intros error ident Hin. apply Hother. by right.
      * intros before error after ident s Heq Hrec Hs Hafter.
        destruct before as [|b before]; simpl in Heq; injection Heq as -> ->.
        -- by destruct (Hnot ident).
        -- by eapply Hlast.
      * intros k l Hk.
        apply Honly in Hk as [Hk | (error & ident & s & Hin & Hrec & Hs & -> & ->)].
        -- by left.
        -- right. exists error, ident, s. split; [by right | done].
Qed.

End FeedDataFacts.

(** C1 (as amended). [extract_feed_data] has no handler around the
    extraction of a publication: when extraction raises for a publication
    whose identifier is recognized and allowed, and returned metadata for
    every such publication before it, the whole call raises that exception
    and returns neither mapping.  When extraction returns metadata for every
    such publication, and every recognized, allowed identifier of a
    publication in which the parser reported an error has an identifier
    string, the call returns both mappings.  The dictionary has an entry
    under the identifier string of the metadata of every such publication:
    it holds the metadata of the last publication of the page that extracts
    to that string, and there are no other entries.  The failures mapping
    has an entry under the identifier string of every publication in which
    the parser reported an error: it holds exactly one [CoverageFailure],
    transient and with the importer's data source, made of that identifier
    and of the message of the last such error, and there are no other
    entries. *)
Theorem extract_feed_data_failures
    (data_source : string) (parse : option string -> option Identifier)
    (ignored : list string) (extract : Feed -> Publication -> result Metadata)
    (parser_result : ManifestParserResult) :
  let feed := root parser_result in
  let pubs := OPDS2Importer._get_publications feed in
  let errs := errors parser_result in
  let importable := OPDS2Importer.importable parse ignored in
  let recorded := recorded_error parse ignored in
  let key := fun md => identifier (md_primary_identifier md) in
  let run := OPDS2Importer.extract_feed_data data_source parse ignored extract
               parser_result in
  (∀ pre pub post e,
     pubs = pre ++ pub :: post ->
     (∀ p, p ∈ pre -> importable p = true -> is_ok (extract feed p) = true) ->
     importable pub = true ->
     extract feed pub = Raise e ->
     run = Raise e)
  ∧
  ((∀ p, p ∈ pubs -> importable p = true -> is_ok (extract feed p) = true) ->
   (∀ error ident, error ∈ errs -> recorded error ident ->
                   is_Some (identifier ident)) ->
   ∃ dict failures,
     run = Ok (dict, failures)
     ∧ (∀ p md, p ∈ pubs -> importable p = true -> extract feed p = Ok md ->
          is_Some (dict !! key md))
     ∧ (∀ before p after md,
          pubs = before ++ p :: after -> importable p = true ->
          extract feed p = Ok md ->
          (∀ q md', q ∈ after -> importable q = true -> extract feed q = Ok md' ->
                    key md' ≠ key md) ->
          dict !! key md = Some md)
     ∧ (∀ k md, dict !! k = Some md ->
          ∃ p, p ∈ pubs ∧ importable p = true ∧ extract feed p = Ok md ∧ key md = k)
     ∧ (∀ error ident s, error ∈ errs -> recorded error ident ->
          identifier ident = Some s -> single_failure s failures)
     ∧ (∀ before error after ident s,
          errs = before ++ error :: after -> recorded error ident ->
          identifier ident = Some s ->
          (∀ error' ident', error' ∈ after -> recorded error' ident' ->
                            identifier ident' ≠ Some s) ->
          failures !! KStr s
          = Some [mkCoverageFailure ident (error_message error) data_source true])
     ∧ (∀ k l, failures !! k = Some l ->
          ∃ error ident s,
            error ∈ errs ∧ recorded error ident ∧ identifier ident = Some s
            ∧ k = KStr s
            ∧ l = [mkCoverageFailure ident (error_message error) data_source true])).
Proof.
  intros feed pubs errs importable recorded key run. split.
  - intros pre pub post e Hpubs Hpre Himp Hraise.
    unfold run, OPDS2Importer.extract_feed_data. fold feed. fold pubs.
    rewrite Hpubs.
    by rewrite (publications_loop_raises parse ignored extract feed pre pub post ∅ e).
  - intros Hall Hids.
    destruct (publications_loop_returns parse ignored extract feed pubs ∅ Hall)
      as (dict & Hrun & _ & Hin).
    destruct (publications_loop_exact parse ignored extract feed pubs ∅ Hall)
      as (dict' & Hrun' & _ & Hlast & Honly).
    assert (dict' = dict) as -> by congruence.
    destruct (errors_loop_records data_source parse ignored errs ∅)
      as (failures & Herr & _ & _ & Hrec); [by intros i | done |].
    destruct (errors_loop_exact data_source parse ignored errs ∅)
      as (failures' & Herr' & _ & _ & Hlast_error & Honly_error);
      [by intros i | done |].
    assert (failures' = failures) as -> by congruence.
    exists dict, failures.
    split; [| split; [done | split; [done | split; [| split; [done | split; [done |]]]]]].
    + unfold run, OPDS2Importer.extract_feed_data. fold feed. fold pubs.
      rewrite Hrun. simpl. fold errs. by rewrite Herr.
    + intros k md Hk. apply Honly in Hk as [Hk | Hk]; [| done].
      by rewrite lookup_empty in Hk.
    + intros k l Hk. apply Honly_error in Hk as [Hk | Hk]; [| done].
      by rewrite lookup_empty in Hk.
Qed.

(** A page of three publications; the parser found an error in the third. *)
Definition sample_publication (ident title : string) : Publication :=
  mkPublication
    (mkPublicationMetadata (Some ident) (Some title) None None None None) [] None.

Definition sample_page : list Publication :=
  [ sample_publication "urn:uuid:1" "One";
    sample_publication "urn:uuid:2" "Two";
    sample_publication "urn:uuid:3" "Three" ].

Definition sample_parser_result : ManifestParserResult :=
  mkManifestParserResult (mkFeed [] sample_page [])
    [ mkParserError (Some (sample_publication "urn:uuid:3" "Three")) "bad link" ].

Definition sample_parse (raw : option string) : option Identifier :=
  match raw with
  | Some s => Some (mkIdentifier (Some "URI") (Some s))
  | None => None
  end.

(** Extraction that succeeds for every publication ... *)
Definition sample_extract (feed : Feed) (pub : Publication) : result Metadata :=
  match sample_parse (pm_identifier (metadata pub)) with
  | Some ident => Ok (mkMetadata ident (pm_title (metadata pub)) None [] [])
  | None => Raise AttributeError
  end.

(** ... and extraction that raises for the publication titled "Two". *)
Definition failing_extract (feed : Feed) (pub : Publication) : result Metadata :=
  if bool_decide (pm_title (metadata pub) = Some "Two")
  then Raise (OtherError "extraction failed")
  else sample_extract feed pub.

(** C1, refuted as stated: on a page of three publications where extraction
    of the second raises, [extract_feed_data] raises; it returns no
    metadata and no failures mapping. *)
Lemma extract_feed_data_aborts :
  failing_extract (root sample_parser_result) (sample_publication "urn:uuid:2" "Two")
  = Raise (OtherError "extraction failed")
  ∧ OPDS2Importer.extract_feed_data "Feed" sample_parse [] failing_extract
      sample_parser_result = Raise (OtherError "extraction failed")
  ∧ ¬ ∃ dict failures,
        OPDS2Importer.extract_feed_data "Feed" sample_parse [] failing_extract
          sample_parser_result = Ok (dict, failures)
        ∧ size dict = 2%nat ∧ size failures = 1%nat.
Proof.
  split; [reflexivity |]. split; [reflexivity |].
  intros (dict & failures & Hrun & _). vm_compute in Hrun. discriminate.
Qed.

Lemma extract_feed_data_failures_witness :
  OPDS2Importer.extract_feed_data "Feed" sample_parse [] failing_extract
    sample_parser_result = Raise (OtherError "extraction failed")
  ∧ ∃ dict failures,
      OPDS2Importer.extract_feed_data "Feed" sample_parse [] sample_extract
        sample_parser_result = Ok (dict, failures)
      ∧ dict !! Some "urn:uuid:2"
        = Some (mkMetadata (mkIdentifier (Some "URI") (Some "urn:uuid:2"))
                  (Some "Two") None [] [])
      ∧ failures !! KStr "urn:uuid:3"
        = Some [mkCoverageFailure (mkIdentifier (Some "URI") (Some "urn:uuid:3"))
                  "bad link" "Feed" true].
Proof.
  split.
  - destruct (extract_feed_data_failures "Feed" sample_parse [] failing_extract
                sample_parser_result) as [Habort _].
    apply (Habort [sample_publication "urn:uuid:1" "One"]
                  (sample_publication "urn:uuid:2" "Two")
                  [sample_publication "urn:uuid:3" "Three"]);
      try reflexivity.
    intros p Hp _. apply list_elem_of_singleton in Hp as ->. reflexivity.
  - destruct (extract_feed_data_failures "Feed" sample_parse [] sample_extract
                sample_parser_result) as [_ Hreturns].
    destruct Hreturns
      as (dict & failures & Hrun & _ & Hlast & _ & _ & Hlast_error & _).
    + intros p Hp _. simpl in Hp. unfold sample_page in Hp.
      repeat (apply elem_of_cons in Hp as [->|Hp]; [reflexivity |]).
      inversion Hp.
    + intros error ident Herr (pub & Hpub & Hident & _).
      apply list_elem_of_singleton in Herr as ->. simpl in Hpub.
      injection Hpub as <-. vm_compute in Hident. injection Hident as <-.
      by eexists.
    + exists dict, failures. split; [exact Hrun |]. split.
      * apply (Hlast [sample_publication "urn:uuid:1" "One"]
                     (sample_publication "urn:uuid:2" "Two")
                     [sample_publication "urn:uuid:3" "Three"]
                     (mkMetadata (mkIdentifier (Some "URI") (Some "urn:uuid:2"))
                        (Some "Two") None [] [])); try reflexivity.
        intros q md' Hq _ Hmd'. apply list_elem_of_singleton in Hq as ->.
        vm_compute in Hmd'. injection Hmd' as <-. discriminate.
      * apply (Hlast_error []
                 (mkParserError (Some (sample_publication "urn:uuid:3" "Three"))
                    "bad link")
                 [] (mkIdentifier (Some "URI") (Some "urn:uuid:3")) "urn:uuid:3").
        -- reflexivity.
        -- exists (sample_publication "urn:uuid:3" "Three"). by repeat split.
        -- reflexivity.
        -- intros error' ident' Hin. inversion Hin.
Defined.

(** ** Python's [sorted]: ordered, a permutation, stable *)

Section SortedFacts.

Context {A : Type}.
Variable key : A -> Z * Z.

(** Tuple order on the keys, as a relation on the elements. *)
Definition key_before (x y : A) : Prop := key_le (key x) (key y) = true.

Lemma key_le_spec p q :
  key_le p q = true ↔ (p.1 < q.1 ∨ (p.1 = q.1 ∧ p.2 <= q.2)).
Proof. unfold key_le. destruct p, q; simpl. lia. Qed.

Lemma key_le_false p q :
  key_le p q = false -> key_le q p = true ∧ p ≠ q.
Proof.
  intros Hf. split.
  - apply key_le_spec. destruct (key_le p q) eqn:Hpq; [done |].
    assert (¬ (p.1 < q.1 ∨ (p.1 = q.1 ∧ p.2 <= q.2))) by (rewrite <- key_le_spec; congruence).
    lia.
  - intros ->. assert (key_le q q = true) by (apply key_le_spec; lia). congruence.
Qed.

Lemma key_le_trans p q r :
  key_le p q = true -> key_le q r = true -> key_le p r = true.
Proof. rewrite !key_le_spec. lia. Qed.

Lemma insert_sorted_perm x l : insert_sorted key x l ≡ₚ x :: l.
Proof.
  induction l as [|y ys IH]; simpl; [done |].
  destruct (key_le (key x) (key y)); [done |].
  rewrite IH. apply Permutation_swap.
Qed.

Lemma sorted_perm l : sorted key l ≡ₚ l.
Proof.
  induction l as [|x xs IH]; simpl; [done |].
  by rewrite insert_sorted_perm, IH.
Qed.

Lemma insert_sorted_ordered x l :
  StronglySorted key_before l -> StronglySorted key_before (insert_sorted key x l).
Proof.
  induction l as [|y ys IH]; simpl; intros Hs.
  - repeat constructor.
  - apply StronglySorted_cons in Hs as [Hy Hys].
    destruct (key_le (key x) (key y)) eqn:Hxy.
    + apply StronglySorted_cons. split; [| by apply StronglySorted_cons].
      constructor; [done |].
      eapply Forall_impl; [exact Hy |]. intros z Hz. by eapply key_le_trans.
    + apply StronglySorted_cons. split; [| by apply IH].
      rewrite insert_sorted_perm. constructor; [| done].
      by apply key_le_false in Hxy as [? _].
Qed.

Lemma sorted_ordered l : StronglySorted key_before (sorted key l).
Proof.
  induction l as [|x xs IH]; simpl; [constructor | by apply insert_sorted_ordered].
Qed.

(** Stability: among the elements of one key, insertion puts the new one
    first and moves no other. *)
Lemma insert_sorted_stable k x l :
  filter (fun y => key y = k) (insert_sorted key x l)
  = filter (fun y => key y = k) (x :: l).
Proof.
  induction l as [|y ys IH]; simpl; [done |].
  destruct (key_le (key x) (key y)) eqn:Hxy; [done |].
  apply key_le_false in Hxy as [_ Hne].
  rewrite filter_cons, IH, !filter_cons.
  destruct (decide (key y = k)) as [Hy|Hy], (decide (key x = k)) as [Hx|Hx];
    try done.
  congruence.
Qed.

Lemma sorted_stable k l :
  filter (fun y => key y = k) (sorted key l) = filter (fun y => key y = k) l.
Proof.
  induction l as [|x xs IH]; simpl; [done |].
  by rewrite insert_sorted_stable, !filter_cons, IH.
Qed.

Lemma StronglySorted_reverse (R : relation A) l :
  StronglySorted R l -> StronglySorted (flip R) (reverse l).
Proof.
  induction 1 as [|x l Hl IH Hx]; [constructor |].
  rewrite reverse_cons. apply StronglySorted_app_2; [| done | repeat constructor].
  intros y z Hy Hz. apply list_elem_of_singleton in Hz as ->.
  rewrite elem_of_reverse in Hy. unfold flip.
  rewrite Forall_forall in Hx. by apply Hx.
Qed.

End SortedFacts.

(** ** Image links *)


(** Two images of the same size, in the order the feed declares them. *)
Definition first_declared_image : Link :=
  mkLink [] (Some "image/jpeg") (Some "http://example.org/first.jpg") None
         (Some 600) (Some 800).

Definition second_declared_image : Link :=
  mkLink [] (Some "image/jpeg") (Some "http://example.org/second.jpg") None
         (Some 600) (Some 800).

Definition twin_images_publication : Publication :=
  mkPublication (mkPublicationMetadata (Some "urn:uuid:1") (Some "One") None None None None)
    [] (Some [first_declared_image; second_declared_image]).


(** ** Media types and DRM schemes of a link *)

Section AcquisitionFacts.

Import OPDS2Importer.

Variable KNOWN_DRM_TYPES : list string.
Variable NO_DRM : option string.
Variable BOOK_MEDIA_TYPES : list string.
Variable AUDIOBOOK_MEDIA_TYPES : list string.
Variable AVAILABLE : string.

Local Abbreviation extract_types :=
  (_extract_media_types_and_drm_scheme_from_link KNOWN_DRM_TYPES NO_DRM
     BOOK_MEDIA_TYPES AUDIOBOOK_MEDIA_TYPES AVAILABLE).

(** The DRM scheme the loop assigns to an entry. *)
Definition entry_drm_scheme (entry : AcquisitionObject) : option string :=
  if opt_str_in (acq_type entry) KNOWN_DRM_TYPES then acq_type entry else NO_DRM.

(** An entry without children is its own innermost object. *)
Lemma nested_loop_leaf fuel entry :
  acq_child entry = [] -> nested_loop fuel entry (Some entry) = Some (Ok entry).
Proof. intros Hleaf. destruct fuel; cbn [nested_loop]; by rewrite Hleaf. Qed.

(** An entry whose first child is childless: one step reaches that child. *)
Lemma nested_loop_one_level fuel entry inner others :
  acq_child entry = inner :: others -> acq_child inner = [] ->
  nested_loop (S fuel) entry (Some entry) = Some (Ok inner).
Proof.
  intros Hentry Hinner. cbn [nested_loop]. rewrite Hentry. cbn [first_or_default].
  destruct fuel; cbn [nested_loop]; by rewrite Hinner.
Qed.

(** Once the loop holds the entry's first child and that child has children
    of its own, every step assigns the same object again. *)
Lemma nested_loop_stuck fuel entry inner others :
  acq_child entry = inner :: others -> acq_child inner ≠ [] ->
  nested_loop fuel entry (Some inner) = None.
Proof.
  intros Hentry Hinner. induction fuel as [|fuel IH]; cbn [nested_loop].
  - by destruct (acq_child inner).
  - destruct (acq_child inner) eqn:Hc; [done |]. by rewrite Hentry.
Qed.

Lemma nested_loop_diverges fuel entry inner others :
  acq_child entry = inner :: others -> acq_child inner ≠ [] ->
  nested_loop fuel entry (Some entry) = None.
Proof.
  intros Hentry Hinner.
  destruct fuel as [|fuel]; cbn [nested_loop]; rewrite Hentry; [done |].
  cbn [first_or_default]. by eapply nested_loop_stuck.
Qed.

(** A link whose availability is declared and is not "available" yields
    nothing. *)
Lemma unavailable_link_yields_nothing fuel link props a :
  properties link = Some props -> availability props = Some a ->
  state a ≠ AVAILABLE ->
  extract_types fuel link = Some (Ok []).
Proof.
  intros Hprops Hav Hstate. unfold _extract_media_types_and_drm_scheme_from_link.
  rewrite Hprops, Hav.
  destruct (String.eqb (state a) AVAILABLE) eqn:Heq; [| done].
  by apply String.eqb_eq in Heq.
Qed.

(** Entries nested at most one level deep each yield one pair: the type of
    the innermost object and the entry's DRM scheme. *)
Definition shallow (entry : AcquisitionObject) : Prop :=
  match acq_child entry with
  | [] => True
  | inner :: _ => acq_child inner = []
  end.

Definition innermost_shallow (entry : AcquisitionObject) : AcquisitionObject :=
  match acq_child entry with
  | [] => entry
  | inner :: _ => inner
  end.

Lemma indirect_loop_shallow fuel entries acc :
  Forall shallow entries ->
  indirect_loop KNOWN_DRM_TYPES NO_DRM (S fuel) entries acc
  = Some (Ok (acc ++ map (fun entry => (acq_type (innermost_shallow entry),
                                         entry_drm_scheme entry)) entries)).
Proof.
  intros Hall. revert acc. induction Hall as [|entry entries Hentry _ IH]; intros acc.
  - simpl. by rewrite app_nil_r.
  - unfold shallow in Hentry. unfold indirect_loop; fold indirect_loop.
    destruct (acq_child entry) as [|inner others] eqn:Hc.
    + assert (Hin : innermost_shallow entry = entry)
        by (unfold innermost_shallow; by rewrite Hc).
      rewrite nested_loop_leaf by done. rewrite IH, <- app_assoc.
      cbn [map app]. by rewrite Hin.
    + assert (Hin : innermost_shallow entry = inner)
        by (unfold innermost_shallow; by rewrite Hc).
      rewrite (nested_loop_one_level fuel entry inner others) by done.
      rewrite IH, <- app_assoc. cbn [map app]. by rewrite Hin.
Qed.

End AcquisitionFacts.

(** An entry whose chain is two levels deep: an Adobe-protected container
    holding a zip archive holding an EPUB. *)
Definition two_level_entry : AcquisitionObject :=
  mkAcquisition (Some "application/vnd.adobe.adept+xml")
    [ mkAcquisition (Some "application/zip")
        [ mkAcquisition (Some "application/epub+zip") [] ] ].

Definition two_level_link : Link :=
  mkLink ["http://opds-spec.org/acquisition"] (Some "application/vnd.adobe.adept+xml")
    (Some "http://example.org/book") (Some (mkLinkProperties None [two_level_entry]))
    None None.

(** C5, the defect. On a link whose indirect-acquisition entry is nested
    two levels deep the [while] loop assigns the entry's first child again
    and again: for no amount of fuel does
    [_extract_media_types_and_drm_scheme_from_link] return, so the link
    yields no [FormatData] and the innermost type is never reached. *)
Theorem two_level_chain_never_returns
    (KNOWN_DRM_TYPES : list string) (NO_DRM : option string)
    (BOOK_MEDIA_TYPES AUDIOBOOK_MEDIA_TYPES : list string) (AVAILABLE : string)
    (fuel : nat) :
  OPDS2Importer.nested_loop fuel two_level_entry (Some two_level_entry) = None
  ∧ OPDS2Importer._extract_media_types_and_drm_scheme_from_link KNOWN_DRM_TYPES
      NO_DRM BOOK_MEDIA_TYPES AUDIOBOOK_MEDIA_TYPES AVAILABLE fuel two_level_link
    = None.
Proof.
  assert (Hloop : OPDS2Importer.nested_loop fuel two_level_entry (Some two_level_entry)
                  = None).
  { by eapply nested_loop_diverges. }
  split; [exact Hloop |].
  unfold OPDS2Importer._extract_media_types_and_drm_scheme_from_link. simpl.
  by rewrite Hloop.
Qed.

(** ** The medium of a publication *)

Section MediumFacts.

Import OPDS2Importer.

Variable additional_type_to_medium : gmap string string.

(** A declared type that the table maps decides the medium. *)
Lemma declared_type_wins pub t m default_medium :
  pm_type (metadata pub) = Some t -> t ≠ EmptyString ->
  additional_type_to_medium !! t = Some m ->
  _extract_medium additional_type_to_medium pub default_medium = Some m.
Proof.
  intros Ht Hne Hm. unfold _extract_medium. rewrite Ht. simpl.
  destruct (String.eqb t EmptyString) eqn:Heq.
  - by apply String.eqb_eq in Heq.
  - simpl. by rewrite Hm.
Qed.

(** Without a declared type the medium is whatever the caller passed as
    default, absent or not. *)
Lemma no_declared_type pub default_medium :
  truthy (pm_type (metadata pub)) = false ->
  _extract_medium additional_type_to_medium pub default_medium = default_medium.
Proof. intros Ht. unfold _extract_medium. by rewrite Ht. Qed.

(** A declared type the table does not map falls back to the same default. *)
Lemma unmapped_declared_type pub t default_medium :
  pm_type (metadata pub) = Some t ->
  additional_type_to_medium !! t = None ->
  _extract_medium additional_type_to_medium pub default_medium = default_medium.
Proof.
  intros Ht Hm. unfold _extract_medium. rewrite Ht. simpl.
  destruct (negb (String.eqb t EmptyString)); [by rewrite Hm | done].
Qed.

End MediumFacts.

Section DerivedMediumFacts.

Import OPDS2Importer.

Variable CIRCULATION_ALLOWED : list string.
Variable KNOWN_DRM_TYPES : list string.
Variable NO_DRM : option string.
Variable BOOK_MEDIA_TYPES : list string.
Variable AUDIOBOOK_MEDIA_TYPES : list string.
Variable AVAILABLE : string.
Variable medium_from_media_type : option string -> option string.
Variable additional_type_to_medium : gmap string string.

(** A link the loop of [_extract_medium_from_links] passes over. *)
Definition passed_over (link : Link) : Prop :=
  rels link = [] ∨ truthy (type link) = false
  ∨ _is_acquisition_link CIRCULATION_ALLOWED link = false.

Lemma medium_loop_passes_over fuel links derived :
  Forall passed_over links ->
  medium_loop CIRCULATION_ALLOWED KNOWN_DRM_TYPES NO_DRM BOOK_MEDIA_TYPES
    AUDIOBOOK_MEDIA_TYPES AVAILABLE medium_from_media_type fuel links derived
  = Some (Ok derived).
Proof.
  induction 1 as [|link links Hlink _ IH]; simpl; [done |].
  destruct Hlink as [Hr | [Ht | Ha]].
  - by rewrite Hr.
  - rewrite Ht. simpl. by rewrite orb_true_r.
  - rewrite Ha. simpl. by rewrite !orb_true_r.
Qed.

(** With no declared type and no usable acquisition link, the medium is
    absent. *)
Lemma publication_medium_absent fuel pub :
  truthy (pm_type (metadata pub)) = false ->
  Forall passed_over (links pub) ->
  publication_medium CIRCULATION_ALLOWED KNOWN_DRM_TYPES NO_DRM BOOK_MEDIA_TYPES
    AUDIOBOOK_MEDIA_TYPES AVAILABLE medium_from_media_type
    additional_type_to_medium fuel pub
  = Some (Ok None).
Proof.
  intros Htype Hlinks. unfold publication_medium, _extract_medium_from_links.
  rewrite medium_loop_passes_over by done.
  by rewrite no_declared_type.
Qed.

End DerivedMediumFacts.

(** A publication that declares no type and whose only link is not an
    acquisition link. *)
Definition bare_publication : Publication :=
  mkPublication
    (mkPublicationMetadata (Some "urn:uuid:1") (Some "One") None None None None)
    [ mkLink [] (Some "text/html") (Some "http://example.org/1") None None None ]
    None.

(** C4, the defect. For a publication with no declared type and no
    acquisition link, [_extract_publication_metadata] passes the derived
    medium, [None], as the default of [_extract_medium], and the extracted
    medium is [None], not the book medium. *)
Theorem medium_absent_without_type_and_links
    (CIRCULATION_ALLOWED KNOWN_DRM_TYPES : list string) (NO_DRM : option string)
    (BOOK_MEDIA_TYPES AUDIOBOOK_MEDIA_TYPES : list string) (AVAILABLE : string)
    (medium_from_media_type : option string -> option string)
    (additional_type_to_medium : gmap string string) (fuel : nat) :
  OPDS2Importer.publication_medium CIRCULATION_ALLOWED KNOWN_DRM_TYPES NO_DRM
    BOOK_MEDIA_TYPES AUDIOBOOK_MEDIA_TYPES AVAILABLE medium_from_media_type
    additional_type_to_medium fuel bare_publication
  = Some (Ok None).
Proof.
  apply publication_medium_absent; [reflexivity |].
  repeat constructor.
Qed.

(** ** Mirroring a batch *)

Section MirrorFacts.

Import S3Uploader.

Variable urlsplit : string -> string * string.
Variable now : Z.
Variable as_completed : list UploadRequest -> list Response * option exn.

Local Abbreviation upload_loop := (upload_loop urlsplit).
Local Abbreviation process_response := (process_response now).
Local Abbreviation responses_loop := (responses_loop now).
Local Abbreviation mirror_batch := (mirror_batch urlsplit now as_completed).

(** What the upload loop reads of a representation: not [mirrored_at], not
    [mirror_exception]. *)
Definition upload_view (r : Representation)
  : option string * option string * option string * string :=
  (rep_url r, mirror_url r, external_media_type r, external_content r).

(** What [process_response] writes for a response. *)
Definition response_outcome (r : Representation) (response : Response) : Representation :=
  if status_code response =? 200 then set_as_mirrored now r
  else set_mirror_failed r response.

Lemma upload_loop_count positions reps by_url requests :
  (upload_loop positions reps by_url requests).2 = Ok () ->
  length (upload_loop positions reps by_url requests).1.2
  = (length requests + length positions)%nat.
Proof.
  revert reps by_url requests.
  induction positions as [|i rest IH]; intros reps by_url requests; simpl.
  - intros _. lia.
  - destruct (reps !! i) as [r|]; [| done].
    set (r' := if negb (truthy (mirror_url r)) then set_mirror_url r (rep_url r) else r).
    destruct (mirror_url r') as [target|]; [| done].
    destruct (bucket_and_filename urlsplit target) as [[bucket filename]|e]; [| done].
    intros Hok. rewrite IH by done. rewrite length_app. simpl. lia.
Qed.

Lemma upload_view_set_mirror_url r1 r2 :
  upload_view r1 = upload_view r2 ->
  upload_view (if negb (truthy (mirror_url r1)) then set_mirror_url r1 (rep_url r1) else r1)
  = upload_view (if negb (truthy (mirror_url r2)) then set_mirror_url r2 (rep_url r2) else r2).
Proof.
  unfold upload_view. intros Hv. injection Hv as Hu Hm Ht Hc.
  rewrite Hm. destruct (negb (truthy (mirror_url r2))); simpl; congruence.
Qed.

(** The upload loop issues the same requests for two batches that differ
    only in [mirrored_at] and [mirror_exception]. *)
Lemma upload_loop_ignores_status positions reps1 reps2 by_url requests :
  upload_view <$> reps1 = upload_view <$> reps2 ->
  (upload_loop positions reps1 by_url requests).1.2
  = (upload_loop positions reps2 by_url requests).1.2
  ∧ (upload_loop positions reps1 by_url requests).2
    = (upload_loop positions reps2 by_url requests).2.
Proof.
  revert reps1 reps2 by_url requests.
  induction positions as [|i rest IH]; intros reps1 reps2 by_url requests Hview;
    simpl; [done |].
  assert (Hi : upload_view <$> (reps1 !! i) = upload_view <$> (reps2 !! i))
    by (by rewrite <- !list_lookup_fmap, Hview).
  destruct (reps1 !! i) as [r1|], (reps2 !! i) as [r2|]; try done.
  simpl in Hi. apply (inj Some) in Hi. rename Hi into Hr.
  pose proof (upload_view_set_mirror_url r1 r2 Hr) as Hr'.
  set (r1' := if negb (truthy (mirror_url r1)) then _ else r1) in *.
  set (r2' := if negb (truthy (mirror_url r2)) then _ else r2) in *.
  assert (Hm : mirror_url r1' = mirror_url r2') by (unfold upload_view in Hr'; congruence).
  assert (Hc : external_content r1' = external_content r2')
    by (unfold upload_view in Hr'; congruence).
  assert (Ht : external_media_type r1' = external_media_type r2')
    by (unfold upload_view in Hr'; congruence).
  rewrite Hm. destruct (mirror_url r2') as [target|]; [| done].
  destruct (bucket_and_filename urlsplit target) as [[bucket filename]|e]; [| done].
  rewrite Hc, Ht. apply IH.
  by rewrite !list_fmap_insert, Hview, Hr'.
Qed.

(** A later response overwrites what an earlier one wrote. *)
Lemma response_outcome_overwrites r first second :
  response_outcome (response_outcome r first) second = response_outcome r second.
Proof.
  unfold response_outcome.
  by destruct (status_code first =? 200), (status_code second =? 200).
Qed.

Lemma process_response_known by_url reps response i r :
  by_url !! resp_url response = Some i -> reps !! i = Some r ->
  process_response by_url reps response
  = Ok (<[i := response_outcome r response]> reps).
Proof.
  intros Hurl Hi. unfold S3Uploader.process_response, response_outcome.
  rewrite Hurl, Hi. by destruct (status_code response =? 200).
Qed.

(** The responses addressed to position [i]. *)
Definition responses_for (by_url : gmap string nat) (i : nat)
    (responses : list Response) : list Response :=
  filter (fun response => by_url !! resp_url response = Some i) responses.

(** Every response names a representation of the batch. *)
Definition all_known (by_url : gmap string nat) (reps : list Representation)
    (responses : list Response) : Prop :=
  ∀ response, response ∈ responses ->
    ∃ i, by_url !! resp_url response = Some i ∧ (i < length reps)%nat.

(** The response loop handles every response, whatever the status codes,
    and leaves each representation as its last response determines. *)
Lemma responses_loop_completes by_url responses reps :
  all_known by_url reps responses ->
  ∃ reps',
    responses_loop by_url responses reps = (reps', Ok ())
    ∧ length reps' = length reps
    ∧ ∀ i r, reps !! i = Some r ->
        reps' !! i
        = Some (match last (responses_for by_url i responses) with
                | Some response => response_outcome r response
                | None => r
                end).
Proof.
  revert reps. induction responses as [|response rest IH]; intros reps Hknown.
  - exists reps. by repeat split.
  - destruct (Hknown response ltac:(left)) as (j & Hj & Hlt).
    destruct (lookup_lt_is_Some_2 reps j Hlt) as [rj Hrj].
    simpl. rewrite (process_response_known by_url reps response j rj) by done.
    destruct (IH (<[j := response_outcome rj response]> reps)) as (reps' & Hrun & Hlen & Hfinal).
    { intros response' Hin. destruct (Hknown response' ltac:(by right)) as (i & Hi & Hilt).
      exists i. by rewrite length_insert. }
    exists reps'. split; [done |]. split; [by rewrite Hlen, length_insert |].
    intros i r Hi. unfold responses_for. rewrite filter_cons.
    fold (responses_for by_url i rest).
    destruct (decide (by_url !! resp_url response = Some i)) as [Heq|Hne].
    + assert (i = j) as -> by congruence.
      assert (r = rj) as -> by congruence.
      rewrite (Hfinal j (response_outcome rj response))
        by (by rewrite list_lookup_insert_eq).
      rewrite last_cons.
      destruct (last (responses_for by_url j rest));
        [by rewrite response_outcome_overwrites | done].
    + assert (i ≠ j) by congruence.
      apply Hfinal. by rewrite list_lookup_insert_ne.
Qed.

(** Whatever happens afterwards, the uploads of [mirror_batch] are the
    requests its first loop issued. *)
Lemma mirror_batch_uploads reps :
  uploads (mirror_batch reps).1
  = (upload_loop (seq 0 (length reps)) reps ∅ []).1.2.
Proof.
  unfold S3Uploader.mirror_batch.
  destruct (upload_loop (seq 0 (length reps)) reps ∅ [])
    as [[[store by_url] requests] [[]|e]]; simpl; [| done].
  destruct (as_completed requests) as [responses interruption].
  destruct (S3Uploader.responses_loop now by_url responses store) as [store' [[]|e]];
    [| done].
  destruct interruption as [e|]; [| done]. by destruct (caught e).
Qed.

Lemma mirror_batch_returned reps st :
  mirror_batch reps = (st, Ok ()) ->
  (upload_loop (seq 0 (length reps)) reps ∅ []).2 = Ok ()
  ∧ closed st = length (uploads st).
Proof.
  unfold S3Uploader.mirror_batch.
  destruct (upload_loop (seq 0 (length reps)) reps ∅ [])
    as [[[store by_url] requests] [[]|e]]; simpl; [| by intros [=] ].
  destruct (as_completed requests) as [responses interruption].
  destruct (S3Uploader.responses_loop now by_url responses store) as [store' [[]|e]];
    [| by intros [=] ].
  destruct interruption as [e|].
  - destruct (caught e); intros [= <-]; by split.
  - intros [= <-]; by split.
Qed.

End MirrorFacts.

(** [mirror_batch] on its own makes no conditional fetch and does not read
    [mirrored_at]: whenever it returns, it has issued exactly one upload
    request per representation of the batch and closed as many file handles;
    two batches that differ only in [mirrored_at] and [mirror_exception] get
    the same upload requests; and a representation for which a response of
    status 200 is processed has [mirrored_at] set to the current time. *)
Lemma mirror_batch_uploads_all
    (urlsplit : string -> string * string) (now : Z)
    (as_completed : list UploadRequest -> list Response * option exn)
    (reps : list Representation) :
  (∀ st, S3Uploader.mirror_batch urlsplit now as_completed reps = (st, Ok ()) ->
         length (S3Uploader.uploads st) = length reps
         ∧ S3Uploader.closed st = length reps)
  ∧ (∀ reps', upload_view <$> reps = upload_view <$> reps' ->
       S3Uploader.uploads (S3Uploader.mirror_batch urlsplit now as_completed reps).1
       = S3Uploader.uploads (S3Uploader.mirror_batch urlsplit now as_completed reps').1)
  ∧ (∀ by_url response i r,
       by_url !! resp_url response = Some i -> reps !! i = Some r ->
       status_code response = 200 ->
       ∃ reps',
         S3Uploader.process_response now by_url reps response = Ok reps'
         ∧ mirrored_at <$> reps' !! i = Some (Some now)).
Proof.
  split; [| split].
  - intros st Hrun.
    destruct (mirror_batch_returned urlsplit now as_completed reps st Hrun)
      as [Hok Hclosed].
    assert (Hcount : length (S3Uploader.uploads st) = length reps).
    { replace (S3Uploader.uploads st)
        with (S3Uploader.uploads
                (S3Uploader.mirror_batch urlsplit now as_completed reps).1)
        by (by rewrite Hrun).
      rewrite mirror_batch_uploads, upload_loop_count by done.
      simpl. by rewrite length_seq. }
    split; [done | congruence].
  - intros reps' Hview. rewrite !mirror_batch_uploads.
    assert (Hlen : length reps = length reps').
    { by rewrite <- (length_fmap upload_view reps), Hview, length_fmap. }
    rewrite <- Hlen.
    by apply upload_loop_ignores_status.
  - intros by_url response i r Hurl Hi Hstatus.
    eexists. split; [by apply process_response_known |].
    rewrite list_lookup_insert_eq by (by eapply lookup_lt_Some).
    unfold response_outcome. by rewrite Hstatus.
Qed.

(** A cover that was mirrored at time 5, and the pool's answer for it. *)
Definition cover_url : string := "http://covers.example/1/cover.jpg".

Definition cover_response_url : string :=
  "http://s3.amazonaws.com/covers.example/1/cover.jpg".

Definition mirrored_cover : Representation :=
  mkRepresentation (Some cover_url) (Some cover_url) (Some "image/jpeg")
    "JPEG" None (Some 5) None.

(** [urlsplit] of [cover_url]. *)
Definition cover_urlsplit (u : string) : string * string :=
  ("covers.example", "/1/cover.jpg").

Definition pool_answers (code : Z) (body : string)
    (requests : list UploadRequest) : list Response * option exn :=
  ([mkResponse cover_response_url code body], None).

(** C3 (as amended). When every response names a representation of the
    batch, the response loop of [mirror_batch] handles all of them, whatever
    their status codes.  A representation without response is left as it
    was; one with responses is left as its last response says: status code
    exactly 200 sets [mirrored_at] to the current time and clears
    [mirror_exception]; any other status code, other 2xx codes included,
    clears [mirrored_at] and sets [mirror_exception] to "Status code ",
    the code in decimal, ": " and the response body. *)
Theorem process_response_outcome
    (now : Z) (by_url : gmap string nat) (responses : list Response)
    (reps : list Representation) :
  all_known by_url reps responses ->
  ∃ reps',
    S3Uploader.responses_loop now by_url responses reps = (reps', Ok ())
    ∧ length reps' = length reps
    ∧ ∀ i r, reps !! i = Some r ->
        ∃ r', reps' !! i = Some r'
          ∧ match last (responses_for by_url i responses) with
            | None => r' = r
            | Some response =>
                upload_view r' = upload_view r
                ∧ local_content_path r' = local_content_path r
                ∧ if status_code response =? 200
                  then mirrored_at r' = Some now ∧ mirror_exception r' = None
                  else mirrored_at r' = None
                       ∧ mirror_exception r'
                         = Some ("Status code " +:+ pretty (status_code response)
                                 +:+ ": " +:+ resp_content response)
            end.
Proof.
  intros Hknown.
  destruct (responses_loop_completes now by_url responses reps Hknown)
    as (reps' & Hrun & Hlen & Hfinal).
  exists reps'. split; [done |]. split; [done |].
  intros i r Hi. eexists. split; [by apply Hfinal |].
  destruct (last (responses_for by_url i responses)) as [response|]; [| done].
  unfold response_outcome. by destruct (status_code response =? 200).
Qed.

(** A cover not yet mirrored. *)
Definition new_cover : Representation :=
  mkRepresentation (Some cover_url) None (Some "image/jpeg") "JPEG" None None None.

(** C3, refuted as stated: a response with the 2xx status code 201 does not
    mark the representation mirrored; [mirrored_at] stays empty and
    [mirror_exception] reports the status. *)
Lemma created_status_is_a_failure :
  let st := (S3Uploader.mirror_batch cover_urlsplit 9 (pool_answers 201 "Created")
               [new_cover]).1 in
  (200 <=? 201) && (201 <? 300) = true
  ∧ mirrored_at <$> S3Uploader.store st = [None]
  ∧ mirror_exception <$> S3Uploader.store st = [Some "Status code 201: Created"].
Proof. vm_compute. by repeat split. Qed.

Lemma process_response_outcome_witness :
  all_known {[ cover_response_url := 0%nat ]} [new_cover]
    [mkResponse cover_response_url 503 "Slow Down";
     mkResponse cover_response_url 200 "OK"]
  ∧ ∃ reps',
      S3Uploader.responses_loop 9 {[ cover_response_url := 0%nat ]}
        [mkResponse cover_response_url 503 "Slow Down";
         mkResponse cover_response_url 200 "OK"] [new_cover] = (reps', Ok ())
      ∧ length reps' = 1%nat
      ∧ ∃ r', reps' !! 0%nat = Some r'
              ∧ mirrored_at r' = Some 9 ∧ mirror_exception r' = None.
Proof.
  assert (Hknown : all_known {[ cover_response_url := 0%nat ]} [new_cover]
            [mkResponse cover_response_url 503 "Slow Down";
             mkResponse cover_response_url 200 "OK"]).
  { intros response Hin. exists 0%nat.
    repeat (apply elem_of_cons in Hin as [->|Hin]; [split; [reflexivity | simpl; lia] |]).
    inversion Hin. }
  split; [exact Hknown |].
  destruct (process_response_outcome 9 _ _ _ Hknown) as (reps' & Hrun & Hlen & Hfinal).
  exists reps'. split; [exact Hrun |]. split; [exact Hlen |].
  destruct (Hfinal 0%nat new_cover eq_refl) as (r' & Hr' & Hlast).
  exists r'. split; [exact Hr' |].
  vm_compute in Hlast. by destruct Hlast as (_ & _ & ? & ?).
Defined.

(** ** Link consolidation *)

Lemma list_ind_two {A} (P : list A -> Prop) :
  P [] -> (∀ x, P [x]) -> (∀ x y l, P l -> P (y :: l) -> P (x :: y :: l)) ->
  ∀ l, P l.
Proof.
  intros Hnil Hone Htwo.
  assert (Hboth : ∀ l, P l ∧ ∀ x, P (x :: l)).
  { induction l as [|y l [IHl IHx]]; split; auto. }
  intros l. apply Hboth.
Qed.

Section ConsolidateFacts.

Import OPDSImporter.

Variable IMAGE : string.
Variable THUMBNAIL_IMAGE : string.

Hypothesis relations_differ : IMAGE ≠ THUMBNAIL_IMAGE.

Local Abbreviation is_thumbnail := (is_thumbnail THUMBNAIL_IMAGE).
Local Abbreviation is_image := (is_image IMAGE).
Local Abbreviation consolidate_links := (consolidate_links IMAGE THUMBNAIL_IMAGE).

(** What the lookahead finds right after a link. *)
Definition followed_by (test : LinkData -> bool) (rest : list LinkData) : bool :=
  match rest with
  | next_link :: _ => test next_link
  | [] => false
  end.

Lemma image_not_thumbnail link : is_image link = true -> is_thumbnail link = false.
Proof.
  unfold OPDSImporter.is_image, OPDSImporter.is_thumbnail.
  intros Hi%bool_decide_eq_true. apply bool_decide_eq_false. congruence.
Qed.

Lemma thumbnail_not_image link : is_thumbnail link = true -> is_image link = false.
Proof.
  intros Ht. destruct (is_image link) eqn:Hi; [| done].
  apply image_not_thumbnail in Hi. congruence.
Qed.

(** A thumbnail right before an image is set on it. *)
Lemma consolidate_thumbnail_image t i rest :
  is_thumbnail t = true -> is_image i = true ->
  consolidate_links (t :: i :: rest) = set_thumbnail i t :: consolidate_links rest.
Proof. intros Ht Hi. cbn [OPDSImporter.consolidate_links]. by rewrite Ht, Hi. Qed.

(** So is a thumbnail right after an image. *)
Lemma consolidate_image_thumbnail i t rest :
  is_image i = true -> is_thumbnail t = true ->
  consolidate_links (i :: t :: rest) = set_thumbnail i t :: consolidate_links rest.
Proof.
  intros Hi Ht. cbn [OPDSImporter.consolidate_links].
  by rewrite (image_not_thumbnail i Hi), Hi, Ht.
Qed.

(** A thumbnail with no image right after it is dropped. *)
Lemma consolidate_lone_thumbnail t rest :
  is_thumbnail t = true -> followed_by is_image rest = false ->
  consolidate_links (t :: rest) = consolidate_links rest.
Proof.
  intros Ht Hnext. destruct rest as [|next_link after].
  - cbn [OPDSImporter.consolidate_links]. by rewrite Ht.
  - simpl in Hnext. cbn [OPDSImporter.consolidate_links].
    by rewrite Ht, Hnext, (thumbnail_not_image t Ht).
Qed.

(** Any other link stays as it is, unless it is an image with a thumbnail
    right after it. *)
Lemma consolidate_kept link rest :
  is_thumbnail link = false ->
  is_image link && followed_by is_thumbnail rest = false ->
  consolidate_links (link :: rest) = link :: consolidate_links rest.
Proof.
  intros Ht Hnext. destruct rest as [|next_link after].
  - cbn [OPDSImporter.consolidate_links]. by rewrite Ht.
  - simpl in Hnext. cbn [OPDSImporter.consolidate_links].
    by rewrite Ht, Hnext.
Qed.

(** No link tagged thumbnail is left in the output. *)
Lemma consolidate_drops_thumbnails links :
  Forall (fun link => is_thumbnail link = false) (consolidate_links links).
Proof.
  induction links as [| x | x y l IHl IHyl] using list_ind_two.
  - constructor.
  - cbn [OPDSImporter.consolidate_links].
    destruct (is_thumbnail x) eqn:Ht; repeat constructor. done.
  - cbn [OPDSImporter.consolidate_links].
    destruct (is_thumbnail x && is_image y) eqn:Hxy.
    { apply andb_true_iff in Hxy as [_ Hy]. constructor; [| done].
      by apply image_not_thumbnail. }
    destruct (is_image x && is_thumbnail y) eqn:Hyx.
    { apply andb_true_iff in Hyx as [Hx _]. constructor; [| done].
      by apply image_not_thumbnail. }
    destruct (is_thumbnail x) eqn:Ht; [done |]. by constructor.
Qed.

(** The other links keep their order; only [thumbnail] may change. *)
Lemma consolidate_keeps_order links :
  link_fields <$> consolidate_links links
  = link_fields <$> filter (fun link => is_thumbnail link = false) links.
Proof.
  induction links as [| x | x y l IHl IHyl] using list_ind_two.
  - done.
  - cbn [OPDSImporter.consolidate_links]. rewrite filter_cons.
    destruct (is_thumbnail x) eqn:Ht.
    + by rewrite decide_False.
    + by rewrite decide_True.
  - rewrite (filter_cons _ x).
    destruct (is_thumbnail x) eqn:Hx.
    + rewrite decide_False by done.
      destruct (is_image y) eqn:Hy.
      * rewrite consolidate_thumbnail_image by done.
        rewrite filter_cons, decide_True by (by apply image_not_thumbnail).
        rewrite !fmap_cons. by rewrite IHl.
      * by rewrite consolidate_lone_thumbnail.
    + rewrite decide_True by done.
      destruct (is_image x && is_thumbnail y) eqn:Hxy.
      * apply andb_true_iff in Hxy as [Hi Hy].
        rewrite consolidate_image_thumbnail by done.
        rewrite filter_cons, decide_False by (by rewrite Hy).
        rewrite !fmap_cons. by rewrite IHl.
      * rewrite consolidate_kept by done.
        rewrite !fmap_cons. by rewrite IHyl.
Qed.

End ConsolidateFacts.

(** C7 (as amended). Consolidation, with the relations of images and of
    thumbnails being two different relations, scans the list once, looking
    at a link and at the one right after it.  A thumbnail right before an
    image, and a thumbnail right after an image, is set on that image: the
    image comes out with its other fields as they were and the thumbnail as
    its [thumbnail], and the scan goes on behind the two.  A thumbnail that
    has no image right after it (and was not taken by the image right before
    it) is dropped, and every other link comes out unchanged.  So no link
    tagged thumbnail is in the output, and the other links keep their input
    order; [thumbnail, image, thumbnail, image] becomes the two images, each
    with the thumbnail before it, and [thumbnail] becomes the empty list. *)
Theorem consolidate_links_pairs_adjacent (IMAGE THUMBNAIL_IMAGE : string) :
  let is_thumbnail := OPDSImporter.is_thumbnail THUMBNAIL_IMAGE in
  let is_image := OPDSImporter.is_image IMAGE in
  let consolidate_links := OPDSImporter.consolidate_links IMAGE THUMBNAIL_IMAGE in
  let paired := fun i t r =>
    OPDSImporter.link_fields r = OPDSImporter.link_fields i
    ∧ ld_thumbnail r = Some t in
  IMAGE ≠ THUMBNAIL_IMAGE ->
  (∀ links,
     Forall (fun link => is_thumbnail link = false) (consolidate_links links)
     ∧ OPDSImporter.link_fields <$> consolidate_links links
       = OPDSImporter.link_fields <$>
           filter (fun link => is_thumbnail link = false) links)
  ∧ (∀ t i rest,
       is_thumbnail t = true -> is_image i = true ->
       ∃ r, consolidate_links (t :: i :: rest) = r :: consolidate_links rest
            ∧ paired i t r)
  ∧ (∀ i t rest,
       is_image i = true -> is_thumbnail t = true ->
       ∃ r, consolidate_links (i :: t :: rest) = r :: consolidate_links rest
            ∧ paired i t r)
  ∧ (∀ t rest,
       is_thumbnail t = true -> followed_by is_image rest = false ->
       consolidate_links (t :: rest) = consolidate_links rest)
  ∧ (∀ link rest,
       is_thumbnail link = false ->
       is_image link && followed_by is_thumbnail rest = false ->
       consolidate_links (link :: rest) = link :: consolidate_links rest)
  ∧ (∀ t1 i1 t2 i2,
       is_thumbnail t1 = true -> is_thumbnail t2 = true ->
       is_image i1 = true -> is_image i2 = true ->
       ∃ r1 r2, consolidate_links [t1; i1; t2; i2] = [r1; r2]
                ∧ paired i1 t1 r1 ∧ paired i2 t2 r2)
  ∧ (∀ t, is_thumbnail t = true -> consolidate_links [t] = []).
Proof.
  intros is_thumbnail is_image consolidate_links paired Hdiff.
  unfold consolidate_links, paired.
  split; [| split; [| split; [| split; [| split; [| split]]]]].
  - intros links. split;
      [by apply consolidate_drops_thumbnails | by apply consolidate_keeps_order].
  - intros t i rest Ht Hi. eexists.
    split; [by apply consolidate_thumbnail_image | done].
  - intros i t rest Hi Ht. eexists.
    split; [by apply consolidate_image_thumbnail | done].
  - intros t rest Ht Hnext. by apply consolidate_lone_thumbnail.
  - intros link rest Ht Hnext. by apply consolidate_kept.
  - intros t1 i1 t2 i2 Ht1 Ht2 Hi1 Hi2. do 2 eexists.
    rewrite (consolidate_thumbnail_image IMAGE THUMBNAIL_IMAGE t1 i1) by done.
    rewrite (consolidate_thumbnail_image IMAGE THUMBNAIL_IMAGE t2 i2) by done.
    by repeat split.
  - intros t Ht. by rewrite (consolidate_lone_thumbnail IMAGE THUMBNAIL_IMAGE).
Qed.

(** The links of the consolidation test: each has the media type of the
    test and an address of its own. *)
Definition test_link (rel href : string) : LinkData :=
  mkLinkData (Some rel) (Some href) (Some "image/jpeg") None None None.

Definition image_rel : string := "http://opds-spec.org/image".
Definition thumbnail_rel : string := "http://opds-spec.org/image/thumbnail".
Definition download_rel : string := "http://opds-spec.org/acquisition/open-access".

Definition test_image (href : string) : LinkData := test_link image_rel href.
Definition test_thumbnail (href : string) : LinkData := test_link thumbnail_rel href.
Definition test_download (href : string) : LinkData := test_link download_rel href.

(** C7, refuted as stated: on the first input of [test_consolidate_links],
    [download, image, thumbnail, download], no image follows the thumbnail,
    yet the thumbnail is not dropped unpaired: the image before it comes out
    with that thumbnail, as the test expects. *)
Lemma consolidate_links_pairs_backwards :
  let t := test_thumbnail "http://example.org/3" in
  let output :=
    OPDSImporter.consolidate_links image_rel thumbnail_rel
      [ test_download "http://example.org/1"; test_image "http://example.org/2";
        t; test_download "http://example.org/4" ] in
  Forall (fun link => OPDSImporter.is_image image_rel link = false)
    [test_download "http://example.org/4"]
  ∧ ld_rel <$> output = [Some download_rel; Some image_rel; Some download_rel]
  ∧ ld_thumbnail <$> output = [None; Some t; None]
  ∧ ld_thumbnail <$> output ≠ [None; None; None].
Proof. vm_compute. repeat split; [repeat constructor | discriminate]. Qed.

Lemma consolidate_links_pairs_adjacent_witness :
  (∃ r1 r2,
     OPDSImporter.consolidate_links image_rel thumbnail_rel
       [ test_thumbnail "http://example.org/1"; test_image "http://example.org/2";
         test_thumbnail "http://example.org/3"; test_image "http://example.org/4" ]
     = [r1; r2]
     ∧ (OPDSImporter.link_fields r1
        = OPDSImporter.link_fields (test_image "http://example.org/2")
        ∧ ld_thumbnail r1 = Some (test_thumbnail "http://example.org/1"))
     ∧ (OPDSImporter.link_fields r2
        = OPDSImporter.link_fields (test_image "http://example.org/4")
        ∧ ld_thumbnail r2 = Some (test_thumbnail "http://example.org/3")))
  ∧ OPDSImporter.consolidate_links image_rel thumbnail_rel
      [test_thumbnail "http://example.org/1"] = []
  ∧ ∃ r,
      OPDSImporter.consolidate_links image_rel thumbnail_rel
        [ test_image "http://example.org/2"; test_thumbnail "http://example.org/3";
          test_download "http://example.org/4" ]
      = r :: OPDSImporter.consolidate_links image_rel thumbnail_rel
               [test_download "http://example.org/4"]
      ∧ OPDSImporter.link_fields r
        = OPDSImporter.link_fields (test_image "http://example.org/2")
      ∧ ld_thumbnail r = Some (test_thumbnail "http://example.org/3").
Proof.
  destruct (consolidate_links_pairs_adjacent image_rel thumbnail_rel)
    as (_ & _ & Hback & _ & _ & Hfour & Hone); [discriminate |].
  split; [| split].
  - apply Hfour; reflexivity.
  - apply Hone. reflexivity.
  - apply Hback; reflexivity.
Defined.

(** The three inputs of [test_consolidate_links] come out as the test
    expects: the relations left, and the thumbnail of each image. *)
Example test_consolidate_links :
  let consolidate := OPDSImporter.consolidate_links image_rel thumbnail_rel in
  let d1 := test_download "http://example.org/1" in
  let i2 := test_image "http://example.org/2" in
  let t3 := test_thumbnail "http://example.org/3" in
  let d4 := test_download "http://example.org/4" in
  let t1 := test_thumbnail "http://example.org/1" in
  let i4 := test_image "http://example.org/4" in
  let i3 := test_image "http://example.org/3" in
  (ld_rel <$> consolidate [d1; i2; t3; d4]
   = [Some download_rel; Some image_rel; Some download_rel]
   ∧ ld_thumbnail <$> consolidate [d1; i2; t3; d4] = [None; Some t3; None])
  ∧ (ld_rel <$> consolidate [t1; i2; t3; i4] = [Some image_rel; Some image_rel]
     ∧ ld_thumbnail <$> consolidate [t1; i2; t3; i4] = [Some t1; Some t3])
  ∧ (ld_rel <$> consolidate [t1; i2; i3] = [Some image_rel; Some image_rel]
     ∧ ld_thumbnail <$> consolidate [t1; i2; i3] = [Some t1; None]).
Proof. vm_compute. by repeat split. Qed.

(** ** The session cache *)

Section CacheFacts.

Import HasSessionCache.

Context {T I K : Type}.
Context `{EqDecision T} `{Countable I} `{Countable K}.
Context `{SessionCached T I K}.

Variable get_one : Session T -> I -> option T.

Local Abbreviation Cache := (@CacheTuple T I K _ _ _ _).
Local Abbreviation Hook := (@Hook T).
Local Abbreviation Op := (@Op T I K).

(** The key under which a table files an object. *)
Definition key_of (cache_name : CacheName) (obj : T) : I + K :=
  match cache_name with
  | ById => inl (row_id obj)
  | ByKey => inr (cache_key obj)
  end.

(** Every entry is filed under its object's own id and cache key, as
    [_cache_insert] files it. *)
Definition well_keyed (cache : Cache) : Prop :=
  (∀ i obj, id cache !! i = Some obj -> row_id obj = i)
  ∧ (∀ k obj, key cache !! k = Some obj -> cache_key obj = k).

Lemma well_keyed_empty st : well_keyed (mkCacheTuple ∅ ∅ st : Cache).
Proof. split; intros ? ?; simpl; by rewrite lookup_empty. Qed.

Lemma well_keyed_stats (cache : Cache) st :
  well_keyed cache -> well_keyed (mkCacheTuple (id cache) (key cache) st).
Proof. done. Qed.

Lemma well_keyed_insert obj (cache : Cache) :
  well_keyed cache -> well_keyed (_cache_insert obj cache).
Proof.
  intros [Hid Hkey]. split; simpl.
  - intros i o. rewrite lookup_insert. case_decide; [by intros [= <-] | apply Hid].
  - intros k o. rewrite lookup_insert. case_decide; [by intros [= <-] | apply Hkey].
Qed.

Lemma well_keyed_remove obj (cache : Cache) :
  well_keyed cache -> well_keyed (_cache_remove obj cache).
Proof.
  intros [Hid Hkey]. unfold _cache_remove.
  destruct (id cache !! row_id obj); [| apply well_keyed_empty].
  destruct (key cache !! cache_key obj); [| apply well_keyed_empty].
  split; simpl.
  - intros i o Hi. apply lookup_delete_Some in Hi as [_ Hi]. by apply Hid.
  - intros k o Hk. apply lookup_delete_Some in Hk as [_ Hk]. by apply Hkey.
Qed.

Lemma well_keyed_warm objects (cache : Cache) :
  well_keyed cache -> well_keyed (cache_warm objects cache).
Proof.
  revert cache. induction objects as [|obj objects IH]; intros cache Hwk; [done |].
  simpl. by apply IH, well_keyed_insert.
Qed.

Lemma table_lookup_keyed (cache : Cache) cache_name k obj :
  well_keyed cache -> table_lookup cache cache_name k = Some obj ->
  key_of cache_name obj = k.
Proof.
  intros [Hid Hkey]. unfold table_lookup, key_of.
  destruct cache_name, k as [i|k]; try done; intros Hl; f_equal; eauto.
Qed.

(** After the eviction of the entry found under [k], nothing is filed
    under [k]. *)
Lemma table_lookup_removed (cache : Cache) cache_name k obj :
  well_keyed cache -> table_lookup cache cache_name k = Some obj ->
  table_lookup (_cache_remove obj cache) cache_name k = None.
Proof.
  intros Hwk Hl. pose proof (table_lookup_keyed _ _ _ _ Hwk Hl) as Hk.
  unfold _cache_remove.
  destruct (id cache !! row_id obj);
    [| destruct cache_name, k; simpl; by rewrite ?lookup_empty ].
  destruct (key cache !! cache_key obj);
    [| destruct cache_name, k; simpl; by rewrite ?lookup_empty ].
  destruct cache_name, k as [i|k]; simpl in *; try done.
  - injection Hk as <-. apply lookup_delete_eq.
  - injection Hk as <-. apply lookup_delete_eq.
Qed.

(** A hook that finds what the session [db] holds: when a live object is
    filed under the key looked up, the hook returns it, as not new, and
    leaves the session alone. *)
Definition finds_live (db : Session T) (cache_name : CacheName) (k : I + K)
    (hook : Hook) : Prop :=
  ∀ obj, live db obj = true -> key_of cache_name obj = k ->
         hook db = ((Some obj, false), db).

(** One lookup, from a well-keyed cache, with a hook that finds what the
    session holds: the answer and the session are those of the hook alone,
    and one unit of fuel is enough. *)
Lemma cache_lookup_is_hook fuel db (cache : Cache) cache_name k (hook : Hook) :
  well_keyed cache -> finds_live db cache_name k hook ->
  ∃ cache',
    _cache_lookup (S fuel) db cache cache_name k hook
    = Some ((hook db).1, cache', (hook db).2)
    ∧ well_keyed cache'.
Proof.
  intros Hwk Hhook.
  assert (Hmiss : ∀ fuel' (cache0 : Cache),
             well_keyed cache0 -> table_lookup cache0 cache_name k = None ->
             ∃ cache',
               _cache_lookup fuel' db cache0 cache_name k hook
               = Some ((hook db).1, cache', (hook db).2)
               ∧ well_keyed cache').
  { intros fuel' cache0 Hwk0 Hnone.
    destruct fuel'; simpl; rewrite Hnone;
      destruct (hook db) as [[[obj|] new] db']; simpl; eexists; split; try done;
      try (by apply well_keyed_insert, well_keyed_stats);
      by apply well_keyed_stats. }
  destruct (table_lookup cache cache_name k) as [obj|] eqn:Hl; [| by apply Hmiss].
  simpl. rewrite Hl.
  destruct (live db obj) eqn:Hlive; simpl.
  - rewrite (Hhook obj Hlive (table_lookup_keyed _ _ _ _ Hwk Hl)). simpl.
    eexists. split; [done |]. by apply well_keyed_stats.
  - apply Hmiss; [by apply well_keyed_remove | by apply table_lookup_removed].
Qed.

(** The sessions a run goes through, for instance those in which ids and
    cache keys are unique. *)
Variable valid : Session T -> Prop.

(** In a valid session [get_one] finds the live object of an id. *)
Definition get_one_finds_live : Prop :=
  ∀ db i, valid db ->
    finds_live db ById (inl i) (fun db => ((get_one db i, false), db)).

(** In a valid session a miss hook finds the live object of its cache key
    (and creates one only when there is none), and it leaves a valid
    session; so does a change the application makes. *)
Definition op_respects (op : Op) : Prop :=
  match op with
  | LookupKey k hook =>
      ∀ db, valid db -> finds_live db ByKey (inr k) hook ∧ valid (hook db).2
  | Db change => ∀ db, valid db -> valid (change db)
  | _ => True
  end.

Lemma step_is_uncached fuel (op : Op) (cache : Cache) db :
  get_one_finds_live -> op_respects op -> valid db -> well_keyed cache ->
  ∃ cache',
    step get_one (S fuel) op cache db
    = Some (cache', (step_uncached get_one op db).1, (step_uncached get_one op db).2)
    ∧ well_keyed cache' ∧ valid (step_uncached get_one op db).1.
Proof.
  intros Hget Hop Hvalid Hwk. destruct op as [objects|obj|obj|i|k hook|change].
  - eexists. split; [done |]. split; [by apply well_keyed_warm | done].
  - eexists. split; [done |]. split; [by apply well_keyed_insert | done].
  - eexists. split; [done |]. split; [by apply well_keyed_remove | done].
  - unfold step, by_id.
    destruct (cache_lookup_is_hook fuel db cache ById (inl i)
                (fun db => ((get_one db i, false), db)) Hwk (Hget db i Hvalid))
      as (cache' & Hrun & Hwk').
    rewrite Hrun. simpl. by eexists.
  - unfold step, by_cache_key. simpl in Hop.
    destruct (Hop db Hvalid) as [Hfinds Hvalid'].
    destruct (cache_lookup_is_hook fuel db cache ByKey (inr k) hook Hwk Hfinds)
      as (cache' & Hrun & Hwk').
    rewrite Hrun. simpl. destruct (hook db) as [[obj new] db']. simpl. by eexists.
  - eexists. split; [done |]. split; [done |]. by apply Hop.
Qed.

(** A run with the cache answers every lookup as the run without it does,
    and leaves the same session. *)
Lemma run_is_uncached fuel (ops : list Op) (cache : Cache) db :
  get_one_finds_live -> Forall op_respects ops -> valid db -> well_keyed cache ->
  ∃ cache',
    run get_one (S fuel) ops cache db
    = Some (cache', (run_uncached get_one ops db).1, (run_uncached get_one ops db).2)
    ∧ well_keyed cache'.
Proof.
  intros Hget Hops. revert cache db.
  induction Hops as [|op rest Hop _ IH]; intros cache db Hvalid Hwk.
  - by exists cache.
  - destruct (step_is_uncached fuel op cache db Hget Hop Hvalid Hwk)
      as (cache1 & Hstep & Hwk1 & Hvalid1).
    cbn [run run_uncached]. rewrite Hstep.
    destruct (step_uncached get_one op db) as [db1 answers]. simpl in *.
    destruct (IH cache1 db1 Hvalid1 Hwk1) as (cache' & Hrun & Hwk').
    rewrite Hrun.
    destruct (run_uncached get_one rest db1) as [db2 more]. simpl.
    by exists cache'.
Qed.

(** *** The two tables in lock-step *)

(** Within [U] the id determines the record, and so does the cache key. *)
Definition determined (U : T -> Prop) : Prop :=
  ∀ x y, U x -> U y -> row_id x = row_id y ∨ cache_key x = cache_key y -> x = y.

(** The invariant behind lock-step: entries are filed under their own id
    and key, come from [U], and an object is in one table exactly when it is
    in the other. *)
Definition coherent (U : T -> Prop) (cache : Cache) : Prop :=
  well_keyed cache
  ∧ (∀ i obj, id cache !! i = Some obj -> U obj)
  ∧ (∀ obj, id cache !! row_id obj = Some obj ↔ key cache !! cache_key obj = Some obj).

Lemma coherent_lock_step U (cache : Cache) : coherent U cache -> lock_step cache.
Proof.
  intros ([Hid Hkey] & _ & Hpair) obj. split.
  - intros [i Hi]. exists (cache_key obj). apply Hpair.
    by rewrite (Hid i obj Hi).
  - intros [k Hk]. exists (row_id obj). apply Hpair.
    by rewrite (Hkey k obj Hk).
Qed.

Lemma coherent_key_within U (cache : Cache) k obj :
  coherent U cache -> key cache !! k = Some obj -> U obj.
Proof.
  intros ([Hid Hkey] & HU & Hpair) Hk.
  apply (HU (row_id obj)), Hpair. by rewrite (Hkey k obj Hk).
Qed.

Lemma coherent_empty U st : coherent U (mkCacheTuple ∅ ∅ st : Cache).
Proof.
  split; [apply well_keyed_empty |]. split.
  - intros i obj. simpl. by rewrite lookup_empty.
  - intros obj. simpl. by rewrite !lookup_empty.
Qed.

Lemma coherent_stats U (cache : Cache) st :
  coherent U cache -> coherent U (mkCacheTuple (id cache) (key cache) st).
Proof. done. Qed.

Lemma coherent_insert U obj (cache : Cache) :
  determined U -> U obj -> coherent U cache -> coherent U (_cache_insert obj cache).
Proof.
  intros Hdet Hobj Hco. pose proof Hco as (Hwk & HU & Hpair).
  split; [by apply well_keyed_insert |]. split; simpl.
  - intros i o. rewrite lookup_insert. case_decide; [by intros [= <-] | apply HU].
  - intros o. rewrite !lookup_insert.
    destruct (decide (row_id obj = row_id o)) as [Hi|Hi],
             (decide (cache_key obj = cache_key o)) as [Hk|Hk]; try done.
    + split; [intros [= ->]; done |]. intros Hin.
      assert (U o) by (by eapply coherent_key_within).
      f_equal. apply Hdet; auto.
    + split; [| intros [= ->]; done]. intros Hin.
      assert (U o) by (by eapply HU).
      f_equal. apply Hdet; auto.
Qed.

Lemma coherent_remove U obj (cache : Cache) :
  determined U -> U obj -> coherent U cache -> coherent U (_cache_remove obj cache).
Proof.
  intros Hdet Hobj Hco. pose proof Hco as ([Hid Hkey] & HU & Hpair).
  unfold _cache_remove.
  destruct (id cache !! row_id obj) as [found|] eqn:Hfound; [| apply coherent_empty].
  destruct (key cache !! cache_key obj) as [found'|] eqn:Hfound'; [| apply coherent_empty].
  assert (found = obj) as ->.
  { apply Hdet; [by eapply HU | done | left; by eapply Hid]. }
  assert (found' = obj) as ->.
  { apply Hdet; [by eapply coherent_key_within | done | right; by eapply Hkey]. }
  split; [| split]; simpl.
  - split; simpl.
    + intros i o Hi. apply lookup_delete_Some in Hi as [_ Hi]. by apply Hid.
    + intros k o Hk. apply lookup_delete_Some in Hk as [_ Hk]. by apply Hkey.
  - intros i o Hi. apply lookup_delete_Some in Hi as [_ Hi]. by eapply HU.
  - intros o. rewrite !lookup_delete_Some. split.
    + intros [Hne Hin]. split; [| by apply Hpair].
      intros Heq. apply Hne.
      assert (o = obj) as -> by (apply Hdet; [by eapply HU | done | by right]).
      done.
    + intros [Hne Hin]. split; [| by apply Hpair].
      intros Heq. apply Hne.
      assert (o = obj) as ->
        by (apply Hdet; [by eapply coherent_key_within | done | by left]).
      done.
Qed.

Lemma coherent_warm U objects (cache : Cache) :
  determined U -> Forall U objects -> coherent U cache ->
  coherent U (cache_warm objects cache).
Proof.
  intros Hdet Hall. revert cache.
  induction Hall as [|obj objects Hobj _ IH]; intros cache Hco; [done |].
  simpl. by apply IH, coherent_insert.
Qed.

(** What a hook returns lies within [U]. *)
Definition hook_within (U : T -> Prop) (hook : Hook) : Prop :=
  ∀ db obj new db', hook db = ((Some obj, new), db') -> U obj.

Lemma coherent_lookup U fuel db (cache : Cache) cache_name k (hook : Hook) :
  determined U -> hook_within U hook -> coherent U cache ->
  ∃ answer cache' db',
    _cache_lookup (S fuel) db cache cache_name k hook = Some (answer, cache', db')
    ∧ coherent U cache'.
Proof.
  intros Hdet Hhook Hco.
  assert (Hmiss : ∀ fuel' (cache0 : Cache),
             coherent U cache0 -> table_lookup cache0 cache_name k = None ->
             ∃ answer cache' db',
               _cache_lookup fuel' db cache0 cache_name k hook
               = Some (answer, cache', db')
               ∧ coherent U cache').
  { intros fuel' cache0 Hco0 Hnone.
    destruct fuel'; simpl; rewrite Hnone;
      destruct (hook db) as [[[obj|] new] db'] eqn:Hh; simpl;
      do 3 eexists; (split; [done |]);
      try (apply coherent_insert; [done | by eapply Hhook |]);
      by apply coherent_stats. }
  destruct (table_lookup cache cache_name k) as [obj|] eqn:Hl; [| by apply Hmiss].
  simpl. rewrite Hl. destruct (live db obj); simpl.
  - do 3 eexists. split; [done |]. by apply coherent_stats.
  - assert (U obj).
    { pose proof Hco as (_ & HU & _). unfold table_lookup in Hl.
      destruct cache_name, k as [i|k]; try done;
        [by eapply HU | by eapply coherent_key_within]. }
    apply Hmiss; [by apply coherent_remove |].
    apply table_lookup_removed; [by destruct Hco | done].
Qed.

(** The records of a run lie within [U]. *)
Definition op_within (U : T -> Prop) (op : Op) : Prop :=
  match op with
  | Warm objects => Forall U objects
  | Insert obj | Remove obj => U obj
  | LookupKey _ hook => hook_within U hook
  | LookupId _ | Db _ => True
  end.

Definition get_one_within (U : T -> Prop) : Prop :=
  ∀ db i obj, get_one db i = Some obj -> U obj.

Lemma run_coherent U fuel (ops : list Op) (cache : Cache) db :
  determined U -> get_one_within U -> Forall (op_within U) ops ->
  coherent U cache ->
  ∃ cache' db' answers,
    run get_one (S fuel) ops cache db = Some (cache', db', answers)
    ∧ coherent U cache'.
Proof.
  intros Hdet Hget Hops. revert cache db.
  induction Hops as [|op rest Hop _ IH]; intros cache db Hco.
  - by exists cache, db, [].
  - assert (Hstep : ∃ cache1 db1 answers,
               step get_one (S fuel) op cache db = Some (cache1, db1, answers)
               ∧ coherent U cache1).
    { destruct op as [objects|obj|obj|i|k hook|change]; simpl in Hop.
      - do 3 eexists. split; [done |]. by apply coherent_warm.
      - do 3 eexists. split; [done |]. by apply coherent_insert.
      - do 3 eexists. split; [done |]. by apply coherent_remove.
      - unfold step, by_id.
        destruct (coherent_lookup U fuel db cache ById (inl i)
                    (fun db => ((get_one db i, false), db)) Hdet)
          as ([obj new] & cache1 & db1 & Hrun & Hco1); [| done |].
        { intros db0 obj new db' [= Hg _ _]. by eapply Hget. }
        rewrite Hrun. by do 3 eexists.
      - unfold step, by_cache_key.
        destruct (coherent_lookup U fuel db cache ByKey (inr k) hook Hdet Hop Hco)
          as ([obj new] & cache1 & db1 & Hrun & Hco1).
        rewrite Hrun. by do 3 eexists.
      - by do 3 eexists. }
    destruct Hstep as (cache1 & db1 & answers & Hstep & Hco1).
    destruct (IH cache1 db1 Hco1) as (cache' & db' & more & Hrun & Hco').
    cbn [run]. rewrite Hstep, Hrun. by do 3 eexists.
Qed.

(** [_cache_remove] on an entry that is missing from either table clears
    both. *)
Lemma cache_remove_missing obj (cache : Cache) :
  id cache !! row_id obj = None ∨ key cache !! cache_key obj = None ->
  id (_cache_remove obj cache) = ∅ ∧ key (_cache_remove obj cache) = ∅.
Proof.
  unfold _cache_remove. intros [Hi|Hk].
  - by rewrite Hi.
  - rewrite Hk. by destruct (id cache !! row_id obj).
Qed.

End CacheFacts.

(** C8 (as amended). Provided the miss hooks find what the session holds
    (in every valid session, [get_one] and each hook given to
    [by_cache_key] return the live record filed under the key looked up, as
    not new and without changing the session; hooks and application changes
    keep the session valid), then for every sequence of warm, insert,
    remove and lookup operations, from every cache whose entries are filed
    under their own id and key (the empty one included), the run with the
    cache returns, answers every [by_id] and [by_cache_key] with the record
    the run without the cache gives, and ends in the same session. *)
Theorem cached_run_matches_uncached
    {T I K : Type} `{EqDecision T} `{Countable I} `{Countable K}
    `{SessionCached T I K}
    (get_one : Session T -> I -> option T) (valid : Session T -> Prop)
    (fuel : nat) (ops : list HasSessionCache.Op)
    (cache : HasSessionCache.CacheTuple) (db : Session T) :
  get_one_finds_live get_one valid ->
  Forall (op_respects valid) ops ->
  valid db ->
  well_keyed cache ->
  ∃ cache',
    HasSessionCache.run get_one (S fuel) ops cache db
    = Some (cache',
            (HasSessionCache.run_uncached get_one ops db).1,
            (HasSessionCache.run_uncached get_one ops db).2).
Proof.
  intros Hget Hops Hvalid Hwk.
  destruct (run_is_uncached get_one valid fuel ops cache db Hget Hops Hvalid Hwk)
    as (cache' & Hrun & _).
  by exists cache'.
Qed.

(** C9 (as amended). Provided every record that is warmed, inserted,
    removed or returned by a miss hook comes from a set of records in which
    the id determines the record and so does the cache key, after every
    sequence of [cache_warm], [_cache_insert], [_cache_remove] and lookup
    calls on an empty cache the id table and the key table hold the same set
    of records.  [_cache_remove] never raises: when the object's id or its
    key is missing from its table, it clears both tables. *)
Theorem tables_stay_in_lock_step
    {T I K : Type} `{EqDecision T} `{Countable I} `{Countable K}
    `{SessionCached T I K}
    (get_one : Session T -> I -> option T) (U : T -> Prop)
    (fuel : nat) (ops : list HasSessionCache.Op) (db : Session T) :
  determined U ->
  get_one_within get_one U ->
  Forall (op_within U) ops ->
  (∃ cache' db' answers,
     HasSessionCache.run get_one (S fuel) ops HasSessionCache.empty_cache db
     = Some (cache', db', answers)
     ∧ HasSessionCache.lock_step cache')
  ∧ (∀ obj (cache : HasSessionCache.CacheTuple),
       HasSessionCache.id cache !! row_id obj = None
       ∨ HasSessionCache.key cache !! cache_key obj = None ->
       HasSessionCache.id (HasSessionCache._cache_remove obj cache) = ∅
       ∧ HasSessionCache.key (HasSessionCache._cache_remove obj cache) = ∅).
Proof.
  intros Hdet Hget Hops. split.
  - destruct (run_coherent get_one U fuel ops HasSessionCache.empty_cache db
                Hdet Hget Hops (coherent_empty U _))
      as (cache' & db' & answers & Hrun & Hco).
    exists cache', db', answers. split; [done |]. by eapply coherent_lock_step.
  - intros obj cache. apply cache_remove_missing.
Qed.

(** *** A cached class: data sources, cached by id and by name *)

Record DataSource : Type := mkDataSource {
  ds_id : Z;
  ds_name : string
}.

#[global] Instance DataSource_eq_dec : EqDecision DataSource.
Proof. solve_decision. Defined.

#[global] Instance DataSource_cached : SessionCached DataSource Z string :=
  {| row_id := ds_id; cache_key := ds_name |}.

Definition gutenberg : DataSource := mkDataSource 1 "Gutenberg".
Definition overdrive : DataSource := mkDataSource 2 "Overdrive".

(** A second row with Gutenberg's name. *)
Definition gutenberg_again : DataSource := mkDataSource 2 "Gutenberg".

Definition empty_session : Session DataSource := mkSession [] [].

(** A hook that creates a row whenever it is called. *)
Definition always_create (name : string) : @HasSessionCache.Hook DataSource :=
  fun db =>
    let obj := mkDataSource (Z.of_nat (length (held db)) + 1) name in
    ((Some obj, true), mkSession (held db ++ [obj]) (deleted db)).

Definition no_get_one (db : Session DataSource) (i : Z) : option DataSource := None.

(** The answers and the final session of a run, without the cache. *)
Definition answers_and_session {C D A : Type} (r : option (C * D * A))
  : option (D * A) :=
  match r with
  | Some (_, db, answers) => Some (db, answers)
  | None => None
  end.

(** C8, refuted as stated: with a hook that creates a row on every call,
    two lookups of the same key create one row with the cache (the second
    lookup is a hit and returns the first row) and two rows without it; the
    second answers differ and so do the final sessions. *)
Lemma cache_changes_the_outcome :
  let ops := [HasSessionCache.LookupKey "Gutenberg" (always_create "Gutenberg");
              HasSessionCache.LookupKey "Gutenberg" (always_create "Gutenberg")] in
  answers_and_session
    (HasSessionCache.run no_get_one 3 ops HasSessionCache.empty_cache empty_session)
  = Some (mkSession [gutenberg] [],
          [HasSessionCache.KeyAnswer (Some gutenberg) true;
           HasSessionCache.KeyAnswer (Some gutenberg) false])
  ∧ HasSessionCache.run_uncached no_get_one ops empty_session
    = (mkSession [gutenberg; gutenberg_again] [],
       [HasSessionCache.KeyAnswer (Some gutenberg) true;
        HasSessionCache.KeyAnswer (Some gutenberg_again) true])
  ∧ answers_and_session
      (HasSessionCache.run no_get_one 3 ops HasSessionCache.empty_cache empty_session)
    ≠ Some (HasSessionCache.run_uncached no_get_one ops empty_session).
Proof. vm_compute. repeat split. discriminate. Qed.

(** C9, refuted as stated: after inserting two rows that share a cache key,
    the id table holds both and the key table only the second. *)
Lemma shared_key_breaks_lock_step :
  let cache := HasSessionCache._cache_insert gutenberg_again
                 (HasSessionCache._cache_insert gutenberg
                    HasSessionCache.empty_cache) in
  HasSessionCache.holds_id cache gutenberg
  ∧ ¬ HasSessionCache.holds_key cache gutenberg
  ∧ ¬ HasSessionCache.lock_step cache.
Proof.
  intros cache.
  assert (Hid : HasSessionCache.holds_id cache gutenberg) by (by exists 1).
  assert (Hkey : ¬ HasSessionCache.holds_key cache gutenberg).
  { intros [k Hk]. simpl in Hk. rewrite insert_insert_eq in Hk.
    apply lookup_insert_Some in Hk as [[_ Hk]|[_ Hk]]; [discriminate |].
    by rewrite lookup_empty in Hk. }
  split; [done |]. split; [done |].
  intros Hlock. by apply Hkey, Hlock.
Qed.

(** The rows of the data source table, and sessions that hold only them. *)
Definition data_sources : list DataSource := [gutenberg; overdrive].

Definition known (obj : DataSource) : Prop := obj = gutenberg ∨ obj = overdrive.

Definition valid_session (db : Session DataSource) : Prop := Forall known (held db).

(** [get_one(db, DataSource, id=i)]: the row of that id the session holds. *)
Definition table_get_one (db : Session DataSource) (i : Z) : option DataSource :=
  head (filter (fun obj => ds_id obj = i ∧ HasSessionCache.live db obj = true)
               data_sources).

(** The hook of a lookup by name that does not create. *)
Definition lookup_by_name (name : string) : @HasSessionCache.Hook DataSource :=
  fun db =>
    ((head (filter (fun obj => ds_name obj = name ∧ HasSessionCache.live db obj = true)
                   data_sources), false), db).

(** The application adds a row to the session, or deletes one. *)
Definition hold (obj : DataSource) (db : Session DataSource) : Session DataSource :=
  mkSession (obj :: held db) (deleted db).

Definition delete_row (obj : DataSource) (db : Session DataSource) : Session DataSource :=
  mkSession (held db) (obj :: deleted db).

Lemma live_known db obj :
  valid_session db -> HasSessionCache.live db obj = true -> known obj.
Proof.
  unfold valid_session, HasSessionCache.live. rewrite Forall_forall.
  intros Hvalid Hlive. apply andb_true_iff in Hlive as [Hheld _].
  apply bool_decide_eq_true in Hheld. by apply Hvalid.
Qed.

Lemma table_get_one_finds : get_one_finds_live table_get_one valid_session.
Proof.
  intros db i Hvalid obj Hlive Hkey. injection Hkey as <-.
  unfold table_get_one, data_sources.
  destruct (live_known db obj Hvalid Hlive) as [-> | ->]; simpl.
  - by rewrite filter_cons, decide_True.
  - rewrite filter_cons, decide_False by (by intros [? _]).
    by rewrite filter_cons, decide_True.
Qed.

Lemma lookup_by_name_finds name db :
  valid_session db ->
  finds_live db ByKey (inr name) (lookup_by_name name)
  ∧ valid_session (lookup_by_name name db).2.
Proof.
  intros Hvalid. split; [| done].
  intros obj Hlive Hkey. injection Hkey as <-.
  unfold lookup_by_name, data_sources.
  destruct (live_known db obj Hvalid Hlive) as [-> | ->]; simpl.
  - by rewrite filter_cons, decide_True.
  - rewrite filter_cons, decide_False by (by intros [? _]).
    by rewrite filter_cons, decide_True.
Qed.

Lemma hold_known obj db : known obj -> valid_session db -> valid_session (hold obj db).
Proof. intros Hobj Hvalid. by constructor. Qed.

Lemma known_determined : determined known.
Proof. intros x y [-> | ->] [-> | ->] [Heq | Heq]; done. Qed.

Lemma table_row_known (P : DataSource -> Prop) `{∀ obj, Decision (P obj)} obj :
  head (filter P data_sources) = Some obj -> known obj.
Proof.
  intros Hhead. apply head_Some_elem_of, list_elem_of_filter in Hhead as [_ Hin].
  unfold data_sources in Hin.
  apply elem_of_cons in Hin as [-> | Hin]; [by left |].
  apply list_elem_of_singleton in Hin as ->. by right.
Qed.

Lemma table_get_one_within : get_one_within table_get_one known.
Proof. intros db i obj Hget. by eapply table_row_known. Qed.

Lemma lookup_by_name_within name : hook_within known (lookup_by_name name).
Proof.
  intros db obj new db' Hhook. unfold lookup_by_name in Hhook.
  injection Hhook as Hhead _ _. by eapply table_row_known.
Qed.

(** A run: the rows appear in the session, are looked up, cached, deleted
    and evicted. *)
Definition sample_run : list HasSessionCache.Op :=
  [ HasSessionCache.Db (hold gutenberg);
    HasSessionCache.LookupKey "Gutenberg" (lookup_by_name "Gutenberg");
    HasSessionCache.Db (hold overdrive);
    HasSessionCache.Warm [overdrive];
    HasSessionCache.LookupId 2;
    HasSessionCache.Db (delete_row gutenberg);
    HasSessionCache.LookupId 1;
    HasSessionCache.Remove gutenberg;
    HasSessionCache.Insert overdrive;
    HasSessionCache.LookupKey "Overdrive" (lookup_by_name "Overdrive") ].

Lemma cached_run_matches_uncached_witness :
  ∃ cache',
    HasSessionCache.run table_get_one 1 sample_run HasSessionCache.empty_cache
      empty_session
    = Some (cache',
            (HasSessionCache.run_uncached table_get_one sample_run empty_session).1,
            (HasSessionCache.run_uncached table_get_one sample_run empty_session).2).
Proof.
  apply (cached_run_matches_uncached table_get_one valid_session 0 sample_run
           HasSessionCache.empty_cache empty_session).
  - exact table_get_one_finds.
  - unfold sample_run.
    repeat (apply Forall_cons_2; [| try apply Forall_nil_2]); simpl; try done;
      intros db Hvalid;
      first [ by apply lookup_by_name_finds
            | apply hold_known; [by (left + right) | done]
            | done ].
  - constructor.
  - apply well_keyed_empty.
Defined.

Lemma tables_stay_in_lock_step_witness :
  (∃ cache' db' answers,
     HasSessionCache.run table_get_one 1 sample_run HasSessionCache.empty_cache
       empty_session = Some (cache', db', answers)
     ∧ HasSessionCache.lock_step cache')
  ∧ HasSessionCache.id
      (HasSessionCache._cache_remove gutenberg
         (HasSessionCache._cache_insert overdrive HasSessionCache.empty_cache)) = ∅
  ∧ HasSessionCache.key
      (HasSessionCache._cache_remove gutenberg
         (HasSessionCache._cache_insert overdrive HasSessionCache.empty_cache)) = ∅.
Proof.
  destruct (tables_stay_in_lock_step table_get_one known 0 sample_run empty_session)
    as [Hrun Hremove].
  - exact known_determined.
  - exact table_get_one_within.
  - unfold sample_run.
    repeat (apply Forall_cons_2; [| try apply Forall_nil_2]); simpl; try done;
      first [ by left | by right | apply lookup_by_name_within
            | by repeat constructor; right ].
  - split; [exact Hrun |]. apply Hremove. left. reflexivity.
Defined.

(** * Further properties of the importer *)

(** ** Links whose indirect-acquisition entries are at most one level deep *)

Section ShallowLinks.

Import OPDS2Importer.

Variable CIRCULATION_ALLOWED : list string.
Variable KNOWN_DRM_TYPES : list string.
Variable NO_DRM : option string.
Variable BOOK_MEDIA_TYPES : list string.
Variable AUDIOBOOK_MEDIA_TYPES : list string.
Variable AVAILABLE : string.
Variable medium_from_media_type : option string -> option string.
Variable additional_type_to_medium : gmap string string.

Local Abbreviation extract_types :=
  (_extract_media_types_and_drm_scheme_from_link KNOWN_DRM_TYPES NO_DRM
     BOOK_MEDIA_TYPES AUDIOBOOK_MEDIA_TYPES AVAILABLE).
Local Abbreviation medium_loop :=
  (medium_loop CIRCULATION_ALLOWED KNOWN_DRM_TYPES NO_DRM BOOK_MEDIA_TYPES
     AUDIOBOOK_MEDIA_TYPES AVAILABLE medium_from_media_type).

(** The availability test of the link function. *)
Definition is_available (props : LinkProperties) : bool :=
  match availability props with
  | None => true
  | Some a => String.eqb (state a) AVAILABLE
  end.

(** Every entry of the link is at most one level deep. *)
Definition shallow_link (link : Link) : Prop :=
  match properties link with
  | Some props => is_available props = true -> Forall shallow (indirect_acquisition props)
  | None => True
  end.

(** The pairs such a link yields: for a link with properties, one pair per
    entry when the link is available and none otherwise; for a link without
    properties, its own type when that is a book or audiobook type. *)
Definition link_pairs (link : Link) : list (option string * option string) :=
  match properties link with
  | Some props =>
      if is_available props
      then map (fun entry => (acq_type (innermost_shallow entry),
                              entry_drm_scheme KNOWN_DRM_TYPES NO_DRM entry))
               (indirect_acquisition props)
      else []
  | None =>
      if opt_str_in (type link) BOOK_MEDIA_TYPES
         || opt_str_in (type link) AUDIOBOOK_MEDIA_TYPES
      then [(type link, NO_DRM)]
      else []
  end.

Lemma extract_types_shallow fuel link :
  shallow_link link -> extract_types (S fuel) link = Some (Ok (link_pairs link)).
Proof.
  unfold shallow_link, link_pairs, _extract_media_types_and_drm_scheme_from_link,
    is_available.
  destruct (properties link) as [props|]; [| by destruct (_ || _)].
  intros Hshallow.
  destruct (match availability props with
            | Some a => String.eqb (state a) AVAILABLE | None => true end);
    [| done].
  by rewrite (indirect_loop_shallow KNOWN_DRM_TYPES NO_DRM fuel _ [] (Hshallow eq_refl)).
Qed.

(** An entry two or more levels deep, after entries at most one level deep:
    the loop over the entries returns for no amount of fuel. *)
Lemma indirect_loop_deep fuel before entry inner others after acc :
  Forall shallow before ->
  acq_child entry = inner :: others -> acq_child inner ≠ [] ->
  indirect_loop KNOWN_DRM_TYPES NO_DRM fuel (before ++ entry :: after) acc = None.
Proof.
  intros Hbefore Hentry Hinner. revert acc.
  induction Hbefore as [|e before He _ IH]; intros acc.
  - cbn [app indirect_loop].
    by rewrite (nested_loop_diverges fuel entry inner others).
  - change ((e :: before) ++ entry :: after) with (e :: (before ++ entry :: after)).
    cbn [indirect_loop]. unfold shallow in He.
    destruct (acq_child e) as [|child rest] eqn:Hc.
    + rewrite nested_loop_leaf by done. apply IH.
    + destruct fuel as [|fuel'].
      * cbn [nested_loop]. by rewrite Hc.
      * rewrite (nested_loop_one_level fuel' e child rest) by done. apply IH.
Qed.

(** A link with such an entry: available, with properties. *)
Definition deep_link (link : Link) : Prop :=
  ∃ props before entry inner others after,
    properties link = Some props
    ∧ is_available props = true
    ∧ indirect_acquisition props = before ++ entry :: after
    ∧ Forall shallow before
    ∧ acq_child entry = inner :: others
    ∧ acq_child inner ≠ [].

Lemma extract_types_deep fuel link :
  deep_link link -> extract_types fuel link = None.
Proof.
  intros (props & before & entry & inner & others & after
          & Hprops & Hav & Hentries & Hbefore & Hentry & Hinner).
  unfold _extract_media_types_and_drm_scheme_from_link. rewrite Hprops.
  unfold is_available in Hav. rewrite Hav, Hentries.
  by eapply indirect_loop_deep.
Qed.

(** A link the medium loop looks at. *)
Definition considered (link : Link) : Prop :=
  rels link ≠ [] ∧ truthy (type link) = true
  ∧ _is_acquisition_link CIRCULATION_ALLOWED link = true.

Lemma considered_guard link :
  considered link ->
  (match rels link with [] => true | _ => false end)
  || negb (truthy (type link))
  || negb (_is_acquisition_link CIRCULATION_ALLOWED link) = false.
Proof.
  intros (Hr & Ht & Ha). rewrite Ht, Ha. by destruct (rels link).
Qed.

(** The media type the medium loop reads off a link. *)
Definition link_media_type (link : Link) : option string :=
  match first_or_default (link_pairs link) (Some (None, None)) with
  | Some (media_type, _) => media_type
  | None => None
  end.

(** A link that does not end the medium loop: passed over, or looked at
    and found to give no medium. *)
Definition gives_no_medium (link : Link) : Prop :=
  passed_over CIRCULATION_ALLOWED link
  ∨ (shallow_link link
     ∧ truthy (medium_from_media_type (link_media_type link)) = false).

Lemma medium_loop_first_match fuel before link after derived :
  Forall gives_no_medium before ->
  considered link -> shallow_link link ->
  truthy (medium_from_media_type (link_media_type link)) = true ->
  medium_loop (S fuel) (before ++ link :: after) derived
  = Some (Ok (medium_from_media_type (link_media_type link))).
Proof.
  intros Hbefore Hcons Hshallow Hmedium. revert derived.
  induction Hbefore as [|l before Hl _ IH]; intros derived.
  - cbn [app OPDS2Importer.medium_loop].
    rewrite considered_guard by done.
    rewrite extract_types_shallow by done.
    fold (link_media_type link). by rewrite Hmedium.
  - change ((l :: before) ++ link :: after) with (l :: (before ++ link :: after)).
    cbn [OPDS2Importer.medium_loop].
    destruct ((match rels l with [] => true | _ => false end)
              || negb (truthy (type l))
              || negb (_is_acquisition_link CIRCULATION_ALLOWED l)) eqn:Hguard;
      [apply IH |].
    destruct Hl as [Hpass | [Hsh Hno]].
    + exfalso. destruct Hpass as [Hr | [Ht | Ha]].
      * by rewrite Hr in Hguard.
      * rewrite Ht in Hguard. simpl in Hguard. by rewrite orb_true_r in Hguard.
      * rewrite Ha in Hguard. simpl in Hguard. by rewrite !orb_true_r in Hguard.
    + rewrite extract_types_shallow by done.
      fold (link_media_type l). rewrite Hno. apply IH.
Qed.

Lemma medium_loop_blocked fuel before link after derived :
  Forall (passed_over CIRCULATION_ALLOWED) before ->
  considered link -> deep_link link ->
  medium_loop fuel (before ++ link :: after) derived = None.
Proof.
  intros Hbefore Hcons Hdeep. revert derived.
  induction Hbefore as [|l before Hl _ IH]; intros derived.
  - cbn [app OPDS2Importer.medium_loop].
    rewrite considered_guard by done.
    by rewrite extract_types_deep.
  - change ((l :: before) ++ link :: after) with (l :: (before ++ link :: after)).
    cbn [OPDS2Importer.medium_loop].
    destruct Hl as [Hr | [Ht | Ha]].
    + rewrite Hr. apply IH.
    + rewrite Ht. simpl. rewrite orb_true_r. apply IH.
    + rewrite Ha. simpl. rewrite !orb_true_r. apply IH.
Qed.

End ShallowLinks.

(** ** Extraction of one publication *)

Module PublicationMetadata.

Section Extract.

Import OPDS2Importer.

Variable CIRCULATION_ALLOWED : list string.
Variable KNOWN_DRM_TYPES : list string.
Variable NO_DRM : option string.
Variable BOOK_MEDIA_TYPES : list string.
Variable AUDIOBOOK_MEDIA_TYPES : list string.
Variable IMAGE : string.
Variable THUMBNAIL_IMAGE : string.
Variable DESCRIPTION : string.
Variable TEXT_PLAIN : string.
Variable default_rights_uri : string.
Variable AVAILABLE : string.
Variable medium_from_media_type : option string -> option string.
Variable additional_type_to_medium : gmap string string.
Variable has_netloc : option string -> bool.
Variable urljoin : string -> option string -> option string.
Variable OPEN_ACCESS_DOWNLOAD : string.
Variable REPRESENTATION_BOOK_MEDIA_TYPES : list string.
Variable OPEN_ACCESS : list string.

(** [OPDSFeed.NO_TITLE] and [OPDS2LinkRelationsRegistry.SELF.key]. *)
Variable NO_TITLE : string.
Variable SELF : string.

(** [feed.links.get_by_rel(rel)] of the parser library. *)
Variable get_by_rel : list Link -> string -> list Link.

(** [OPDSImporter._parse_identifier]. *)
Variable _parse_identifier : option string -> option Identifier.

(** [_extract_publication_metadata(feed, publication, data_source_name)],
    in the order of its statements: title, medium, the feed's self URL,
    links, identifier, formats.  The record keeps the fields of [Metadata]
    modelled here; subtitle, language, publisher, imprint, subjects and
    contributors are copied from the publication and raise nothing. *)
Definition _extract_publication_metadata (fuel : nat) (feed : Feed)
    (publication : Publication) : outcome Metadata :=
  let title :=
    if bool_decide (pm_title (metadata publication) = Some NO_TITLE) then None
    else pm_title (metadata publication) in
  match _extract_medium_from_links CIRCULATION_ALLOWED KNOWN_DRM_TYPES NO_DRM
          BOOK_MEDIA_TYPES AUDIOBOOK_MEDIA_TYPES AVAILABLE medium_from_media_type
          fuel (links publication) with
  | None => None
  | Some (Raise e) => Some (Raise e)
  | Some (Ok derived_medium) =>
      let medium := _extract_medium additional_type_to_medium publication
                      derived_medium in
      match first_or_default (get_by_rel (feed_links feed) SELF) None with
      | None => Some (Raise AttributeError)
      | Some self_link =>
          let feed_self_url := href self_link in
          let link_data := _extract_links IMAGE THUMBNAIL_IMAGE DESCRIPTION TEXT_PLAIN
                         default_rights_uri has_netloc urljoin publication
                         feed_self_url in
          match _extract_identifier _parse_identifier publication with
          | None => Some (Raise AttributeError)
          | Some ident =>
              match _find_formats_in_non_open_access_acquisition_links
                      CIRCULATION_ALLOWED KNOWN_DRM_TYPES NO_DRM BOOK_MEDIA_TYPES
                      AUDIOBOOK_MEDIA_TYPES AVAILABLE OPEN_ACCESS_DOWNLOAD
                      REPRESENTATION_BOOK_MEDIA_TYPES OPEN_ACCESS fuel
                      (links publication) link_data default_rights_uri with
              | None => None
              | Some (Raise e) => Some (Raise e)
              | Some (Ok formats) =>
                  Some (Ok (mkMetadata ident title medium link_data formats))
              end
          end
      end
  end.

End Extract.

End PublicationMetadata.

Section PublicationFacts.

Import OPDS2Importer.

Variable CIRCULATION_ALLOWED : list string.
Variable KNOWN_DRM_TYPES : list string.
Variable NO_DRM : option string.
Variable BOOK_MEDIA_TYPES : list string.
Variable AUDIOBOOK_MEDIA_TYPES : list string.
Variable IMAGE : string.
Variable THUMBNAIL_IMAGE : string.
Variable DESCRIPTION : string.
Variable TEXT_PLAIN : string.
Variable default_rights_uri : string.
Variable AVAILABLE : string.
Variable medium_from_media_type : option string -> option string.
Variable additional_type_to_medium : gmap string string.
Variable has_netloc : option string -> bool.
Variable urljoin : string -> option string -> option string.
Variable OPEN_ACCESS_DOWNLOAD : string.
Variable REPRESENTATION_BOOK_MEDIA_TYPES : list string.
Variable OPEN_ACCESS : list string.

Local Abbreviation extract_link :=
  (_extract_link default_rights_uri has_netloc urljoin).
Local Abbreviation extract_links :=
  (_extract_links IMAGE THUMBNAIL_IMAGE DESCRIPTION TEXT_PLAIN default_rights_uri
     has_netloc urljoin).
Local Abbreviation is_open_access :=
  (_is_open_access_link_ OPEN_ACCESS_DOWNLOAD REPRESENTATION_BOOK_MEDIA_TYPES
     OPEN_ACCESS).
Local Abbreviation formats_loop :=
  (formats_loop CIRCULATION_ALLOWED KNOWN_DRM_TYPES NO_DRM BOOK_MEDIA_TYPES
     AUDIOBOOK_MEDIA_TYPES AVAILABLE OPEN_ACCESS_DOWNLOAD
     REPRESENTATION_BOOK_MEDIA_TYPES OPEN_ACCESS).
Local Abbreviation medium_loop :=
  (medium_loop CIRCULATION_ALLOWED KNOWN_DRM_TYPES NO_DRM BOOK_MEDIA_TYPES
     AUDIOBOOK_MEDIA_TYPES AVAILABLE medium_from_media_type).
Local Abbreviation link_pairs :=
  (link_pairs KNOWN_DRM_TYPES NO_DRM BOOK_MEDIA_TYPES AUDIOBOOK_MEDIA_TYPES AVAILABLE).
Local Abbreviation shallow_link := (shallow_link AVAILABLE).

Lemma zip_with_own_image {A B : Type} (f : A -> B) (l : list A) (rest : list B) :
  zip l (map f l ++ rest) = map (fun x => (x, f x)) l.
Proof. induction l as [|x l IH]; simpl; [done | by rewrite IH]. Qed.

(** The links extracted from a publication start with one [LinkData] per
    publication link, in order; the description and image links follow. *)
Lemma extract_links_shape pub feed_self_url :
  extract_links pub feed_self_url
  = map (fun link => extract_link link feed_self_url None) (links pub)
    ++ (match _extract_description_link DESCRIPTION TEXT_PLAIN pub with
        | Some description_link => [description_link]
        | None => []
        end
        ++ _extract_image_links IMAGE THUMBNAIL_IMAGE default_rights_uri has_netloc
             urljoin pub feed_self_url).
Proof.
  unfold _extract_links.
  destruct (_extract_description_link DESCRIPTION TEXT_PLAIN pub);
    by rewrite <- ?app_assoc.
Qed.

Lemma extract_links_zip pub feed_self_url :
  zip (links pub) (extract_links pub feed_self_url)
  = map (fun link => (link, extract_link link feed_self_url None)) (links pub).
Proof. rewrite extract_links_shape. apply zip_with_own_image. Qed.

(** The formats one pair of the loop contributes. *)
Definition pair_formats (rights_uri : string) (pair : Link * LinkData)
  : list FormatData :=
  if _is_acquisition_link CIRCULATION_ALLOWED pair.1
     && negb (is_open_access pair.2 rights_uri)
  then map (fun '(content_type, drm_scheme) =>
              mkFormatData content_type drm_scheme pair.2 rights_uri)
           (link_pairs pair.1)
  else [].

Lemma formats_loop_shallow fuel pairs rights_uri formats :
  Forall (fun pair => shallow_link pair.1) pairs ->
  formats_loop (S fuel) pairs rights_uri formats
  = Some (Ok (formats ++ concat (map (pair_formats rights_uri) pairs))).
Proof.
  intros Hall. revert formats.
  induction Hall as [|[ast_link parsed_link] pairs Hpair _ IH]; intros formats.
  - simpl. by rewrite app_nil_r.
  - cbn [OPDS2Importer.formats_loop map concat]. unfold pair_formats at 1. simpl.
    destruct (_is_acquisition_link CIRCULATION_ALLOWED ast_link); simpl;
      [| apply IH].
    destruct (is_open_access parsed_link rights_uri); simpl; [apply IH |].
    rewrite (extract_types_shallow KNOWN_DRM_TYPES NO_DRM BOOK_MEDIA_TYPES
               AUDIOBOOK_MEDIA_TYPES AVAILABLE fuel ast_link Hpair).
    by rewrite IH, <- app_assoc.
Qed.

Lemma medium_loop_shallow_returns fuel links derived :
  Forall shallow_link links ->
  ∃ medium, medium_loop (S fuel) links derived = Some (Ok medium).
Proof.
  intros Hall. revert derived.
  induction Hall as [|link links Hlink _ IH]; intros derived; [by eexists |].
  cbn [OPDS2Importer.medium_loop].
  destruct (_ || _ || _); [apply IH |].
  rewrite (extract_types_shallow KNOWN_DRM_TYPES NO_DRM BOOK_MEDIA_TYPES
             AUDIOBOOK_MEDIA_TYPES AVAILABLE fuel link Hlink).
  destruct (truthy _); [by eexists | apply IH].
Qed.

End PublicationFacts.

(** Sample values of the constants, for the examples below. *)
Definition acquisition_rel : string := "http://opds-spec.org/acquisition".
Definition adobe_drm : string := "application/vnd.adobe.adept+xml".
Definition epub_type : string := "application/epub+zip".

Definition sample_circulation_allowed : list string :=
  [acquisition_rel; "http://opds-spec.org/acquisition/open-access";
   "http://opds-spec.org/acquisition/borrow"].
Definition sample_known_drm : list string := [adobe_drm].
Definition sample_book_types : list string := [epub_type; "application/pdf"].
Definition sample_audiobook_types : list string := ["application/audiobook+json"].

Definition sample_medium_from_media_type (media_type : option string) : option string :=
  if opt_str_in media_type sample_book_types then Some "Book"
  else if opt_str_in media_type sample_audiobook_types then Some "Audio"
  else None.

(** An Adobe-protected EPUB: the entry names the DRM, its child the format. *)
Definition adobe_entry : AcquisitionObject :=
  mkAcquisition (Some adobe_drm) [mkAcquisition (Some epub_type) []].

Definition adobe_link (availability_state : string) : Link :=
  mkLink [acquisition_rel] (Some adobe_drm) (Some "/books/1.acsm")
    (Some (mkLinkProperties (Some (mkAvailability availability_state)) [adobe_entry]))
    None None.

Definition html_link : Link :=
  mkLink ["alternate"] (Some "text/html") (Some "/books/1.html") None None None.

Definition self_link : Link :=
  mkLink ["self"] (Some "application/opds+json")
    (Some "http://feed.example/catalog") None None None.

(** X1. A link with properties that is available (no availability, or state
    "available") and whose indirect-acquisition entries are at most one
    level deep yields, with one unit of fuel, one pair per entry in order:
    the type of the entry's first child, or of the entry itself when it has
    none, with the entry's own type as DRM scheme when that is a known DRM
    type and the no-DRM value otherwise. *)
Theorem available_link_yields_one_pair_per_entry
    (KNOWN_DRM_TYPES : list string) (NO_DRM : option string)
    (BOOK_MEDIA_TYPES AUDIOBOOK_MEDIA_TYPES : list string) (AVAILABLE : string)
    (fuel : nat) (link : Link) (props : LinkProperties) :
  properties link = Some props ->
  is_available AVAILABLE props = true ->
  Forall shallow (indirect_acquisition props) ->
  OPDS2Importer._extract_media_types_and_drm_scheme_from_link KNOWN_DRM_TYPES
    NO_DRM BOOK_MEDIA_TYPES AUDIOBOOK_MEDIA_TYPES AVAILABLE (S fuel) link
  = Some (Ok (map (fun entry =>
                     (acq_type (innermost_shallow entry),
                      if opt_str_in (acq_type entry) KNOWN_DRM_TYPES
                      then acq_type entry else NO_DRM))
                  (indirect_acquisition props))).
Proof.
  intros Hprops Hav Hshallow.
  rewrite extract_types_shallow.
  - unfold link_pairs. by rewrite Hprops, Hav.
  - unfold shallow_link. by rewrite Hprops.
Qed.

Lemma available_link_yields_one_pair_per_entry_witness :
  OPDS2Importer._extract_media_types_and_drm_scheme_from_link sample_known_drm
    None sample_book_types sample_audiobook_types "available" 1
    (adobe_link "available")
  = Some (Ok [(Some epub_type, Some adobe_drm)]).
Proof.
  apply (available_link_yields_one_pair_per_entry sample_known_drm None
           sample_book_types sample_audiobook_types "available" 0
           (adobe_link "available")
           (mkLinkProperties (Some (mkAvailability "available")) [adobe_entry])).
  - reflexivity.
  - reflexivity.
  - repeat constructor.
Defined.

(** X2. A link whose properties declare an availability state other than
    "available" yields no pair, for every amount of fuel and whatever its
    entries are: the loop over the entries is not entered, so entries nested
    two levels deep do no harm here. *)
Theorem unavailable_link_is_never_scanned
    (KNOWN_DRM_TYPES : list string) (NO_DRM : option string)
    (BOOK_MEDIA_TYPES AUDIOBOOK_MEDIA_TYPES : list string) (AVAILABLE : string)
    (fuel : nat) (link : Link) (props : LinkProperties) (a : Availability) :
  properties link = Some props ->
  availability props = Some a ->
  state a ≠ AVAILABLE ->
  OPDS2Importer._extract_media_types_and_drm_scheme_from_link KNOWN_DRM_TYPES
    NO_DRM BOOK_MEDIA_TYPES AUDIOBOOK_MEDIA_TYPES AVAILABLE fuel link
  = Some (Ok []).
Proof. apply unavailable_link_yields_nothing. Qed.

Lemma unavailable_link_is_never_scanned_witness :
  OPDS2Importer._extract_media_types_and_drm_scheme_from_link sample_known_drm
    None sample_book_types sample_audiobook_types "available" 0
    (mkLink [acquisition_rel] (Some adobe_drm) (Some "/books/2.acsm")
       (Some (mkLinkProperties (Some (mkAvailability "unavailable"))
                [two_level_entry])) None None)
  = Some (Ok []).
Proof.
  apply (unavailable_link_is_never_scanned sample_known_drm None sample_book_types
           sample_audiobook_types "available" 0 _
           (mkLinkProperties (Some (mkAvailability "unavailable")) [two_level_entry])
           (mkAvailability "unavailable")).
  - reflexivity.
  - reflexivity.
  - discriminate.
Defined.

(** A member of a concatenation of images lies in the image of a member. *)
Lemma elem_of_concat_map {A B : Type} (f : A -> list B) (l : list A) (y : B) :
  y ∈ concat (map f l) -> ∃ x, x ∈ l ∧ y ∈ f x.
Proof.
  induction l as [|x l IH]; simpl; [by intros Hy; inversion Hy |].
  rewrite elem_of_app. intros [Hy | Hy].
  - exists x. split; [left | done].
  - destruct (IH Hy) as (x' & Hx' & Hy'). exists x'. split; [by right | done].
Qed.

Section PublicationTheorems.

Variable CIRCULATION_ALLOWED : list string.
Variable KNOWN_DRM_TYPES : list string.
Variable NO_DRM : option string.
Variable BOOK_MEDIA_TYPES : list string.
Variable AUDIOBOOK_MEDIA_TYPES : list string.
Variable IMAGE : string.
Variable THUMBNAIL_IMAGE : string.
Variable DESCRIPTION : string.
Variable TEXT_PLAIN : string.
Variable default_rights_uri : string.
Variable AVAILABLE : string.
Variable medium_from_media_type : option string -> option string.
Variable additional_type_to_medium : gmap string string.
Variable has_netloc : option string -> bool.
Variable urljoin : string -> option string -> option string.
Variable OPEN_ACCESS_DOWNLOAD : string.
Variable REPRESENTATION_BOOK_MEDIA_TYPES : list string.
Variable OPEN_ACCESS : list string.
Variable NO_TITLE : string.
Variable SELF : string.
Variable get_by_rel : list Link -> string -> list Link.
Variable _parse_identifier : option string -> option Identifier.

Local Abbreviation extract_metadata :=
  (PublicationMetadata._extract_publication_metadata CIRCULATION_ALLOWED
     KNOWN_DRM_TYPES NO_DRM BOOK_MEDIA_TYPES AUDIOBOOK_MEDIA_TYPES IMAGE
     THUMBNAIL_IMAGE DESCRIPTION TEXT_PLAIN default_rights_uri AVAILABLE
     medium_from_media_type additional_type_to_medium has_netloc urljoin
     OPEN_ACCESS_DOWNLOAD REPRESENTATION_BOOK_MEDIA_TYPES OPEN_ACCESS NO_TITLE SELF
     get_by_rel _parse_identifier).
Local Abbreviation extract_medium_from_links :=
  (OPDS2Importer._extract_medium_from_links CIRCULATION_ALLOWED KNOWN_DRM_TYPES
     NO_DRM BOOK_MEDIA_TYPES AUDIOBOOK_MEDIA_TYPES AVAILABLE medium_from_media_type).
Local Abbreviation publication_medium :=
  (OPDS2Importer.publication_medium CIRCULATION_ALLOWED KNOWN_DRM_TYPES NO_DRM
     BOOK_MEDIA_TYPES AUDIOBOOK_MEDIA_TYPES AVAILABLE medium_from_media_type
     additional_type_to_medium).
Local Abbreviation find_formats :=
  (OPDS2Importer._find_formats_in_non_open_access_acquisition_links
     CIRCULATION_ALLOWED KNOWN_DRM_TYPES NO_DRM BOOK_MEDIA_TYPES
     AUDIOBOOK_MEDIA_TYPES AVAILABLE OPEN_ACCESS_DOWNLOAD
     REPRESENTATION_BOOK_MEDIA_TYPES OPEN_ACCESS).
Local Abbreviation extract_link :=
  (OPDS2Importer._extract_link default_rights_uri has_netloc urljoin).
Local Abbreviation extract_links :=
  (OPDS2Importer._extract_links IMAGE THUMBNAIL_IMAGE DESCRIPTION TEXT_PLAIN
     default_rights_uri has_netloc urljoin).
Local Abbreviation is_open_access :=
  (OPDS2Importer._is_open_access_link_ OPEN_ACCESS_DOWNLOAD
     REPRESENTATION_BOOK_MEDIA_TYPES OPEN_ACCESS).
Local Abbreviation formats_of_pair :=
  (pair_formats CIRCULATION_ALLOWED KNOWN_DRM_TYPES NO_DRM BOOK_MEDIA_TYPES
     AUDIOBOOK_MEDIA_TYPES AVAILABLE OPEN_ACCESS_DOWNLOAD
     REPRESENTATION_BOOK_MEDIA_TYPES OPEN_ACCESS).
Local Abbreviation media_type_of :=
  (link_media_type KNOWN_DRM_TYPES NO_DRM BOOK_MEDIA_TYPES AUDIOBOOK_MEDIA_TYPES
     AVAILABLE).
Local Abbreviation no_medium :=
  (gives_no_medium CIRCULATION_ALLOWED KNOWN_DRM_TYPES NO_DRM BOOK_MEDIA_TYPES
     AUDIOBOOK_MEDIA_TYPES AVAILABLE medium_from_media_type).

(** X3. A publication with an available acquisition link (with relations
    and a type) that has an indirect-acquisition entry nested two or more
    levels deep, all links before it being passed over by the medium loop:
    [_extract_publication_metadata] returns for no amount of fuel, because
    the medium derivation already runs into the loop that never ends. *)
Theorem deep_link_blocks_publication fuel feed pub before link after :
  links pub = before ++ link :: after ->
  Forall (passed_over CIRCULATION_ALLOWED) before ->
  considered CIRCULATION_ALLOWED link ->
  deep_link AVAILABLE link ->
  extract_metadata fuel feed pub = None.
Proof.
  intros Hlinks Hbefore Hcons Hdeep.
  unfold PublicationMetadata._extract_publication_metadata,
    OPDS2Importer._extract_medium_from_links.
  rewrite Hlinks.
  by rewrite (medium_loop_blocked CIRCULATION_ALLOWED KNOWN_DRM_TYPES NO_DRM
                BOOK_MEDIA_TYPES AUDIOBOOK_MEDIA_TYPES AVAILABLE
                medium_from_media_type fuel before link after None).
Qed.

(** X4. The medium derived from the links is that of the first link, in
    feed order, that the loop looks at (relations, a type, an acquisition
    relation) and whose first media type maps to a medium; links before it
    that are passed over or map to no medium do not matter, nor do the links
    after it.  For a publication without declared type this is the extracted
    medium. *)
Theorem medium_comes_from_first_yielding_link fuel pub before link after :
  links pub = before ++ link :: after ->
  Forall no_medium before ->
  considered CIRCULATION_ALLOWED link ->
  shallow_link AVAILABLE link ->
  truthy (medium_from_media_type (media_type_of link)) = true ->
  extract_medium_from_links (S fuel) (links pub)
  = Some (Ok (medium_from_media_type (media_type_of link)))
  ∧ (truthy (pm_type (metadata pub)) = false ->
     publication_medium (S fuel) pub
     = Some (Ok (medium_from_media_type (media_type_of link)))).
Proof.
  intros Hlinks Hbefore Hcons Hshallow Hmedium.
  assert (Hderived : extract_medium_from_links (S fuel) (links pub)
                     = Some (Ok (medium_from_media_type (media_type_of link)))).
  { unfold OPDS2Importer._extract_medium_from_links. rewrite Hlinks.
    by apply medium_loop_first_match. }
  split; [done |]. intros Htype.
  unfold OPDS2Importer.publication_medium. rewrite Hderived.
  by rewrite no_declared_type.
Qed.

(** X5. When every link is at most one level deep,
    [_find_formats_in_non_open_access_acquisition_links] returns, and every
    [FormatData] it returns carries the rights URI given and the [LinkData]
    paired with an acquisition link that is not open-access; links that are
    no acquisition links, and open-access links, contribute nothing. *)
Theorem formats_come_from_closed_acquisition_links fuel ast_link_list
    link_data_list rights_uri :
  Forall (shallow_link AVAILABLE) ast_link_list ->
  ∃ formats,
    find_formats (S fuel) ast_link_list link_data_list rights_uri
    = Some (Ok formats)
    ∧ ∀ format, format ∈ formats ->
        fd_rights_uri format = rights_uri
        ∧ ∃ ast_link,
            (ast_link, fd_link format) ∈ zip ast_link_list link_data_list
            ∧ OPDS2Importer._is_acquisition_link CIRCULATION_ALLOWED ast_link = true
            ∧ is_open_access (fd_link format) rights_uri = false.
Proof.
  intros Hshallow. eexists. split.
  - unfold OPDS2Importer._find_formats_in_non_open_access_acquisition_links.
    rewrite formats_loop_shallow; [done |].
    apply Forall_forall. intros [ast parsed] Hin.
    apply elem_of_zip_l in Hin. rewrite Forall_forall in Hshallow.
    by apply Hshallow.
  - intros format Hin. simpl in Hin.
    apply elem_of_concat_map in Hin as ([ast parsed] & Hpair & Hformat).
    unfold pair_formats in Hformat. simpl in Hformat.
    destruct (OPDS2Importer._is_acquisition_link CIRCULATION_ALLOWED ast) eqn:Hacq;
      [| by inversion Hformat].
    destruct (is_open_access parsed rights_uri) eqn:Hopen; [by inversion Hformat |].
    simpl in Hformat.
    apply list_elem_of_fmap in Hformat as ([content_type drm] & -> & _). simpl.
    split; [done |]. by exists ast.
Qed.

(** X6. A feed without a link of relation "self": for a publication whose
    links are at most one level deep, [_extract_publication_metadata] raises
    [AttributeError] (the self URL is read off [None]), whatever the
    publication holds. *)
Theorem publication_of_feed_without_self_link_raises fuel feed pub :
  Forall (shallow_link AVAILABLE) (links pub) ->
  get_by_rel (feed_links feed) SELF = [] ->
  extract_metadata (S fuel) feed pub = Some (Raise AttributeError).
Proof.
  intros Hshallow Hself.
  unfold PublicationMetadata._extract_publication_metadata,
    OPDS2Importer._extract_medium_from_links.
  destruct (medium_loop_shallow_returns CIRCULATION_ALLOWED KNOWN_DRM_TYPES NO_DRM
              BOOK_MEDIA_TYPES AUDIOBOOK_MEDIA_TYPES AVAILABLE
              medium_from_media_type fuel (links pub) None Hshallow)
    as [medium Hmedium].
  by rewrite Hmedium, Hself.
Qed.

(** X7. A publication of a feed with a self link, with a recognized
    identifier and links at most one level deep, is extracted: its links are
    those of [_extract_links] against the href of the first self link, and
    its formats are those of the publication's own links, each format
    carrying the [LinkData] extracted from the link it was found in; a
    title equal to the no-title placeholder comes out as absent. *)
Theorem publication_is_extracted fuel feed pub first_self others ident :
  Forall (shallow_link AVAILABLE) (links pub) ->
  get_by_rel (feed_links feed) SELF = first_self :: others ->
  _parse_identifier (pm_identifier (metadata pub)) = Some ident ->
  ∃ md,
    extract_metadata (S fuel) feed pub = Some (Ok md)
    ∧ md_primary_identifier md = ident
    ∧ md_title md
      = (if bool_decide (pm_title (metadata pub) = Some NO_TITLE) then None
         else pm_title (metadata pub))
    ∧ md_links md = extract_links pub (href first_self)
    ∧ md_formats md
      = concat (map (fun link =>
                       formats_of_pair default_rights_uri
                         (link, extract_link link (href first_self) None))
                    (links pub)).
Proof.
  intros Hshallow Hself Hident.
  unfold PublicationMetadata._extract_publication_metadata,
    OPDS2Importer._extract_medium_from_links.
  destruct (medium_loop_shallow_returns CIRCULATION_ALLOWED KNOWN_DRM_TYPES NO_DRM
              BOOK_MEDIA_TYPES AUDIOBOOK_MEDIA_TYPES AVAILABLE
              medium_from_media_type fuel (links pub) None Hshallow)
    as [medium Hmedium].
  rewrite Hmedium, Hself. simpl.
  unfold OPDS2Importer._extract_identifier. rewrite Hident.
  unfold OPDS2Importer._find_formats_in_non_open_access_acquisition_links.
  rewrite extract_links_zip.
  rewrite formats_loop_shallow.
  - eexists. split; [done |]. simpl. repeat split; try done.
    by rewrite map_map.
  - apply Forall_forall. intros pair Hin.
    apply list_elem_of_fmap in Hin as (link & -> & Hlink). simpl.
    rewrite Forall_forall in Hshallow. by apply Hshallow.
Qed.

End PublicationTheorems.

(** Further sample values: relations, media types, and the collaborators of
    the extraction for a feed at http://feed.example whose links carry
    absolute paths. *)
Definition sample_additional_types : gmap string string :=
  <["http://schema.org/Audiobook" := "Audio"]>
    (<["http://schema.org/EBook" := "Book"]> ∅).

Definition sample_has_netloc (h : option string) : bool :=
  match h with
  | Some s => String.prefix "http://" s || String.prefix "https://" s
  | None => false
  end.

Definition sample_urljoin (base : string) (h : option string) : option string :=
  match h with
  | Some path => Some ("http://feed.example" +:+ path)
  | None => Some base
  end.

Definition sample_get_by_rel (links : list Link) (rel : string) : list Link :=
  filter (fun link => rel ∈ rels link) links.

Definition sample_extract_metadata
  : nat -> Feed -> Publication -> outcome Metadata :=
  PublicationMetadata._extract_publication_metadata sample_circulation_allowed
    sample_known_drm None sample_book_types sample_audiobook_types
    "http://opds-spec.org/image" "http://opds-spec.org/image/thumbnail"
    "http://schema.org/description" "text/plain"
    "http://librarysimplified.org/terms/rights-status/unknown" "available"
    sample_medium_from_media_type sample_additional_types sample_has_netloc
    sample_urljoin "http://opds-spec.org/acquisition/open-access"
    sample_book_types ["http://creativecommons.org/publicdomain/zero/1.0/"]
    "NO TITLE" "self" sample_get_by_rel sample_parse.

Definition sample_feed_of (feed_links : list Link) (pub : Publication) : Feed :=
  mkFeed feed_links [pub] [].

(** A publication with a web page and an Adobe-protected EPUB ... *)
Definition adobe_publication : Publication :=
  mkPublication
    (mkPublicationMetadata (Some "urn:uuid:7") (Some "NO TITLE") None None None None)
    [html_link; adobe_link "available"] None.

(** ... and one whose acquisition link is nested two levels deep. *)
Definition blocked_publication : Publication :=
  mkPublication
    (mkPublicationMetadata (Some "urn:uuid:8") (Some "Eight") None None None None)
    [html_link; two_level_link] None.

Lemma deep_link_blocks_publication_witness :
  sample_extract_metadata 1000 (sample_feed_of [self_link] blocked_publication)
    blocked_publication = None.
Proof.
  apply (deep_link_blocks_publication sample_circulation_allowed sample_known_drm
           None sample_book_types sample_audiobook_types _ _ _ _ _ "available"
           sample_medium_from_media_type sample_additional_types _ _ _ _ _ _ _ _ _
           1000 _ blocked_publication [html_link] two_level_link []).
  - reflexivity.
  - apply Forall_cons_2; [right; right; reflexivity | constructor].
  - repeat split; first [discriminate | reflexivity].
  - exists (mkLinkProperties None [two_level_entry]), [], two_level_entry,
      (mkAcquisition (Some "application/zip")
         [mkAcquisition (Some "application/epub+zip") []]),
      [], [].
    repeat split; [constructor | discriminate].
Defined.

Lemma medium_comes_from_first_yielding_link_witness :
  OPDS2Importer._extract_medium_from_links sample_circulation_allowed
    sample_known_drm None sample_book_types sample_audiobook_types "available"
    sample_medium_from_media_type 1 (links adobe_publication)
  = Some (Ok (Some "Book"))
  ∧ OPDS2Importer.publication_medium sample_circulation_allowed sample_known_drm
      None sample_book_types sample_audiobook_types "available"
      sample_medium_from_media_type sample_additional_types 1 adobe_publication
    = Some (Ok (Some "Book")).
Proof.
  destruct (medium_comes_from_first_yielding_link sample_circulation_allowed
              sample_known_drm None sample_book_types sample_audiobook_types
              "available" sample_medium_from_media_type sample_additional_types
              0 adobe_publication [html_link] (adobe_link "available") [])
    as [Hderived Hmedium].
  - reflexivity.
  - apply Forall_cons_2; [left; right; right; reflexivity | constructor].
  - repeat split; first [discriminate | reflexivity].
  - intros _. repeat constructor.
  - reflexivity.
  - split; [exact Hderived | exact (Hmedium eq_refl)].
Defined.

Lemma adobe_publication_links_shallow :
  Forall (shallow_link "available") (links adobe_publication).
Proof.
  apply Forall_cons_2; [exact I |].
  apply Forall_cons_2; [| constructor].
  intros _. repeat constructor.
Qed.

Lemma formats_come_from_closed_acquisition_links_witness :
  ∃ formats,
    OPDS2Importer._find_formats_in_non_open_access_acquisition_links
      sample_circulation_allowed sample_known_drm None sample_book_types
      sample_audiobook_types "available"
      "http://opds-spec.org/acquisition/open-access" sample_book_types
      ["http://creativecommons.org/publicdomain/zero/1.0/"] 1
      (links adobe_publication)
      (map (fun link =>
              OPDS2Importer._extract_link "rights" sample_has_netloc sample_urljoin
                link None None)
           (links adobe_publication))
      "rights"
    = Some (Ok formats)
    ∧ ∀ format, format ∈ formats -> fd_rights_uri format = "rights".
Proof.
  destruct (formats_come_from_closed_acquisition_links sample_circulation_allowed
              sample_known_drm None sample_book_types sample_audiobook_types
              "available" "http://opds-spec.org/acquisition/open-access"
              sample_book_types
              ["http://creativecommons.org/publicdomain/zero/1.0/"] 0
              (links adobe_publication)
              (map (fun link =>
                      OPDS2Importer._extract_link "rights" sample_has_netloc
                        sample_urljoin link None None)
                   (links adobe_publication))
              "rights" adobe_publication_links_shallow)
    as (formats & Hrun & Hall).
  exists formats. split; [exact Hrun |].
  intros format Hin. exact (proj1 (Hall format Hin)).
Defined.

Lemma publication_of_feed_without_self_link_raises_witness :
  sample_extract_metadata 1 (sample_feed_of [] adobe_publication) adobe_publication
  = Some (Raise AttributeError).
Proof.
  apply publication_of_feed_without_self_link_raises.
  - exact adobe_publication_links_shallow.
  - reflexivity.
Defined.

Lemma publication_is_extracted_witness :
  ∃ md,
    sample_extract_metadata 1 (sample_feed_of [self_link] adobe_publication)
      adobe_publication = Some (Ok md)
    ∧ md_primary_identifier md = mkIdentifier (Some "URI") (Some "urn:uuid:7")
    ∧ md_title md = None
    ∧ map ld_href (md_links md)
      = [Some "http://feed.example/books/1.html";
         Some "http://feed.example/books/1.acsm"]
    ∧ map (fun format => (content_type format, drm_scheme format, ld_href (fd_link format)))
          (md_formats md)
      = [(Some epub_type, Some adobe_drm, Some "http://feed.example/books/1.acsm")].
Proof.
  destruct (publication_is_extracted sample_circulation_allowed sample_known_drm
              None sample_book_types sample_audiobook_types
              "http://opds-spec.org/image" "http://opds-spec.org/image/thumbnail"
              "http://schema.org/description" "text/plain"
              "http://librarysimplified.org/terms/rights-status/unknown" "available"
              sample_medium_from_media_type sample_additional_types
              sample_has_netloc sample_urljoin
              "http://opds-spec.org/acquisition/open-access" sample_book_types
              ["http://creativecommons.org/publicdomain/zero/1.0/"] "NO TITLE"
              "self" sample_get_by_rel sample_parse 0
              (sample_feed_of [self_link] adobe_publication) adobe_publication
              self_link [] (mkIdentifier (Some "URI") (Some "urn:uuid:7"))
              adobe_publication_links_shallow eq_refl eq_refl)
    as (md & Hrun & Hident & Htitle & Hlinks & Hformats).
  exists md. split; [exact Hrun |]. split; [exact Hident |].
  rewrite Htitle, Hlinks, Hformats. by repeat split.
Defined.

(** ** More on the extraction of a feed page *)

Section FeedDataMore.

Import OPDS2Importer.

Variable data_source : string.
Variable parse : option string -> option Identifier.
Variable ignored : list string.
Variable extract : Feed -> Publication -> result Metadata.

Local Abbreviation importable := (importable parse ignored).
Local Abbreviation publications_loop := (publications_loop parse ignored extract).
Local Abbreviation errors_loop := (errors_loop data_source parse ignored).

(** The identifier under which the second loop records an error, if it
    records it. *)
Definition recorded_identifier (error : ParserError) : option Identifier :=
  match error_publication error with
  | Some pub =>
      match _extract_identifier parse pub with
      | Some ident => if _is_identifier_allowed ignored ident then Some ident else None
      | None => None
      end
  | None => None
  end.

Lemma publications_loop_app feed before after dict :
  publications_loop feed (before ++ after) dict
  = match publications_loop feed before dict with
    | Ok dict' => publications_loop feed after dict'
    | Raise e => Raise e
    end.
Proof.
  revert dict. induction before as [|p before IH]; intros dict; [done |].
  change ((p :: before) ++ after) with (p :: (before ++ after)).
  destruct (importable p) eqn:Hp.
  - rewrite !(publications_loop_take parse ignored extract) by done.
    destruct (extract feed p); [apply IH | done].
  - rewrite !(publications_loop_skip parse ignored extract) by done. apply IH.
Qed.

(** Publications the guard skips are never extracted. *)
Lemma publications_loop_all_skipped feed pubs dict :
  Forall (fun p => importable p = false) pubs ->
  publications_loop feed pubs dict = Ok dict.
Proof.
  induction 1 as [|p pubs Hp _ IH]; [done |].
  by rewrite (publications_loop_skip parse ignored extract).
Qed.

(** A key no publication of the list extracts to keeps its entry. *)
Lemma publications_loop_untouched feed pubs dict dict' k :
  (∀ p md, p ∈ pubs -> importable p = true -> extract feed p = Ok md ->
           identifier (md_primary_identifier md) ≠ k) ->
  publications_loop feed pubs dict = Ok dict' ->
  dict' !! k = dict !! k.
Proof.
  revert dict. induction pubs as [|p pubs IH]; intros dict Hother Hrun.
  - by injection Hrun as <-.
  - destruct (importable p) eqn:Hp.
    + rewrite (publications_loop_take parse ignored extract) in Hrun by done.
      destruct (extract feed p) as [md|e] eqn:Hex; [| done].
      rewrite (IH _ ltac:(intros q mq Hq; apply Hother; by right) Hrun).
      apply lookup_insert_ne. by apply (Hother p md ltac:(left)).
    + rewrite (publications_loop_skip parse ignored extract) in Hrun by done.
      apply (IH dict); [| done]. intros q mq Hq. apply Hother. by right.
Qed.

Lemma errors_loop_unrecorded error rest failures :
  recorded_identifier error = None ->
  errors_loop (error :: rest) failures = errors_loop rest failures.
Proof.
  unfold recorded_identifier. simpl.
  destruct (error_publication error) as [pub|]; [| done].
  destruct (_extract_identifier parse pub) as [ident|]; [| done].
  by destruct (_is_identifier_allowed ignored ident).
Qed.

Lemma errors_loop_recorded error rest (failures : Failures) ident :
  recorded_identifier error = Some ident ->
  errors_loop (error :: rest) failures
  = match _record_coverage_failure data_source failures ident
            (error_message error) true with
    | Ok r => errors_loop rest r.1
    | Raise e => Raise e
    end.
Proof.
  unfold recorded_identifier. simpl.
  destruct (error_publication error) as [pub|]; [| done].
  destruct (_extract_identifier parse pub) as [ident'|]; [| done].
  destruct (_is_identifier_allowed ignored ident'); [| done].
  by intros [= ->].
Qed.

Lemma errors_loop_all_unrecorded errs failures :
  Forall (fun error => recorded_identifier error = None) errs ->
  errors_loop errs failures = Ok failures.
Proof.
  induction 1 as [|error errs Herr _ IH]; [done |].
  by rewrite errors_loop_unrecorded.
Qed.

(** Every recorded error of the list has an identifier string. *)
Definition all_named (errs : list ParserError) : Prop :=
  ∀ error ident, error ∈ errs -> recorded_identifier error = Some ident ->
                 is_Some (identifier ident).

(** A key no error of the list is recorded under keeps its entry, and the
    loop returns. *)
Lemma errors_loop_untouched errs (failures : Failures) s :
  str_keyed failures -> all_named errs ->
  (∀ error ident, error ∈ errs -> recorded_identifier error = Some ident ->
                  identifier ident ≠ Some s) ->
  ∃ failures',
    errors_loop errs failures = Ok failures'
    ∧ str_keyed failures'
    ∧ failures' !! KStr s = failures !! KStr s.
Proof.
  revert failures. induction errs as [|error errs IH]; intros failures Hk Hnamed Hother.
  - by exists failures.
  - assert (Hnamed' : all_named errs)
      by (intros e i He; apply Hnamed; by right).
    assert (Hother' : ∀ e i, e ∈ errs -> recorded_identifier e = Some i ->
                             identifier i ≠ Some s)
      by (intros e i He; apply Hother; by right).
    destruct (recorded_identifier error) as [ident|] eqn:Hrec.
    + rewrite (errors_loop_recorded error errs failures ident Hrec).
      destruct (Hnamed error ident ltac:(left) Hrec) as [s' Hs'].
      rewrite (record_resets data_source failures ident s' _ true Hk Hs'). simpl.
      destruct (IH _ (record_keeps_str_keyed failures s'
                       [mkCoverageFailure ident (error_message error) data_source true]
                       Hk) Hnamed' Hother')
        as (failures' & Hrun & Hk' & Hsame).
      exists failures'. split; [done |]. split; [done |].
      rewrite Hsame. apply lookup_insert_ne.
      intros [= ->]. by apply (Hother error ident ltac:(left) Hrec).
    + rewrite errors_loop_unrecorded by done. by apply IH.
Qed.

Lemma errors_loop_app before after (failures : Failures) :
  errors_loop (before ++ after) failures
  = match errors_loop before failures with
    | Ok failures' => errors_loop after failures'
    | Raise e => Raise e
    end.
Proof.
  revert failures. induction before as [|error before IH]; intros failures; [done |].
  change ((error :: before) ++ after) with (error :: (before ++ after)).
  destruct (recorded_identifier error) as [ident|] eqn:Hrec.
  - rewrite !(errors_loop_recorded error _ failures ident Hrec).
    destruct (_record_coverage_failure _ _ _ _ _); [apply IH | done].
  - rewrite !errors_loop_unrecorded by done. apply IH.
Qed.

(** The errors before one are all recorded with an identifier string, or
    not recorded: the loop reaches that one with a string-keyed mapping. *)
Lemma errors_loop_named_returns errs (failures : Failures) :
  str_keyed failures -> all_named errs ->
  ∃ failures', errors_loop errs failures = Ok failures' ∧ str_keyed failures'.
Proof.
  revert failures. induction errs as [|error errs IH]; intros failures Hk Hnamed.
  - by exists failures.
  - assert (Hnamed' : all_named errs)
      by (intros e i He; apply Hnamed; by right).
    destruct (recorded_identifier error) as [ident|] eqn:Hrec.
    + rewrite (errors_loop_recorded error errs failures ident Hrec).
      destruct (Hnamed error ident ltac:(left) Hrec) as [s' Hs'].
      rewrite (record_resets data_source failures ident s' _ true Hk Hs'). simpl.
      apply IH; [by apply record_keeps_str_keyed | done].
    + rewrite errors_loop_unrecorded by done. by apply IH.
Qed.

End FeedDataMore.

Section FeedDataTheorems.

Variable data_source : string.
Variable parse : option string -> option Identifier.
Variable ignored : list string.
Variable extract : Feed -> Publication -> result Metadata.
Variable parser_result : ManifestParserResult.

Local Abbreviation importable := (OPDS2Importer.importable parse ignored).
Local Abbreviation feed := (root parser_result).
Local Abbreviation pubs := (OPDS2Importer._get_publications (root parser_result)).
Local Abbreviation run :=
  (OPDS2Importer.extract_feed_data data_source parse ignored extract parser_result).
Local Abbreviation recorded := (recorded_identifier parse ignored).

(** No extraction of a publication of the page raises. *)
Definition extraction_succeeds : Prop :=
  ∀ p, p ∈ pubs -> importable p = true -> is_ok (extract feed p) = true.

(** X8. When no publication of the page has a recognized, allowed
    identifier, and no parser error lies in such a publication,
    [extract_feed_data] extracts nothing and records nothing: it returns two
    empty mappings, whatever extraction would do (raise included). *)
Theorem unimportable_publications_are_never_extracted :
  Forall (fun p => importable p = false) pubs ->
  Forall (fun error => recorded error = None) (errors parser_result) ->
  run = Ok (∅, ∅).
Proof.
  intros Hpubs Herrs. unfold OPDS2Importer.extract_feed_data.
  rewrite (publications_loop_all_skipped parse ignored extract) by done. simpl.
  by rewrite (errors_loop_all_unrecorded data_source parse ignored).
Qed.

(** X9. When two publications of a page extract to the same identifier
    string, the later one's metadata is the one returned: the dictionary
    holds, under the identifier string of a publication's metadata, that
    metadata, provided no publication after it extracts to the same
    string. *)
Theorem later_publication_replaces_earlier before pub after md :
  pubs = before ++ pub :: after ->
  extraction_succeeds ->
  all_named parse ignored (errors parser_result) ->
  importable pub = true ->
  extract feed pub = Ok md ->
  (∀ p md', p ∈ after -> importable p = true -> extract feed p = Ok md' ->
            identifier (md_primary_identifier md')
            ≠ identifier (md_primary_identifier md)) ->
  ∃ dict failures,
    run = Ok (dict, failures)
    ∧ dict !! identifier (md_primary_identifier md) = Some md.
Proof.
  intros Hpubs Hok Hnamed Himp Hmd Hafter.
  unfold extraction_succeeds in Hok. rewrite Hpubs in Hok.
  unfold OPDS2Importer.extract_feed_data. rewrite Hpubs.
  rewrite (publications_loop_app parse ignored extract).
  destruct (publications_loop_returns parse ignored extract feed before ∅)
    as (dict1 & Hrun1 & _ & _).
  { intros p Hp. apply Hok. apply elem_of_app. by left. }
  rewrite Hrun1.
  rewrite (publications_loop_take parse ignored extract) by done. rewrite Hmd.
  destruct (publications_loop_returns parse ignored extract feed after
              (<[identifier (md_primary_identifier md) := md]> dict1))
    as (dict & Hrun2 & _ & _).
  { intros p Hp. apply Hok. apply elem_of_app. right. by right. }
  rewrite Hrun2. simpl.
  destruct (errors_loop_named_returns data_source parse ignored
              (errors parser_result) ∅) as (failures & Herr & _);
    [by intros i | done |].
  rewrite Herr. simpl. exists dict, failures. split; [done |].
  rewrite (publications_loop_untouched parse ignored extract feed after _ dict
             (identifier (md_primary_identifier md)) Hafter Hrun2).
  apply lookup_insert_eq.
Qed.

(** X10. When the parser reports several errors in publications with the
    same identifier string, only the last one is kept: the failures mapping
    holds, under the identifier string of a recorded error, exactly the
    failure made of that error's message (transient, with the importer's
    data source), provided no later error is recorded under the same
    string. *)
Theorem last_parser_error_is_kept before error after ident s :
  errors parser_result = before ++ error :: after ->
  extraction_succeeds ->
  all_named parse ignored (errors parser_result) ->
  recorded error = Some ident ->
  identifier ident = Some s ->
  (∀ error' ident', error' ∈ after -> recorded error' = Some ident' ->
                    identifier ident' ≠ Some s) ->
  ∃ dict failures,
    run = Ok (dict, failures)
    ∧ failures !! KStr s
      = Some [mkCoverageFailure ident (error_message error) data_source true].
Proof.
  intros Herrs Hok Hnamed Hrec Hs Hafter.
  unfold OPDS2Importer.extract_feed_data.
  destruct (publications_loop_returns parse ignored extract feed pubs ∅ Hok)
    as (dict & Hrun & _ & _).
  rewrite Hrun. simpl. rewrite Herrs in *.
  rewrite (errors_loop_app data_source parse ignored).
  destruct (errors_loop_named_returns data_source parse ignored before ∅)
    as (failures1 & Hrun1 & Hk1); [by intros i | |].
  { intros e i He. apply Hnamed. apply elem_of_app. by left. }
  rewrite Hrun1.
  rewrite (errors_loop_recorded data_source parse ignored error after failures1
             ident Hrec).
  rewrite (record_resets data_source failures1 ident s _ true Hk1 Hs). simpl.
  destruct (errors_loop_untouched data_source parse ignored after
              (<[KStr s := [mkCoverageFailure ident (error_message error)
                              data_source true]]> failures1) s)
    as (failures & Hrun2 & _ & Hsame).
  - by apply record_keeps_str_keyed.
  - intros e i He. apply Hnamed. apply elem_of_app. right. by right.
  - done.
  - rewrite Hrun2. simpl. exists dict, failures. split; [done |].
    rewrite Hsame. apply lookup_insert_eq.
Qed.

(** X11. A parser error in a publication whose recognized, allowed
    identifier has no identifier string makes [extract_feed_data] raise
    [ValueError], although every publication was extracted: the exception
    of [_record_coverage_failure] is not caught, and neither mapping is
    returned. *)
Theorem unnamed_identifier_in_error_raises before error after ident :
  errors parser_result = before ++ error :: after ->
  extraction_succeeds ->
  all_named parse ignored before ->
  recorded error = Some ident ->
  identifier ident = None ->
  run = Raise ValueError.
Proof.
  intros Herrs Hok Hnamed Hrec Hnone.
  unfold OPDS2Importer.extract_feed_data.
  destruct (publications_loop_returns parse ignored extract feed pubs ∅ Hok)
    as (dict & Hrun & _ & _).
  rewrite Hrun. simpl. rewrite Herrs.
  rewrite (errors_loop_app data_source parse ignored).
  destruct (errors_loop_named_returns data_source parse ignored before ∅)
    as (failures1 & Hrun1 & Hk1); [by intros i | done |].
  rewrite Hrun1.
  rewrite (errors_loop_recorded data_source parse ignored error after failures1
             ident Hrec).
  unfold OPDS2Importer._record_coverage_failure. by rewrite Hnone.
Qed.

End FeedDataTheorems.

(** Extraction that always raises. *)
Definition raising_extract (feed : Feed) (pub : Publication) : result Metadata :=
  Raise (OtherError "extraction failed").

Lemma unimportable_publications_are_never_extracted_witness :
  OPDS2Importer.extract_feed_data "Feed" sample_parse ["URI"] raising_extract
    sample_parser_result
  = Ok (∅, ∅).
Proof.
  apply unimportable_publications_are_never_extracted.
  - repeat (apply Forall_cons_2; [reflexivity |]). constructor.
  - repeat (apply Forall_cons_2; [reflexivity |]). constructor.
Defined.

(** A page that lists the same identifier twice, with two parser errors in
    the second listing. *)
Definition repeated_page : ManifestParserResult :=
  mkManifestParserResult
    (mkFeed [] [sample_publication "urn:uuid:1" "First listing";
                sample_publication "urn:uuid:1" "Second listing"] [])
    [ mkParserError (Some (sample_publication "urn:uuid:1" "Second listing"))
        "bad link";
      mkParserError None "stray node";
      mkParserError (Some (sample_publication "urn:uuid:1" "Second listing"))
        "bad date" ].

Lemma sample_extract_succeeds pr :
  extraction_succeeds sample_parse [] sample_extract pr.
Proof.
  intros p _. unfold OPDS2Importer.importable, OPDS2Importer._extract_identifier,
    sample_extract.
  by destruct (sample_parse (pm_identifier (metadata p))).
Qed.

Lemma sample_errors_named errs : all_named sample_parse [] errs.
Proof.
  intros error ident _. unfold recorded_identifier, OPDS2Importer._extract_identifier.
  destruct (error_publication error) as [pub|]; [| done].
  unfold sample_parse.
  destruct (pm_identifier (metadata pub)) as [raw|]; [| done].
  destruct (OPDS2Importer._is_identifier_allowed _ _); [| done].
  intros [= <-]. by eexists.
Qed.

Lemma later_publication_replaces_earlier_witness :
  ∃ dict failures,
    OPDS2Importer.extract_feed_data "Feed" sample_parse [] sample_extract
      repeated_page = Ok (dict, failures)
    ∧ md_title <$> dict !! Some "urn:uuid:1" = Some (Some "Second listing").
Proof.
  destruct (later_publication_replaces_earlier "Feed" sample_parse []
              sample_extract repeated_page
              [sample_publication "urn:uuid:1" "First listing"]
              (sample_publication "urn:uuid:1" "Second listing") []
              (mkMetadata (mkIdentifier (Some "URI") (Some "urn:uuid:1"))
                 (Some "Second listing") None [] []))
    as (dict & failures & Hrun & Hdict).
  - reflexivity.
  - apply sample_extract_succeeds.
  - apply sample_errors_named.
  - reflexivity.
  - reflexivity.
  - intros p md' Hp. inversion Hp.
  - exists dict, failures. split; [exact Hrun |].
    simpl in Hdict. by rewrite Hdict.
Defined.

Lemma last_parser_error_is_kept_witness :
  ∃ dict failures,
    OPDS2Importer.extract_feed_data "Feed" sample_parse [] sample_extract
      repeated_page = Ok (dict, failures)
    ∧ failures !! KStr "urn:uuid:1"
      = Some [mkCoverageFailure (mkIdentifier (Some "URI") (Some "urn:uuid:1"))
                "bad date" "Feed" true].
Proof.
  apply (last_parser_error_is_kept "Feed" sample_parse [] sample_extract
           repeated_page
           [ mkParserError (Some (sample_publication "urn:uuid:1" "Second listing"))
               "bad link";
             mkParserError None "stray node" ]
           (mkParserError (Some (sample_publication "urn:uuid:1" "Second listing"))
              "bad date")
           []).
  - reflexivity.
  - apply sample_extract_succeeds.
  - apply sample_errors_named.
  - reflexivity.
  - reflexivity.
  - intros error' ident' Hin. inversion Hin.
Defined.

(** A resolver that recognizes every publication, also one without
    identifier, whose [Identifier] then has no identifier string. *)
Definition lenient_parse (raw : option string) : option Identifier :=
  Some (mkIdentifier (Some "URI") raw).

Definition unnamed_publication : Publication :=
  mkPublication (mkPublicationMetadata None (Some "Untitled") None None None None)
    [] None.

Definition lenient_extract (feed : Feed) (pub : Publication) : result Metadata :=
  Ok (mkMetadata (mkIdentifier (Some "URI") (pm_identifier (metadata pub)))
        (pm_title (metadata pub)) None [] []).

Lemma unnamed_identifier_in_error_raises_witness :
  OPDS2Importer.extract_feed_data "Feed" lenient_parse [] lenient_extract
    (mkManifestParserResult (mkFeed [] [unnamed_publication] [])
       [mkParserError (Some unnamed_publication) "missing identifier"])
  = Raise ValueError.
Proof.
  apply (unnamed_identifier_in_error_raises "Feed" lenient_parse [] lenient_extract
           _ [] (mkParserError (Some unnamed_publication) "missing identifier") []
           (mkIdentifier (Some "URI") None)).
  - reflexivity.
  - intros p _ _. reflexivity.
  - intros error ident Hin. inversion Hin.
  - reflexivity.
  - reflexivity.
Defined.

(** ** Further properties of the session cache *)

Section CacheLookupFacts.

Import HasSessionCache.

Context {T I K : Type}.
Context `{EqDecision T} `{Countable I} `{Countable K}.
Context `{SessionCached T I K}.

Local Abbreviation Cache := (@CacheTuple T I K _ _ _ _).
Local Abbreviation Hook := (@Hook T).

(** The cache a miss leaves: one more miss counted, and the object of the
    hook filed when there is one. *)
Definition after_miss (cache : Cache) (obj : option T) : Cache :=
  match obj with
  | Some o => _cache_insert o (count_miss cache)
  | None => count_miss cache
  end.

Lemma cache_lookup_miss fuel db (cache : Cache) cache_name k (hook : Hook) :
  table_lookup cache cache_name k = None ->
  _cache_lookup fuel db cache cache_name k hook
  = Some ((hook db).1, after_miss cache (hook db).1.1, (hook db).2).
Proof.
  intros Hnone. destruct fuel; simpl; rewrite Hnone;
    by destruct (hook db) as [[[obj|] new] db'].
Qed.

Lemma cache_remove_stats obj (cache : Cache) :
  stats (_cache_remove obj cache) = stats cache.
Proof.
  unfold _cache_remove.
  by destruct (id cache !! row_id obj), (key cache !! cache_key obj).
Qed.

Lemma after_miss_stats (cache : Cache) obj :
  stats (after_miss cache obj)
  = mkCacheStats (hits (stats cache)) (S (misses (stats cache))).
Proof. by destruct obj. Qed.

(** An eviction that leaves an entry under the key looked up leaves the same
    object there, and a second eviction clears the tables. *)
Lemma cache_remove_twice (cache : Cache) cache_name k obj obj' :
  table_lookup cache cache_name k = Some obj ->
  table_lookup (_cache_remove obj cache) cache_name k = Some obj' ->
  obj' = obj
  ∧ table_lookup (_cache_remove obj (_cache_remove obj cache)) cache_name k = None.
Proof.
  intros Hl. unfold _cache_remove at 1 3.
  destruct (id cache !! row_id obj) as [found|];
    [| destruct cache_name, k; simpl; by rewrite ?lookup_empty ].
  destruct (key cache !! cache_key obj) as [found'|];
    [| destruct cache_name, k; simpl; by rewrite ?lookup_empty ].
  intros Hl'. unfold _cache_remove. simpl.
  rewrite lookup_delete_eq.
  split; [| destruct cache_name, k; simpl; by rewrite ?lookup_empty ].
  destruct cache_name, k as [i|k]; simpl in *; try done.
  - apply lookup_delete_Some in Hl' as [_ Hl']. congruence.
  - apply lookup_delete_Some in Hl' as [_ Hl']. congruence.
Qed.

(** The entry found under a key of a coherent cache is in both tables,
    under its own id and key. *)
Lemma coherent_found U (cache : Cache) cache_name k obj :
  coherent U cache -> table_lookup cache cache_name k = Some obj ->
  id cache !! row_id obj = Some obj ∧ key cache !! cache_key obj = Some obj.
Proof.
  intros ([Hid Hkey] & _ & Hpair) Hl.
  destruct cache_name, k as [i|k]; simpl in Hl; try done.
  - assert (Hi : id cache !! row_id obj = Some obj) by (by rewrite (Hid i obj Hl)).
    split; [done | by apply Hpair].
  - assert (Hk : key cache !! cache_key obj = Some obj) by (by rewrite (Hkey k obj Hl)).
    split; [by apply Hpair | done].
Qed.

(** The table of a warmed cache holds, under a key, the last object of the
    list filed under it. *)
Lemma cache_warm_app before after (cache : Cache) :
  cache_warm (before ++ after) cache = cache_warm after (cache_warm before cache).
Proof. unfold cache_warm. by rewrite foldl_app. Qed.

Lemma cache_warm_stats objects (cache : Cache) :
  stats (cache_warm objects cache) = stats cache.
Proof.
  revert cache. induction objects as [|obj objects IH]; intros cache; [done |].
  simpl. by rewrite IH.
Qed.

Lemma table_lookup_insert obj (cache : Cache) cache_name :
  table_lookup (_cache_insert obj cache) cache_name (key_of cache_name obj) = Some obj.
Proof. destruct cache_name; simpl; apply lookup_insert_eq. Qed.

Lemma table_lookup_insert_ne obj (cache : Cache) cache_name k :
  key_of cache_name obj ≠ k ->
  table_lookup (_cache_insert obj cache) cache_name k = table_lookup cache cache_name k.
Proof.
  intros Hne. destruct cache_name, k as [i|k]; simpl in *; try done;
    apply lookup_insert_ne; congruence.
Qed.

Lemma cache_warm_other objects (cache : Cache) cache_name k :
  Forall (fun o => key_of cache_name o ≠ k) objects ->
  table_lookup (cache_warm objects cache) cache_name k = table_lookup cache cache_name k.
Proof.
  intros Hall. revert cache.
  induction Hall as [|obj objects Hobj _ IH]; intros cache; [done |].
  simpl. rewrite IH. by apply table_lookup_insert_ne.
Qed.

End CacheLookupFacts.

Section CacheTheorems.

Import HasSessionCache.

Context {T I K : Type}.
Context `{EqDecision T} `{Countable I} `{Countable K}.
Context `{SessionCached T I K}.

Local Abbreviation Cache := (@CacheTuple T I K _ _ _ _).
Local Abbreviation Hook := (@Hook T).

Lemma cache_lookup_hit fuel db (cache : Cache) cache_name k (hook : Hook) obj :
  table_lookup cache cache_name k = Some obj -> live db obj = true ->
  _cache_lookup fuel db cache cache_name k hook
  = Some ((Some obj, false), count_hit cache, db).
Proof. intros Hl Hlive. destruct fuel; simpl; by rewrite Hl, Hlive. Qed.

Lemma cache_lookup_stale fuel db (cache : Cache) cache_name k (hook : Hook) obj :
  table_lookup cache cache_name k = Some obj -> live db obj = false ->
  _cache_lookup (S fuel) db cache cache_name k hook
  = _cache_lookup fuel db (_cache_remove obj cache) cache_name k hook.
Proof. intros Hl Hlive. cbn [_cache_lookup]. by rewrite Hl, Hlive. Qed.

(** X12. [_cache_lookup] returns from every cache, also one whose entries
    are filed under keys that are not their own: it re-enters itself at most
    twice.  It either finds a live object under the key, returns it as not
    new, counts one hit and leaves the session alone without calling the
    hook; or every object it found under the key is not live, and it returns
    what the hook returns and counts exactly one miss. *)
Theorem cache_lookup_hits_or_misses fuel db (cache : Cache) cache_name k
    (hook : Hook) :
  ∃ answer cache' db',
    _cache_lookup (S (S fuel)) db cache cache_name k hook
    = Some (answer, cache', db')
    ∧ ((∃ obj, table_lookup cache cache_name k = Some obj
               ∧ live db obj = true
               ∧ answer = (Some obj, false) ∧ db' = db
               ∧ cache' = count_hit cache)
       ∨ (hook db = (answer, db')
          ∧ (∀ obj, table_lookup cache cache_name k = Some obj -> live db obj = false)
          ∧ stats cache'
            = mkCacheStats (hits (stats cache)) (S (misses (stats cache))))).
Proof.
  assert (Hmiss : ∀ fuel' (cache0 : Cache),
             stats cache0 = stats cache ->
             table_lookup cache0 cache_name k = None ->
             ∃ answer cache' db',
               _cache_lookup fuel' db cache0 cache_name k hook
               = Some (answer, cache', db')
               ∧ hook db = (answer, db')
               ∧ stats cache'
                 = mkCacheStats (hits (stats cache)) (S (misses (stats cache)))).
  { intros fuel' cache0 Hst Hnone. do 3 eexists.
    split; [by apply cache_lookup_miss |].
    split; [by destruct (hook db) as [? ?] |].
    by rewrite after_miss_stats, Hst. }
  destruct (table_lookup cache cache_name k) as [obj|] eqn:Hl.
  - destruct (live db obj) eqn:Hlive.
    + do 3 eexists. split; [by eapply cache_lookup_hit |]. left. by exists obj.
    + rewrite (cache_lookup_stale _ _ _ _ _ _ obj) by done.
      destruct (table_lookup (_cache_remove obj cache) cache_name k) as [obj'|] eqn:Hl'.
      * destruct (cache_remove_twice cache cache_name k obj obj' Hl Hl') as [-> Hnone].
        rewrite (cache_lookup_stale _ _ _ _ _ _ obj) by done.
        destruct (Hmiss fuel (_cache_remove obj (_cache_remove obj cache)))
          as (answer & cache' & db' & Hrun & Hhook & Hst);
          [by rewrite !cache_remove_stats | done |].
        exists answer, cache', db'. split; [done |]. right.
        split; [done |]. split; [| done]. by intros o [= <-].
      * destruct (Hmiss (S fuel) (_cache_remove obj cache))
          as (answer & cache' & db' & Hrun & Hhook & Hst);
          [by rewrite cache_remove_stats | done |].
        exists answer, cache', db'. split; [done |]. right.
        split; [done |]. split; [| done]. by intros o [= <-].
  - destruct (Hmiss (S (S fuel)) cache) as (answer & cache' & db' & Hrun & Hhook & Hst);
      [done | done |].
    exists answer, cache', db'. split; [done |]. right.
    split; [done |]. split; [| done]. by intros o [=].
Qed.

(** X13. After [cache_warm] with a list of objects, a lookup by id, or by
    cache key, of an object of the list that is live in the session returns
    that object as not new and counts a hit without calling the hook,
    provided no object later in the list has the same id (the same cache
    key): a later object of the list replaces an earlier one filed under the
    same key. *)
Theorem warmed_object_is_found fuel db (cache : Cache) before obj after
    cache_name (hook : Hook) :
  Forall (fun o => key_of cache_name o ≠ key_of cache_name obj) after ->
  live db obj = true ->
  _cache_lookup fuel db (cache_warm (before ++ obj :: after) cache) cache_name
    (key_of cache_name obj) hook
  = Some ((Some obj, false), count_hit (cache_warm (before ++ obj :: after) cache), db).
Proof.
  intros Hafter Hlive.
  assert (Hl : table_lookup (cache_warm (before ++ obj :: after) cache) cache_name
                 (key_of cache_name obj) = Some obj).
  { rewrite cache_warm_app. cbn [cache_warm foldl].
    fold (cache_warm after (_cache_insert obj (cache_warm before cache))).
    rewrite cache_warm_other by done. apply table_lookup_insert. }
  by apply cache_lookup_hit.
Qed.

(** X14. Removing an object right after inserting it never resets the
    cache: the entries filed under other ids and other cache keys are kept,
    the counters are kept, and nothing is left under the object's own id and
    key, whatever was filed there before the insertion. *)
Theorem remove_after_insert_keeps_the_rest (cache : Cache) obj :
  _cache_remove obj (_cache_insert obj cache)
  = mkCacheTuple (delete (row_id obj) (id cache))
                 (delete (cache_key obj) (key cache)) (stats cache).
Proof.
  unfold _cache_remove, _cache_insert. simpl.
  by rewrite !lookup_insert_eq, !delete_insert_eq.
Qed.

(** X15. In a cache whose tables hold the same objects, each under its own
    id and key, a lookup that finds an object no longer live in the session
    evicts exactly that object: the lookup goes on as a miss on the cache
    without the object's two entries, all other entries being kept, and
    returns what the hook returns. *)
Theorem stale_entry_is_evicted U fuel db (cache : Cache) cache_name k obj
    (hook : Hook) :
  coherent U cache ->
  table_lookup cache cache_name k = Some obj ->
  live db obj = false ->
  _cache_lookup (S fuel) db cache cache_name k hook
  = Some ((hook db).1,
          after_miss (mkCacheTuple (delete (row_id obj) (id cache))
                        (delete (cache_key obj) (key cache)) (stats cache))
            (hook db).1.1,
          (hook db).2).
Proof.
  intros Hco Hl Hlive.
  destruct (coherent_found U cache cache_name k obj Hco Hl) as [Hi Hk].
  assert (Hrm : _cache_remove obj cache
                = mkCacheTuple (delete (row_id obj) (id cache))
                    (delete (cache_key obj) (key cache)) (stats cache)).
  { unfold _cache_remove. by rewrite Hi, Hk. }
  rewrite (cache_lookup_stale _ _ _ _ _ _ obj) by done.
  rewrite <- Hrm. apply cache_lookup_miss.
  apply table_lookup_removed; [by destruct Hco | done].
Qed.

End CacheTheorems.

(** A session that holds both rows, and one in which Gutenberg was
    deleted. *)
Definition both_rows : Session DataSource := mkSession [gutenberg; overdrive] [].

Definition gutenberg_deleted : Session DataSource :=
  mkSession [gutenberg; overdrive] [gutenberg].

Definition warmed_cache : @HasSessionCache.CacheTuple DataSource Z string _ _ _ _ :=
  HasSessionCache.cache_warm data_sources HasSessionCache.empty_cache.

Lemma warmed_object_is_found_witness :
  HasSessionCache._cache_lookup 0 both_rows
    (HasSessionCache.cache_warm ([gutenberg_again] ++ gutenberg :: [overdrive])
       HasSessionCache.empty_cache)
    ByKey (key_of ByKey gutenberg) (always_create "Gutenberg")
  = Some ((Some gutenberg, false),
          HasSessionCache.count_hit
            (HasSessionCache.cache_warm ([gutenberg_again] ++ gutenberg :: [overdrive])
               HasSessionCache.empty_cache),
          both_rows).
Proof.
  apply (warmed_object_is_found 0%nat both_rows HasSessionCache.empty_cache
           [gutenberg_again] gutenberg [overdrive] ByKey (always_create "Gutenberg")).
  - apply Forall_cons_2; [discriminate | constructor].
  - reflexivity.
Defined.

Lemma warmed_cache_coherent : coherent known warmed_cache.
Proof.
  apply coherent_warm; [apply known_determined | | apply coherent_empty].
  apply Forall_cons_2; [by left |]. apply Forall_cons_2; [by right | constructor].
Qed.

Lemma stale_entry_is_evicted_witness :
  HasSessionCache._cache_lookup 1 gutenberg_deleted warmed_cache ById (inl 1)
    (fun db => ((None, false), db))
  = Some ((None, false),
          HasSessionCache.mkCacheTuple
            (delete 1 (HasSessionCache.id warmed_cache))
            (delete "Gutenberg" (HasSessionCache.key warmed_cache))
            (mkCacheStats 0 1),
          gutenberg_deleted).
Proof.
  etrans;
    [ apply (stale_entry_is_evicted known 0%nat gutenberg_deleted warmed_cache ById
               (inl 1) gutenberg (fun db => ((None, false), db)))
    | reflexivity ].
  - apply warmed_cache_coherent.
  - reflexivity.
  - reflexivity.
Defined.

(** ** Further properties of the S3 uploader *)

Section MirrorInvariant.

Import S3Uploader.

Variable urlsplit : string -> string * string.
Variable now : Z.
Variable as_completed : list UploadRequest -> list Response * option exn.

Local Abbreviation upload_loop := (upload_loop urlsplit).
Local Abbreviation process_response := (process_response now).
Local Abbreviation responses_loop := (responses_loop now).
Local Abbreviation mirror_batch := (mirror_batch urlsplit now as_completed).

(** What [mirror_batch] may do to a representation: the source URL, the
    media type, the content and the local path stay, and the mirror URL
    changes only from a falsy value to the source URL. *)
Definition kept (r r' : Representation) : Prop :=
  rep_url r' = rep_url r
  ∧ external_media_type r' = external_media_type r
  ∧ external_content r' = external_content r
  ∧ local_content_path r' = local_content_path r
  ∧ (mirror_url r' = mirror_url r
     ∨ (truthy (mirror_url r) = false ∧ mirror_url r' = rep_url r)).

Lemma kept_refl r : kept r r.
Proof. unfold kept. auto 10. Qed.

Lemma kept_trans r1 r2 r3 : kept r1 r2 -> kept r2 r3 -> kept r1 r3.
Proof.
  unfold kept. intros (Hu & Ht & Hc & Hp & Hm) (Hu' & Ht' & Hc' & Hp' & Hm').
  repeat split; try congruence.
  destruct Hm as [Hm | [Hf Hm]], Hm' as [Hm' | [Hf' Hm']].
  - left. congruence.
  - right. split; congruence.
  - right. split; congruence.
  - right. split; congruence.
Qed.

Lemma kept_all_refl reps : Forall2 kept reps reps.
Proof. induction reps; constructor; [apply kept_refl | done]. Qed.

Lemma kept_all_insert reps0 reps i r r' :
  Forall2 kept reps0 reps -> reps !! i = Some r -> kept r r' ->
  Forall2 kept reps0 (<[i := r']> reps).
Proof.
  intros Hall Hi Hkept.
  apply Forall2_same_length_lookup in Hall as [Hlen Hall].
  apply Forall2_same_length_lookup. split; [by rewrite length_insert |].
  intros j x y Hx Hy.
  destruct (decide (i = j)) as [<- | Hne].
  - rewrite list_lookup_insert_eq in Hy by (by eapply lookup_lt_Some).
    injection Hy as <-. eapply kept_trans; [by eapply Hall | done].
  - rewrite list_lookup_insert_ne in Hy by done. by eapply Hall.
Qed.

Lemma kept_set_mirror_url r :
  kept r (if negb (truthy (mirror_url r)) then set_mirror_url r (rep_url r) else r).
Proof.
  destruct (truthy (mirror_url r)) eqn:Ht; simpl; [apply kept_refl |].
  unfold kept. simpl. auto 10.
Qed.

Lemma kept_set_as_mirrored r : kept r (set_as_mirrored now r).
Proof. unfold kept. simpl. auto 10. Qed.

Lemma kept_set_mirror_failed r response : kept r (set_mirror_failed r response).
Proof. unfold kept. simpl. auto 10. Qed.

Lemma upload_loop_kept positions reps0 reps by_url requests :
  Forall2 kept reps0 reps ->
  Forall2 kept reps0 (upload_loop positions reps by_url requests).1.1.1.
Proof.
  revert reps by_url requests.
  induction positions as [|i rest IH]; intros reps by_url requests Hall; [done |].
  simpl. destruct (reps !! i) as [r|] eqn:Hi; [| done].
  pose proof (kept_all_insert reps0 reps i r _ Hall Hi (kept_set_mirror_url r)) as Hall'.
  set (r' := if negb (truthy (mirror_url r)) then _ else r) in *.
  destruct (mirror_url r') as [target|]; [| done].
  destruct (bucket_and_filename urlsplit target) as [[bucket filename]|e]; [| done].
  by apply IH.
Qed.

Lemma process_response_kept by_url reps0 reps response reps' :
  Forall2 kept reps0 reps ->
  process_response by_url reps response = Ok reps' ->
  Forall2 kept reps0 reps'.
Proof.
  intros Hall. unfold S3Uploader.process_response.
  destruct (by_url !! resp_url response) as [i|]; [| done].
  destruct (reps !! i) as [r|] eqn:Hi; [| done].
  destruct (status_code response =? 200); intros [= <-].
  - eapply kept_all_insert; [done | done | apply kept_set_as_mirrored].
  - eapply kept_all_insert; [done | done | apply kept_set_mirror_failed].
Qed.

Lemma responses_loop_kept by_url responses reps0 reps :
  Forall2 kept reps0 reps ->
  Forall2 kept reps0 (responses_loop by_url responses reps).1.
Proof.
  revert reps. induction responses as [|response rest IH]; intros reps Hall; [done |].
  simpl. destruct (process_response by_url reps response) as [reps'|e] eqn:Hp; [| done].
  apply IH. by eapply process_response_kept.
Qed.

(** X16. Whether [mirror_batch] returns or raises, and whatever the pool
    answers, it leaves as many representations as it was given, and of each
    it has changed neither the source URL, the media type, the content nor
    the local path; the mirror URL is either unchanged or, when it was
    missing or empty, set to the source URL. *)
Theorem mirror_batch_keeps_the_representations reps :
  Forall2 kept reps (store (mirror_batch reps).1).
Proof.
  unfold S3Uploader.mirror_batch.
  pose proof (upload_loop_kept (seq 0 (length reps)) reps reps ∅ []
                (kept_all_refl reps)) as Hup.
  destruct (upload_loop (seq 0 (length reps)) reps ∅ [])
    as [[[reps1 by_url] requests] [[]|e]]; simpl in *; [| done].
  destruct (as_completed requests) as [responses interruption].
  pose proof (responses_loop_kept by_url responses reps reps1 Hup) as Hresp.
  destruct (S3Uploader.responses_loop now by_url responses reps1) as [reps2 [[]|e]];
    simpl in *; [| done].
  destruct interruption as [e|]; [| done]. by destruct (caught e).
Qed.

End MirrorInvariant.

Lemma list_insert_at_middle {A} (l1 l2 : list A) x y :
  <[length l1 := y]> (l1 ++ x :: l2) = l1 ++ y :: l2.
Proof. rewrite insert_app_r_alt by lia. by rewrite Nat.sub_diag. Qed.

Section MirrorRequests.

Import S3Uploader.

Variable urlsplit : string -> string * string.

Local Abbreviation upload_loop := (upload_loop urlsplit).
Local Abbreviation bucket_and_filename := (bucket_and_filename urlsplit).

(** The representation as the first loop of [mirror_batch] leaves it. *)
Definition prepared (r : Representation) : Representation :=
  if negb (truthy (mirror_url r)) then set_mirror_url r (rep_url r) else r.

(** The URL a representation is mirrored to: its mirror URL, or its source
    URL when the mirror URL is missing or empty. *)
Definition target (r : Representation) : option string :=
  if truthy (mirror_url r) then mirror_url r else rep_url r.

(** The request [mirror_batch] hands to the pool for a representation, when
    its target splits into a bucket and a file name. *)
Definition request_of (r : Representation) : option UploadRequest :=
  match target r with
  | Some t =>
      match bucket_and_filename t with
      | Ok (bucket, filename) =>
          Some (mkUploadRequest filename (external_content r) bucket
                  (external_media_type r))
      | Raise _ => None
      end
  | None => None
  end.

(** The exception the first loop raises for a representation without such
    a request. *)
Definition upload_error (r : Representation) : exn :=
  match target r with
  | Some t =>
      match bucket_and_filename t with
      | Ok _ => ValueError
      | Raise e => e
      end
  | None => AttributeError
  end.

(** The URL under which [mirror_batch] expects the response to a request. *)
Definition response_url_of (request : UploadRequest) : string :=
  url (up_bucket request) (up_remote_filename request).

(** [representations_by_response_url] after requests for the positions
    from [k] on. *)
Fixpoint index_requests (k : nat) (requests : list UploadRequest)
    (by_url : gmap string nat) : gmap string nat :=
  match requests with
  | [] => by_url
  | request :: rest =>
      index_requests (S k) rest (<[response_url_of request := k]> by_url)
  end.

Lemma prepared_target r : mirror_url (prepared r) = target r.
Proof. unfold prepared, target. by destruct (truthy (mirror_url r)). Qed.

Lemma prepared_content r : external_content (prepared r) = external_content r.
Proof. unfold prepared. by destruct (truthy (mirror_url r)). Qed.

Lemma prepared_media_type r :
  external_media_type (prepared r) = external_media_type r.
Proof. unfold prepared. by destruct (truthy (mirror_url r)). Qed.

Lemma upload_loop_step i rest reps by_url requests r :
  reps !! i = Some r ->
  upload_loop (i :: rest) reps by_url requests
  = match target r with
    | None => (<[i := prepared r]> reps, by_url, requests, Raise AttributeError)
    | Some t =>
        match bucket_and_filename t with
        | Raise e => (<[i := prepared r]> reps, by_url, requests, Raise e)
        | Ok (bucket, filename) =>
            upload_loop rest (<[i := prepared r]> reps)
              (<[url bucket filename := i]> by_url)
              (requests ++ [mkUploadRequest filename (external_content r) bucket
                              (external_media_type r)])
        end
    end.
Proof.
  intros Hi. cbn [S3Uploader.upload_loop]. rewrite Hi.
  fold (prepared r). rewrite prepared_target, prepared_content, prepared_media_type.
  destruct (target r) as [t|]; [| done].
  by destruct (bucket_and_filename t) as [[bucket filename]|e].
Qed.

(** The first loop over representations that all have a request. *)
Lemma upload_loop_ok todo done by_url requests new :
  mapM request_of todo = Some new ->
  upload_loop (seq (length done) (length todo)) (done ++ todo) by_url requests
  = (done ++ (prepared <$> todo), index_requests (length done) new by_url,
     requests ++ new, Ok ()).
Proof.
  revert done by_url requests new.
  induction todo as [|r todo IH]; intros done by_url requests new Hnew.
  - injection Hnew as <-. simpl. by rewrite !app_nil_r.
  - cbn [length seq].
    rewrite (upload_loop_step _ _ _ _ _ r) by (by rewrite list_lookup_middle).
    apply mapM_Some in Hnew. inversion Hnew as [|? rq ? new' Hrq Hrest]; subst.
    apply mapM_Some in Hrest.
    unfold request_of in Hrq.
    destruct (target r) as [t|]; [| done].
    destruct (bucket_and_filename t) as [[bucket filename]|e]; [| done].
    injection Hrq as <-.
    replace (<[length done := prepared r]> (done ++ r :: todo))
      with ((done ++ [prepared r]) ++ todo).
    2:{ rewrite <- app_assoc. simpl.
        by rewrite list_insert_at_middle. }
    replace (S (length done)) with (length (done ++ [prepared r]))
      by (rewrite length_app; simpl; lia).
    rewrite (IH _ _ _ new' Hrest).
    rewrite <- !app_assoc. simpl. repeat f_equal.
    rewrite length_app. simpl. f_equal. lia.
Qed.

(** The first loop stops at the first representation without request. *)
Lemma upload_loop_bad before r after done by_url requests new :
  mapM request_of before = Some new ->
  request_of r = None ->
  upload_loop (seq (length done) (length (before ++ r :: after)))
    (done ++ before ++ r :: after) by_url requests
  = (done ++ (prepared <$> before) ++ prepared r :: after,
     index_requests (length done) new by_url, requests ++ new,
     Raise (upload_error r)).
Proof.
  revert done by_url requests new.
  induction before as [|b before IH]; intros done by_url requests new Hnew Hbad.
  - injection Hnew as <-. cbn [app length seq].
    rewrite (upload_loop_step _ _ _ _ _ r) by (by rewrite list_lookup_middle).
    unfold request_of in Hbad. unfold upload_error.
    rewrite list_insert_at_middle, app_nil_r by done.
    destruct (target r) as [t|]; [| done].
    by destruct (bucket_and_filename t) as [[bucket filename]|e].
  - cbn [app length seq].
    rewrite (upload_loop_step _ _ _ _ _ b) by (by rewrite list_lookup_middle).
    apply mapM_Some in Hnew. inversion Hnew as [|? rq ? new' Hrq Hrest]; subst.
    apply mapM_Some in Hrest.
    unfold request_of in Hrq.
    destruct (target b) as [t|]; [| done].
    destruct (bucket_and_filename t) as [[bucket filename]|e]; [| done].
    injection Hrq as <-.
    replace (<[length done := prepared b]> (done ++ b :: before ++ r :: after))
      with ((done ++ [prepared b]) ++ before ++ r :: after).
    2:{ rewrite <- app_assoc. simpl. by rewrite list_insert_at_middle. }
    replace (S (length done)) with (length (done ++ [prepared b]))
      by (rewrite length_app; simpl; lia).
    rewrite (IH _ _ _ new' Hrest Hbad).
    rewrite <- !app_assoc. simpl. repeat f_equal.
    rewrite length_app. simpl. f_equal. lia.
Qed.

(** The URLs indexed are those of the requests, and they name positions of
    the batch. *)
Lemma index_requests_dom k requests by_url u :
  is_Some (index_requests k requests by_url !! u)
  ↔ is_Some (by_url !! u) ∨ ∃ request, request ∈ requests ∧ response_url_of request = u.
Proof.
  revert k by_url. induction requests as [|rq rest IH]; intros k by_url; simpl.
  - split; [by left |]. intros [? | (? & Hin & _)]; [done | by apply elem_of_nil in Hin].
  - rewrite IH. rewrite lookup_insert_is_Some. split.
    + intros [[Heq | [_ Hs]] | (request & Hin & Hu)].
      * right. exists rq. split; [left | done].
      * by left.
      * right. exists request. split; [by right | done].
    + intros [Hs | (request & Hin & Hu)].
      * destruct (decide (response_url_of rq = u)); [left; by left | left; by right].
      * apply elem_of_cons in Hin as [-> | Hin]; [left; by left |].
        right. by exists request.
Qed.

Lemma index_requests_range k requests by_url u i :
  index_requests k requests by_url !! u = Some i ->
  by_url !! u = Some i ∨ (k <= i < k + length requests)%nat.
Proof.
  revert k by_url. induction requests as [|rq rest IH]; intros k by_url; simpl.
  - by left.
  - intros Hi. apply IH in Hi as [Hi | Hi]; [| right; lia].
    rewrite lookup_insert in Hi. case_decide.
    + injection Hi as <-. right. lia.
    + by left.
Qed.

End MirrorRequests.

Section MirrorTheorems.

Import S3Uploader.

Variable urlsplit : string -> string * string.
Variable now : Z.

Local Abbreviation mirror_batch := (mirror_batch urlsplit now).
Local Abbreviation responses_loop := (responses_loop now).

(** The response answers one of the requests. *)
Definition answers (requests : list UploadRequest) (response : Response) : Prop :=
  ∃ request, request ∈ requests ∧ resp_url response = response_url_of request.

Lemma bucket_and_filename_raises t e :
  bucket_and_filename urlsplit t = Raise e -> e = ValueError.
Proof.
  unfold bucket_and_filename. destruct (urlsplit t) as [netloc path].
  destruct (String.eqb netloc "s3.amazonaws.com"); [| done].
  destruct (split_slash _) as [[bucket filename]|]; [done |]. by intros [= <-].
Qed.

Lemma responses_loop_app by_url first rest reps :
  responses_loop by_url (first ++ rest) reps
  = match responses_loop by_url first reps with
    | (reps', Ok _) => responses_loop by_url rest reps'
    | (reps', Raise e) => (reps', Raise e)
    end.
Proof.
  revert reps. induction first as [|response first IH]; intros reps; [done |].
  simpl. by destruct (process_response now by_url reps response).
Qed.

Lemma answers_known requests (reps : list Representation) responses :
  length reps = length requests ->
  Forall (answers requests) responses ->
  all_known (index_requests 0 requests ∅) reps responses.
Proof.
  intros Hlen Hall response Hin.
  rewrite Forall_forall in Hall. destruct (Hall response Hin) as (rq & Hrq & Hu).
  assert (Hs : is_Some (index_requests 0 requests ∅ !! resp_url response)).
  { apply index_requests_dom. right. by exists rq. }
  destruct Hs as [i Hi]. exists i. split; [done |].
  apply index_requests_range in Hi as [Hi | Hi]; [by rewrite lookup_empty in Hi | lia].
Qed.

Lemma upload_loop_all reps requests :
  mapM (request_of urlsplit) reps = Some requests ->
  upload_loop urlsplit (seq 0 (length reps)) reps ∅ []
  = (prepared <$> reps, index_requests 0 requests ∅, requests, Ok ()).
Proof. intros Hreq. by rewrite (upload_loop_ok urlsplit reps [] ∅ [] requests). Qed.

(** X17. When every representation of the batch has a mirror URL, or a
    source URL in its place, that splits into a bucket and a file name,
    [mirror_batch] hands the pool one request per representation, in the
    order of the batch, made of that file name and bucket and of the
    representation's content and media type, whatever the pool answers. *)
Theorem upload_requests_follow_the_representations as_completed reps requests :
  mapM (request_of urlsplit) reps = Some requests ->
  uploads (mirror_batch as_completed reps).1 = requests.
Proof.
  intros Hreq. rewrite mirror_batch_uploads.
  by rewrite (upload_loop_all reps requests).
Qed.

(** X18. When every representation has such a request, the pool answers
    only with responses whose URL is the S3 URL of one of the requests, and
    the pool's iteration ends normally or with a connection or HTTP error,
    then [mirror_batch] returns and has closed one file handle per
    representation; a representation is left as its last response says, and
    one without response as the first loop left it. *)
Theorem mirror_batch_returns as_completed reps requests responses interruption :
  mapM (request_of urlsplit) reps = Some requests ->
  as_completed requests = (responses, interruption) ->
  Forall (answers requests) responses ->
  match interruption with Some e => caught e = true | None => True end ->
  ∃ st,
    mirror_batch as_completed reps = (st, Ok ())
    ∧ closed st = length reps
    ∧ ∀ i r, reps !! i = Some r ->
        store st !! i
        = Some (match last (responses_for (index_requests 0 requests ∅) i responses) with
                | Some response => response_outcome now (prepared r) response
                | None => prepared r
                end).
Proof.
  intros Hreq Hpool Hanswers Hend.
  assert (Hlen : length reps = length requests) by (by eapply length_mapM).
  destruct (responses_loop_completes now (index_requests 0 requests ∅) responses
              (prepared <$> reps)) as (reps' & Hrun & Hlen' & Hfinal).
  { apply answers_known; [by rewrite length_fmap | done]. }
  unfold S3Uploader.mirror_batch.
  rewrite (upload_loop_all reps requests Hreq), Hpool, Hrun.
  assert (Hstore : ∀ i r, reps !! i = Some r ->
            reps' !! i
            = Some (match last (responses_for (index_requests 0 requests ∅) i responses) with
                    | Some response => response_outcome now (prepared r) response
                    | None => prepared r
                    end)).
  { intros i r Hi. apply Hfinal. by rewrite list_lookup_fmap, Hi. }
  destruct interruption as [e|]; [rewrite Hend |]; eexists; (split; [done |]);
    simpl; split; [congruence | done | congruence | done].
Qed.

(** X19. When the pool yields a response whose URL is the S3 URL of none
    of the requests, after responses that answer requests, [mirror_batch]
    raises [KeyError]: the responses behind it are not processed and no file
    handle is closed, although every representation was uploaded. *)
Theorem unknown_response_url_aborts as_completed reps requests before response
    after interruption :
  mapM (request_of urlsplit) reps = Some requests ->
  as_completed requests = (before ++ response :: after, interruption) ->
  Forall (answers requests) before ->
  ¬ answers requests response ->
  ∃ st,
    mirror_batch as_completed reps = (st, Raise KeyError)
    ∧ uploads st = requests
    ∧ closed st = 0%nat
    ∧ store st
      = (responses_loop (index_requests 0 requests ∅) before (prepared <$> reps)).1.
Proof.
  intros Hreq Hpool Hanswers Hunknown.
  assert (Hlen : length reps = length requests) by (by eapply length_mapM).
  destruct (responses_loop_completes now (index_requests 0 requests ∅) before
              (prepared <$> reps)) as (reps' & Hrun & _ & _).
  { apply answers_known; [by rewrite length_fmap | done]. }
  assert (Hnone : index_requests 0 requests ∅ !! resp_url response = None).
  { apply eq_None_not_Some. intros Hs. apply index_requests_dom in Hs as [Hs | Hs].
    - rewrite lookup_empty in Hs. by destruct Hs.
    - apply Hunknown. destruct Hs as (rq & Hin & Hu). by exists rq. }
  unfold S3Uploader.mirror_batch.
  rewrite (upload_loop_all reps requests Hreq), Hpool, responses_loop_app, Hrun.
  cbn [S3Uploader.responses_loop]. unfold process_response. rewrite Hnone.
  eexists. by repeat split.
Qed.

(** X20. A connection error or an HTTP error that ends the pool's iteration
    leaves no trace: [mirror_batch] returns and leaves the same
    representations, uploads and closed file handles as when the iteration
    ends normally after the same responses. *)
Theorem transient_errors_are_swallowed
    (pool : list UploadRequest -> list Response) e reps :
  caught e = true ->
  mirror_batch (fun requests => (pool requests, Some e)) reps
  = mirror_batch (fun requests => (pool requests, None)) reps.
Proof.
  intros Hcaught. unfold S3Uploader.mirror_batch.
  destruct (upload_loop urlsplit (seq 0 (length reps)) reps ∅ [])
    as [[[reps1 by_url] requests] [[]|e']]; [| done].
  destruct (S3Uploader.responses_loop now by_url (pool requests) reps1)
    as [reps2 [[]|e']]; [| done].
  by rewrite Hcaught.
Qed.

(** X21. A representation without usable target stops the batch: when its
    mirror URL on the S3 host has no file name behind the bucket,
    [mirror_batch] raises [ValueError], and when it has neither mirror URL
    nor source URL, [AttributeError].  The representations before it have
    been handed to the pool, none of their file handles is closed, the
    pool's responses are not awaited, and the representations after it are
    left untouched. *)
Theorem bad_target_aborts_the_batch as_completed before r after requests :
  mapM (request_of urlsplit) before = Some requests ->
  request_of urlsplit r = None ->
  mirror_batch as_completed (before ++ r :: after)
  = (mkBatchState ((prepared <$> before) ++ prepared r :: after) requests 0,
     Raise (match target r with
            | Some _ => ValueError
            | None => AttributeError
            end)).
Proof.
  intros Hreq Hbad. unfold S3Uploader.mirror_batch.
  rewrite (upload_loop_bad urlsplit before r after [] ∅ [] requests Hreq Hbad).
  simpl. repeat f_equal. unfold upload_error.
  unfold request_of in Hbad.
  destruct (target r) as [t|]; [| done].
  destruct (bucket_and_filename urlsplit t) as [[bucket filename]|e] eqn:Hb; [done |].
  by rewrite (bucket_and_filename_raises t e Hb).
Qed.

End MirrorTheorems.

(** The request for [mirrored_cover], a pool whose iteration ends with a
    connection error after one response, and a pool that answers under a
    URL of its own making, as the responses [MockS3Pool] creates have. *)
Definition cover_request : UploadRequest :=
  mkUploadRequest "1/cover.jpg" "JPEG" "covers.example" (Some "image/jpeg").

Definition interrupted_pool (requests : list UploadRequest)
  : list Response * option exn :=
  ([mkResponse cover_response_url 200 "OK"], Some ConnectionError).

Definition mock_pool (requests : list UploadRequest) : list Response * option exn :=
  ([mkResponse "http://s3/0" 200 "OK"], None).

(** A representation whose mirror URL names a bucket on the S3 host and no
    file, and [urlsplit] on the URLs at hand. *)
Definition bucket_only : Representation :=
  mkRepresentation (Some "http://covers.example/2/cover.jpg")
    (Some "http://s3.amazonaws.com/covers") (Some "image/jpeg") "JPEG" None None None.

Definition sample_urlsplit (u : string) : string * string :=
  if String.eqb u "http://s3.amazonaws.com/covers"
  then ("s3.amazonaws.com", "/covers")
  else ("covers.example", "/1/cover.jpg").

Lemma upload_requests_follow_the_representations_witness :
  S3Uploader.uploads
    (S3Uploader.mirror_batch cover_urlsplit 9 mock_pool [mirrored_cover]).1
  = [cover_request].
Proof.
  apply (upload_requests_follow_the_representations cover_urlsplit 9 mock_pool
           [mirrored_cover] [cover_request]).
  reflexivity.
Defined.

Lemma mirror_batch_returns_witness :
  ∃ st,
    S3Uploader.mirror_batch cover_urlsplit 9 interrupted_pool [mirrored_cover]
    = (st, Ok ())
    ∧ S3Uploader.closed st = 1%nat
    ∧ ∀ i r, [mirrored_cover] !! i = Some r ->
        S3Uploader.store st !! i
        = Some (match last (responses_for (index_requests 0 [cover_request] ∅) i
                              [mkResponse cover_response_url 200 "OK"]) with
                | Some response => response_outcome 9 (prepared r) response
                | None => prepared r
                end).
Proof.
  apply (mirror_batch_returns cover_urlsplit 9 interrupted_pool [mirrored_cover]
           [cover_request] [mkResponse cover_response_url 200 "OK"]
           (Some ConnectionError)).
  - reflexivity.
  - reflexivity.
  - apply Forall_cons_2; [| constructor].
    exists cover_request. split; [left | reflexivity].
  - reflexivity.
Defined.

Lemma unknown_response_url_aborts_witness :
  ∃ st,
    S3Uploader.mirror_batch cover_urlsplit 9 mock_pool [mirrored_cover]
    = (st, Raise KeyError)
    ∧ S3Uploader.uploads st = [cover_request]
    ∧ S3Uploader.closed st = 0%nat
    ∧ S3Uploader.store st
      = (S3Uploader.responses_loop 9 (index_requests 0 [cover_request] ∅) []
           (prepared <$> [mirrored_cover])).1.
Proof.
  apply (unknown_response_url_aborts cover_urlsplit 9 mock_pool [mirrored_cover]
           [cover_request] [] (mkResponse "http://s3/0" 200 "OK") [] None).
  - reflexivity.
  - reflexivity.
  - constructor.
  - intros (request & Hin & Hu). apply list_elem_of_singleton in Hin as ->.
    discriminate Hu.
Defined.

Lemma transient_errors_are_swallowed_witness :
  S3Uploader.mirror_batch cover_urlsplit 9
    (fun requests => ([mkResponse cover_response_url 200 "OK"], Some ConnectionError))
    [mirrored_cover]
  = S3Uploader.mirror_batch cover_urlsplit 9
      (fun requests => ([mkResponse cover_response_url 200 "OK"], None))
      [mirrored_cover].
Proof.
  apply (transient_errors_are_swallowed cover_urlsplit 9
           (fun requests => [mkResponse cover_response_url 200 "OK"])
           ConnectionError [mirrored_cover]).
  reflexivity.
Defined.

Lemma bad_target_aborts_the_batch_witness :
  S3Uploader.mirror_batch sample_urlsplit 9 mock_pool
    ([mirrored_cover] ++ bucket_only :: [mirrored_cover])
  = (S3Uploader.mkBatchState
       ((prepared <$> [mirrored_cover]) ++ prepared bucket_only :: [mirrored_cover])
       [cover_request] 0,
     Raise (match target bucket_only with
            | Some _ => ValueError
            | None => AttributeError
            end)).
Proof.
  apply (bad_target_aborts_the_batch sample_urlsplit 9 mock_pool [mirrored_cover]
           bucket_only [mirrored_cover] [cover_request]).
  - reflexivity.
  - reflexivity.
Defined.

(** *** S3 URLs *)

(** No character of the string is a slash. *)
Fixpoint no_slash (s : string) : bool :=
  match s with
  | EmptyString => true
  | String c rest => negb (Ascii.eqb c "/"%char) && no_slash rest
  end.

Lemma append_cons c s1 s2 : String c s1 +:+ s2 = String c (s1 +:+ s2).
Proof. done. Qed.

Lemma rev_app_append s1 s2 acc :
  String.rev_app (s1 +:+ s2) acc = String.rev_app s2 (String.rev_app s1 acc).
Proof.
  revert acc. induction s1 as [|c s1 IH]; intros acc; [done |].
  rewrite append_cons. simpl. apply IH.
Qed.

(** A string without slash that is not empty does not end in one. *)
Lemma rev_app_no_slash s acc :
  s ≠ EmptyString -> no_slash s = true ->
  String.prefix "/" (String.rev_app s acc) = false.
Proof.
  revert acc. induction s as [|c s IH]; intros acc Hne Hns; [done |].
  simpl in Hns. apply andb_true_iff in Hns as [Hc Hns].
  destruct s as [|c' s'].
  - cbn [String.rev_app String.prefix].
    destruct (ascii_dec "/" c) as [<- | _]; [by vm_compute in Hc | done].
  - change (String.rev_app (String c (String c' s')) acc)
      with (String.rev_app (String c' s') (String c acc)).
    by apply IH.
Qed.

Lemma endswith_slash_no_slash prefix s :
  s ≠ EmptyString -> no_slash s = true -> endswith (prefix +:+ s) "/" = false.
Proof.
  intros Hne Hns. unfold endswith, String.rev. rewrite rev_app_append.
  change (String.rev_app "/" EmptyString) with "/".
  by apply rev_app_no_slash.
Qed.

Lemma split_slash_append bucket filename :
  no_slash bucket = true ->
  split_slash (bucket +:+ "/" +:+ filename) = Some (bucket, filename).
Proof.
  induction bucket as [|c bucket IH]; intros Hns; [done |].
  simpl in Hns. apply andb_true_iff in Hns as [Hc Hns].
  rewrite append_cons. cbn [split_slash].
  apply negb_true_iff in Hc. rewrite Hc. by rewrite IH.
Qed.

Lemma no_slash_prefix scheme s :
  no_slash scheme = false -> no_slash s = true -> String.prefix scheme s = false.
Proof.
  revert s. induction scheme as [|c scheme IH]; intros s Hscheme Hns; [done |].
  destruct s as [|c' s]; [done |].
  cbn [no_slash String.prefix] in *. apply andb_true_iff in Hns as [Hc' Hns].
  destruct (ascii_dec c c') as [<- | _]; [| done].
  rewrite Hc' in Hscheme. by apply IH.
Qed.

Lemma append_assoc s1 s2 s3 : (s1 +:+ s2) +:+ s3 = s1 +:+ s2 +:+ s3.
Proof.
  induction s1 as [|c s1 IH]; [done |]. by rewrite !append_cons, IH.
Qed.

Lemma prefix_slash_cons s : String.prefix "/" (String "/" s) = true.
Proof.
  cbn [String.prefix]. destruct (ascii_dec "/" "/"); [by destruct s | done].
Qed.

Section S3Urls.

Import S3Uploader.

Variable urlsplit : string -> string * string.

(** X22. For a bucket name that is not empty and holds no slash, and a file
    name that does not start with a slash, [url] gives
    [http://s3.amazonaws.com/<bucket>/<filename>], and
    [bucket_and_filename] reads the same bucket and file name back off that
    URL, [urlsplit] giving its host and path: the S3 URL of a response is
    the S3 URL of its own bucket and file name. *)
Theorem s3_url_round_trip bucket filename :
  bucket ≠ EmptyString ->
  no_slash bucket = true ->
  String.prefix "/" filename = false ->
  urlsplit (url bucket filename)
  = ("s3.amazonaws.com", "/" +:+ bucket +:+ "/" +:+ filename) ->
  url bucket filename = "http://s3.amazonaws.com/" +:+ bucket +:+ "/" +:+ filename
  ∧ bucket_and_filename urlsplit (url bucket filename) = Ok (bucket, filename)
  ∧ ∀ b f, bucket_and_filename urlsplit (url bucket filename) = Ok (b, f) ->
           url b f = url bucket filename.
Proof.
  intros Hne Hns Hfile Hsplit.
  assert (Hurl : url bucket filename
                 = "http://s3.amazonaws.com/" +:+ bucket +:+ "/" +:+ filename).
  { unfold url. rewrite Hfile.
    rewrite (no_slash_prefix "http://" bucket), (no_slash_prefix "https://" bucket)
      by done.
    cbn [orb]. rewrite (endswith_slash_no_slash S3_BASE bucket) by done.
    cbn [negb]. by rewrite !append_assoc. }
  assert (Hback : bucket_and_filename urlsplit (url bucket filename)
                  = Ok (bucket, filename)).
  { unfold bucket_and_filename. rewrite Hsplit.
    change (String.eqb "s3.amazonaws.com" "s3.amazonaws.com") with true.
    cbn iota.
    change ("/" +:+ bucket +:+ "/" +:+ filename)
      with (String "/" (bucket +:+ "/" +:+ filename)).
    rewrite prefix_slash_cons.
    cbn [drop_first]. by rewrite split_slash_append. }
  split; [done |]. split; [done |].
  intros b f. rewrite Hback. by intros [= <- <-].
Qed.

End S3Urls.

Lemma s3_url_round_trip_witness :
  S3Uploader.url "covers.example" "1/cover.jpg"
  = "http://s3.amazonaws.com/" +:+ "covers.example" +:+ "/" +:+ "1/cover.jpg"
  ∧ S3Uploader.bucket_and_filename
      (fun _ => ("s3.amazonaws.com", "/covers.example/1/cover.jpg"))
      (S3Uploader.url "covers.example" "1/cover.jpg")
    = Ok ("covers.example", "1/cover.jpg")
  ∧ ∀ b f,
      S3Uploader.bucket_and_filename
        (fun _ => ("s3.amazonaws.com", "/covers.example/1/cover.jpg"))
        (S3Uploader.url "covers.example" "1/cover.jpg") = Ok (b, f) ->
      S3Uploader.url b f = S3Uploader.url "covers.example" "1/cover.jpg".
Proof.
  apply (s3_url_round_trip
           (fun _ => ("s3.amazonaws.com", "/covers.example/1/cover.jpg"))
           "covers.example" "1/cover.jpg").
  - discriminate.
  - reflexivity.
  - reflexivity.
  - reflexivity.
Defined.

(** *** The roots of hosted content (s3.py) *)

(** [data_source]: a name, or an object with a [name]. *)
Inductive DataSourceArg : Type :=
| SourceName (name : string)
| SourceObject (name : string).

Module S3Roots.

Import S3Uploader.

Section Roots.

(** [urllib.quote] *)
Variable quote : string -> string.

(** [_cover_image_root(bucket, data_source, scaled_size)]; a size of zero
    is falsy. *)
Definition _cover_image_root (bucket : string) (data_source : DataSourceArg)
    (scaled_size : option Z) : string :=
  let path :=
    match scaled_size with
    | Some n => if n =? 0 then "/" else "/scaled/" +:+ pretty n +:+ "/"
    | None => "/"
    end in
  let data_source_name :=
    match data_source with
    | SourceName name => name
    | SourceObject name => name
    end in
  let data_source_name := quote data_source_name in
  let path := path +:+ data_source_name +:+ "/" in
  let url := url bucket path in
  if negb (endswith url "/") then url +:+ "/" else url.

(** [_content_root(bucket, open_access)] *)
Definition _content_root (bucket : string) (open_access : bool) : result string :=
  if negb open_access then Raise (OtherError "NotImplementedError")
  else Ok (url bucket "/").

(** [feed_url(filename, extension, open_access)], for the bucket that
    [content_root] reads from the configuration. *)
Definition feed_url (bucket filename extension : string) (open_access : bool)
  : result string :=
  root ← _content_root bucket open_access;
  let extension :=
    if negb (String.prefix "." extension) then "." +:+ extension else extension in
  let filename :=
    if negb (endswith filename extension) then filename +:+ extension else filename in
  Ok (root +:+ filename).

End Roots.

End S3Roots.

Lemma rev_app_acc s acc : String.rev_app s acc = String.rev s +:+ acc.
Proof.
  unfold String.rev. revert acc. induction s as [|c s IH]; intros acc; [done |].
  cbn [String.rev_app]. rewrite (IH (String c acc)), (IH (String c EmptyString)).
  by rewrite append_assoc.
Qed.

Lemma rev_append s1 s2 : String.rev (s1 +:+ s2) = String.rev s2 +:+ String.rev s1.
Proof. unfold String.rev at 1. by rewrite rev_app_append, rev_app_acc. Qed.

Lemma prefix_nil s : String.prefix EmptyString s = true.
Proof. by destruct s. Qed.

Lemma prefix_append_r s1 s2 s3 :
  String.prefix s1 s2 = true -> String.prefix s1 (s2 +:+ s3) = true.
Proof.
  revert s2. induction s1 as [|c s1 IH]; intros s2; [intros _; apply prefix_nil |].
  destruct s2 as [|c' s2]; [done |].
  rewrite append_cons. cbn [String.prefix].
  destruct (ascii_dec c c'); [apply IH | done].
Qed.

Lemma prefix_refl s : String.prefix s s = true.
Proof.
  induction s as [|c s IH]; [done |]. cbn [String.prefix].
  by destruct (ascii_dec c c).
Qed.

(** [(s + suffix).endswith(suffix)] *)
Lemma endswith_append s suffix : endswith (s +:+ suffix) suffix = true.
Proof.
  unfold endswith. rewrite rev_append. apply prefix_append_r, prefix_refl.
Qed.

(** [s.endswith(suffix)] gives [(pre + s).endswith(suffix)]. *)
Lemma endswith_append_l pre s suffix :
  endswith s suffix = true -> endswith (pre +:+ s) suffix = true.
Proof. unfold endswith. rewrite rev_append. apply prefix_append_r. Qed.

Section RootFacts.

Import S3Uploader S3Roots.

Variable quote : string -> string.

(** The text [url] puts before the path. *)
Definition url_base (bucket : string) : string :=
  let url :=
    if String.prefix "http://" bucket || String.prefix "https://" bucket
    then bucket
    else S3_BASE +:+ bucket in
  if negb (endswith url "/") then url +:+ "/" else url.

Lemma url_of_slash_path bucket path :
  url bucket (String "/" path) = url_base bucket +:+ path.
Proof. unfold url, url_base. by rewrite prefix_slash_cons. Qed.

(** X23. The cover image root always ends in a slash, and the closing test
    of [_cover_image_root] never adds one: the root is [url] of the bucket
    and of the path made of the scaled size, when there is one and it is not
    zero, and the quoted name of the data source. *)
Theorem cover_image_root_ends_in_slash bucket data_source scaled_size :
  endswith (_cover_image_root quote bucket data_source scaled_size) "/" = true
  ∧ ∃ path,
      _cover_image_root quote bucket data_source scaled_size = url bucket path
      ∧ endswith path "/" = true.
Proof.
  unfold _cover_image_root.
  set (name := quote match data_source with
                     | SourceName name => name
                     | SourceObject name => name
                     end).
  set (path := match scaled_size with
               | Some n => if n =? 0 then "/" else "/scaled/" +:+ pretty n +:+ "/"
               | None => "/"
               end +:+ name +:+ "/").
  assert (Hpath : ∃ rest, path = String "/" (rest +:+ "/")).
  { unfold path. destruct scaled_size as [n|]; [destruct (n =? 0) |].
    - by exists name.
    - exists ("scaled/" +:+ pretty n +:+ "/" +:+ name).
      change ("/scaled/" +:+ pretty n +:+ "/")
        with (String "/" ("scaled/" +:+ pretty n +:+ "/")).
      by rewrite append_cons, !append_assoc.
    - by exists name. }
  destruct Hpath as [rest Hrest].
  assert (Hend : endswith (url bucket path) "/" = true).
  { rewrite Hrest, url_of_slash_path, <- append_assoc. apply endswith_append. }
  rewrite Hend. cbn [negb]. split; [done |].
  exists path. split; [done |]. rewrite Hrest.
  change (String "/" (rest +:+ "/")) with ("/" +:+ rest +:+ "/").
  rewrite <- append_assoc. apply endswith_append.
Qed.

(** The extension with its leading dot. *)
Definition dotted (extension : string) : string :=
  if negb (String.prefix "." extension) then "." +:+ extension else extension.

(** X24. For open-access content [feed_url] returns the content root
    followed by a file name that ends in the extension with its leading dot:
    the given name when it already ends so, and the name with that extension
    added otherwise.  Asking for the URL of the returned file name gives the
    same URL: an extension is never added twice.  For content that is not
    open-access it raises. *)
Theorem feed_url_carries_the_extension bucket filename extension :
  (∃ name,
     feed_url bucket filename extension true = Ok (url bucket "/" +:+ name)
     ∧ name = (if endswith filename (dotted extension) then filename
               else filename +:+ dotted extension)
     ∧ endswith (url bucket "/" +:+ name) (dotted extension) = true
     ∧ feed_url bucket name extension true = feed_url bucket filename extension true)
  ∧ is_ok (feed_url bucket filename extension false) = false.
Proof.
  split; [| done].
  unfold feed_url, _content_root. cbn [negb mbind result_bind].
  fold (dotted extension).
  destruct (endswith filename (dotted extension)) eqn:Hend; cbn [negb].
  - exists filename. split; [done |]. split; [done |].
    split; [by apply endswith_append_l |]. by rewrite Hend.
  - exists (filename +:+ dotted extension). split; [done |]. split; [done |].
    split; [apply endswith_append_l, endswith_append |].
    by rewrite endswith_append.
Qed.

End RootFacts.

(** *** The media type of a fetched feed (OPDS2ImportMonitor) *)

(** [needle in hay], for two strings. *)
Fixpoint contains (needle hay : string) : bool :=
  match hay with
  | EmptyString => String.prefix needle EmptyString
  | String _ rest => String.prefix needle hay || contains needle rest
  end.

Module OPDS2ImportMonitor.

Section Verify.

(** [OPDS2MediaTypesRegistry.OPDS_FEED.key] *)
Variable OPDS_FEED_key : string.

Definition MEDIA_TYPE : list string := [OPDS_FEED_key; "application/json"].

(** [_verify_media_type(url, status_code, headers, feed)], for the value
    [headers.get("content-type")]; it raises [BadResponseException]. *)
Definition _verify_media_type (content_type : option string) : result () :=
  let media_type := content_type in
  if negb (truthy media_type)
     || negb (existsb (fun x => match media_type with
                                | Some m => contains x m
                                | None => false
                                end) MEDIA_TYPE)
  then Raise (OtherError "BadResponseException")
  else Ok ().

End Verify.

End OPDS2ImportMonitor.

Lemma contains_prefix needle hay :
  String.prefix needle hay = true -> contains needle hay = true.
Proof. destruct hay; [done |]. cbn [contains]. by intros ->. Qed.

Lemma contains_append needle before after :
  contains needle (before +:+ needle +:+ after) = true.
Proof.
  induction before as [|c before IH].
  - change (EmptyString +:+ needle +:+ after) with (needle +:+ after).
    apply contains_prefix, prefix_append_r, prefix_refl.
  - rewrite append_cons. cbn [contains]. rewrite IH. apply orb_true_r.
Qed.

Lemma append_truthy before s after :
  s ≠ EmptyString -> truthy (Some (before +:+ s +:+ after)) = true.
Proof.
  intros Hne. destruct before as [|c before]; [| done].
  destruct s as [|c s]; done.
Qed.

(** X25. [_verify_media_type] looks for the accepted media types anywhere
    inside the Content-Type header: a header made of an accepted type with
    any text before and after it passes, so parameters after the type do no
    harm, and a longer type that merely contains an accepted one passes as
    well.  A missing or empty header raises. *)
Theorem media_type_is_matched_as_a_substring OPDS_FEED_key accepted before after :
  accepted ∈ OPDS2ImportMonitor.MEDIA_TYPE OPDS_FEED_key ->
  accepted ≠ EmptyString ->
  OPDS2ImportMonitor._verify_media_type OPDS_FEED_key
    (Some (before +:+ accepted +:+ after)) = Ok ()
  ∧ is_ok (OPDS2ImportMonitor._verify_media_type OPDS_FEED_key None) = false
  ∧ is_ok (OPDS2ImportMonitor._verify_media_type OPDS_FEED_key (Some EmptyString))
    = false.
Proof.
  intros Hin Hne. split; [| done].
  unfold OPDS2ImportMonitor._verify_media_type.
  rewrite append_truthy by done. cbn [negb orb].
  assert (Hex : existsb (fun x => contains x (before +:+ accepted +:+ after))
                  (OPDS2ImportMonitor.MEDIA_TYPE OPDS_FEED_key) = true).
  { apply existsb_exists. exists accepted. split; [| apply contains_append].
    by apply list_elem_of_In. }
  by rewrite Hex.
Qed.

Lemma media_type_is_matched_as_a_substring_witness :
  OPDS2ImportMonitor._verify_media_type "application/opds+json"
    (Some (EmptyString +:+ "application/json" +:+ "; charset=utf-8")) = Ok ()
  ∧ is_ok (OPDS2ImportMonitor._verify_media_type "application/opds+json" None) = false
  ∧ is_ok (OPDS2ImportMonitor._verify_media_type "application/opds+json"
             (Some EmptyString)) = false.
Proof.
  apply (media_type_is_matched_as_a_substring "application/opds+json"
           "application/json" EmptyString "; charset=utf-8").
  - right. left.
  - discriminate.
Defined.

(** ** Change detection before mirroring *)

(** What a conditional fetch of a source answers:
    [conditionalGet(url) -> NotModified | (content, headers)]. *)
Inductive ConditionalGet : Type :=
| NotModified
| NewContent (content : string).

Module AssetMirror.

Section ChangeDetection.

Variable urlsplit : string -> string * string.
Variable now : Z.
Variable as_completed : list UploadRequest -> list Response * option exn.

(** The conditional fetch of a source URL. *)
Variable conditional_get : option string -> ConditionalGet.

(** The representation with the content just fetched. *)
Definition set_content (r : Representation) (content : string) : Representation :=
  mkRepresentation (rep_url r) (mirror_url r) (external_media_type r) content
    (local_content_path r) (mirrored_at r) (mirror_exception r).

(** Modelled from the spec: the change detection of the asset mirror, which
    is neither in s3.py nor elsewhere under src/ (the importer runs it before
    it calls the uploader, and [test_resources_are_mirrored_on_import] shows
    it from outside).  "Before re-uploading on a subsequent run, issue a
    conditional fetch ... of the source; a not modified result skips the
    upload entirely and leaves the existing mirror untouched."  The result
    is the representation to hand to the uploader, if any; one that was
    never mirrored is handed over as it is. *)
Definition detect_change (r : Representation) : option Representation :=
  match mirrored_at r with
  | None => Some r
  | Some _ =>
      match conditional_get (rep_url r) with
      | NotModified => None
      | NewContent content => Some (set_content r content)
      end
  end.

(** Modelled from the spec: a subsequent run for one representation, change
    detection first and then [mirror_one] as s3.py has it.  A skipped
    representation is left as it is, with no upload and no file handle. *)
Definition mirror_if_changed (r : Representation) : S3Uploader.BatchState * result () :=
  match detect_change r with
  | None => (S3Uploader.mkBatchState [r] [] 0, Ok ())
  | Some changed => S3Uploader.mirror_one urlsplit now as_completed changed
  end.

End ChangeDetection.

End AssetMirror.

Lemma filter_all {A} (P : A -> Prop) `{∀ x, Decision (P x)} (l : list A) :
  Forall P l -> filter P l = l.
Proof.
  induction 1 as [|x l Hx _ IH]; [done |].
  by rewrite filter_cons, decide_True, IH.
Qed.

Section ChangeDetectionFacts.

Import S3Uploader.

Variable urlsplit : string -> string * string.
Variable now : Z.
Variable as_completed : list UploadRequest -> list Response * option exn.

(** [mirror_one] on a representation with a request, when the pool answers
    under the request's S3 URL only and its iteration ends normally or with
    an error that is caught: one upload, and the representation left as the
    last response says. *)
Lemma mirror_one_outcome r request responses interruption :
  request_of urlsplit r = Some request ->
  as_completed [request] = (responses, interruption) ->
  Forall (fun response => resp_url response = response_url_of request) responses ->
  match interruption with Some e => caught e = true | None => True end ->
  mirror_one urlsplit now as_completed r
  = (mkBatchState
       [match last responses with
        | Some response => response_outcome now (prepared r) response
        | None => prepared r
        end]
       [request] 1, Ok ()).
Proof.
  intros Hreq Hpool Hanswers Hend.
  assert (Hmap : mapM (request_of urlsplit) [r] = Some [request]).
  { simpl. by rewrite Hreq. }
  assert (Hurl : ∀ response, response ∈ responses ->
            index_requests 0 [request] ∅ !! resp_url response = Some 0%nat).
  { intros response Hin. rewrite Forall_forall in Hanswers.
    rewrite (Hanswers response Hin). simpl. apply lookup_insert_eq. }
  destruct (responses_loop_completes now (index_requests 0 [request] ∅) responses
              (prepared <$> [r])) as (reps' & Hrun & Hlen & Hfinal).
  { intros response Hin. exists 0%nat. split; [by apply Hurl | simpl; lia]. }
  assert (Hfor : responses_for (index_requests 0 [request] ∅) 0 responses = responses).
  { unfold responses_for. apply filter_all. apply Forall_forall. apply Hurl. }
  specialize (Hfinal 0%nat (prepared r) eq_refl). rewrite Hfor in Hfinal.
  assert (Hreps : reps' = [match last responses with
                           | Some response => response_outcome now (prepared r) response
                           | None => prepared r
                           end]).
  { destruct reps' as [|x [|y reps']]; simpl in Hlen; try done.
    simpl in Hfinal. by injection Hfinal as ->. }
  unfold mirror_one, mirror_batch.
  rewrite (upload_loop_all urlsplit [r] [request] Hmap), Hpool, Hrun, Hreps.
  destruct interruption as [e|]; [by rewrite Hend | done].
Qed.

End ChangeDetectionFacts.


(** A conditional fetch that finds new content, and a pool whose iteration
    ends with a connection error before any response. *)
Definition cover_changed (u : option string) : ConditionalGet :=
  NewContent "JPEG, retouched".

Definition cover_unchanged (u : option string) : ConditionalGet := NotModified.

Definition silent_pool (requests : list UploadRequest) : list Response * option exn :=
  ([], Some ConnectionError).

Definition retouched_request : UploadRequest :=
  mkUploadRequest "1/cover.jpg" "JPEG, retouched" "covers.example" (Some "image/jpeg").


